(** * convert_pdfs_to_markdown.py: batch conversion of documents to Markdown

    A shallow embedding of [src/convert_pdfs_to_markdown.py].  The script
    discovers the documents of an input directory, sends each one to a
    remote conversion service under a semaphore of ten permits, writes the
    Markdown that comes back unless the output is already there, and
    prints a summary.

    What the embedding fixes:
    - A Python string is a sequence of code points; here it is the
      [string] of the bytes of its UTF-8 encoding, and a character is a
      byte that continues none together with the continuation bytes after
      it.  [len] and slices count characters, not bytes.
    - [pathlib] paths follow [PurePosixPath]: a root and a list of parts.
      A path names the node it spells: no symbolic links, no [..] that is
      resolved, no second spelling through the working directory.
    - The file tree is a finite map from paths to nodes; what the operating
      system refuses for reasons of its own (permissions, quota) is an
      oracle in the world.
    - Exceptions are the ones [except Exception] catches, and [SystemExit].
    - The remote service is opaque: a response either raises or returns an
      object whose [markdown] attribute may be absent.
    - A coroutine is cut at its [await]: the code before it is one function,
      the code after it another, and the event loop is a step relation that
      interleaves the jobs. *)

From Stdlib Require Import Ascii.
From Stdlib Require String.
From stdpp Require Import gmap strings list fin_maps pretty relations.

(** ** Strings *)

Module Str.

(** A byte [10xxxxxx] continues the character that began before it. *)
Definition continuation (c : ascii) : bool :=
  match c with
  | Ascii _ _ _ _ _ _ b6 b7 => b7 && negb b6
  end.

(** [len(s)] *)
Fixpoint len (s : string) : nat :=
  match s with
  | EmptyString => 0
  | String c s' => if continuation c then len s' else S (len s')
  end.

(** [s[:n]]: the first [n] characters, each with its continuation bytes. *)
Fixpoint take (n : nat) (s : string) : string :=
  match s with
  | EmptyString => EmptyString
  | String c s' =>
      if continuation c then String c (take n s')
      else match n with
           | O => EmptyString
           | S n' => String c (take n' s')
           end
  end.

Definition upper_char (c : ascii) : ascii :=
  let n := nat_of_ascii c in
  if (97 <=? n)%nat && (n <=? 122)%nat then ascii_of_nat (n - 32) else c.

Definition lower_char (c : ascii) : ascii :=
  let n := nat_of_ascii c in
  if (65 <=? n)%nat && (n <=? 90)%nat then ascii_of_nat (n + 32) else c.

Fixpoint map (f : ascii → ascii) (s : string) : string :=
  match s with
  | EmptyString => EmptyString
  | String c s' => String (f c) (map f s')
  end.

(** [s.upper()] and [s.lower()] on the ASCII letters. *)
Definition upper : string → string := map upper_char.
Definition lower : string → string := map lower_char.

(** [s.split("/")] *)
Fixpoint split_slash (s : string) : list string :=
  match s with
  | EmptyString => [EmptyString]
  | String c s' =>
      if Ascii.eqb c "/"%char then EmptyString :: split_slash s'
      else match split_slash s' with
           | h :: t => String c h :: t
           | [] => [String c EmptyString]
           end
  end.

(** ["/".join(l)] *)
Fixpoint join_slash (l : list string) : string :=
  match l with
  | [] => EmptyString
  | [x] => x
  | x :: l' => x +:+ "/" +:+ join_slash l'
  end.

(** [s.rfind(".")], [None] standing for [-1]: the number of characters
    before the last dot. *)
Fixpoint rfind_dot (s : string) : option nat :=
  match s with
  | EmptyString => None
  | String c s' =>
      match rfind_dot s' with
      | Some i => Some (if continuation c then i else S i)
      | None => if Ascii.eqb c "."%char then Some 0%nat else None
      end
  end.

(** [s.endswith(suffix)]: [suffix] is [s] or ends what follows the first
    character of [s]. *)
Fixpoint endswith (s suffix : string) : bool :=
  String.eqb s suffix
  || match s with
     | EmptyString => false
     | String _ s' => endswith s' suffix
     end.

(** [fnmatch.fnmatchcase(name, pat)] for patterns built from literal
    characters, [*] and [?]. *)
Fixpoint fnmatchcase (pat name : string) : bool :=
  match pat with
  | EmptyString => match name with EmptyString => true | _ => false end
  | String c pat' =>
      if Ascii.eqb c "*"%char then
        (fix star (name : string) : bool :=
           fnmatchcase pat' name
           || match name with
              | EmptyString => false
              | String _ name' => star name'
              end) name
      else
        match name with
        | EmptyString => false
        | String d name' =>
            (Ascii.eqb c "?"%char || Ascii.eqb c d) && fnmatchcase pat' name'
        end
  end.

End Str.

(** ** pathlib: pure paths of the POSIX flavour *)

Record Path := mkPath { root : string; parts : list string }.

Global Instance Path_eq_dec : EqDecision Path.
Proof. solve_decision. Defined.

Global Instance Path_countable : Countable Path.
Proof.
  refine (inj_countable' (λ p, (root p, parts p)) (λ t, mkPath t.1 t.2) _).
  by intros [].
Defined.

Module PurePath.

(** [posixpath.splitroot]: one leading slash, or three and more, is the
    root ["/"]; exactly two are the root ["//"]. *)
Definition splitroot (p : string) : string * string :=
  match p with
  | String "/"%char (String "/"%char (String "/"%char _ as rest)) => ("/", rest)
  | String "/"%char (String "/"%char rest) => ("//", rest)
  | String "/"%char rest => ("/", rest)
  | _ => (EmptyString, p)
  end.

(** [Path(s)]: the components between slashes, without the empty ones
    and without ["."]. *)
Definition of_string (s : string) : Path :=
  let '(r, rel) := splitroot s in
  {| root := r;
     parts := filter (λ x, x ≠ EmptyString ∧ x ≠ ".") (Str.split_slash rel) |}.

(** [str(p)] *)
Definition to_string (p : Path) : string :=
  match root p +:+ Str.join_slash (parts p) with
  | EmptyString => "."
  | s => s
  end.

(** [p.name] *)
Definition name (p : Path) : string := default EmptyString (last (parts p)).

(** [p.parent] *)
Definition parent (p : Path) : Path :=
  {| root := root p; parts := removelast (parts p) |}.

(** [p / s]: an absolute right operand replaces the path. *)
Definition joinpath (p : Path) (s : string) : Path :=
  let q := of_string s in
  if decide (root q = EmptyString) then {| root := root p; parts := parts p ++ parts q |}
  else q.

(** [p.stem]: the name up to its last dot, unless that dot is the first
    or the last character. *)
Definition stem (p : Path) : string :=
  let n := name p in
  match Str.rfind_dot n with
  | Some i =>
      if decide (0 < i ∧ i < Str.len n - 1)%nat then Str.take i n else n
  | None => n
  end.

End PurePath.

Infix "//" := PurePath.joinpath (at level 40, left associativity).

(** ** The world the script runs in *)

(** A node of the file tree. *)
Inductive Node := File (content : string) | Dir.

Global Instance Node_eq_dec : EqDecision Node.
Proof. solve_decision. Defined.

(** Exceptions carry the text [str(e)] gives.  [sys.exit] raises a
    [SystemExit], which is not an [Exception]. *)
Inductive Exn := Exception (msg : string) | SystemExit (code : nat).

Inductive Outcome (A : Type) := Ok (a : A) | Raise (e : Exn).
Arguments Ok {A} a.
Arguments Raise {A} e.

Record World := mkWorld {
  tree : gmap Path Node;            (* the file system *)
  os_error : Path → option string;  (* refusals that the tree does not explain *)
  stat_error : Path → option string; (* what [stat] refuses, e.g. below a locked directory *)
  case_sensitive : bool;            (* casing rule of the path flavour *)
  environ : gmap string string;     (* os.environ *)
  calls : list string;              (* file_path of every client.convert so far *)
  sem_value : nat;                  (* semaphore._value *)
  pbar_desc : string;               (* the progress bar *)
  pbar_n : nat;
  pbar_total : nat;
  stdout : list string;             (* one entry for each print *)
}.

Definition set_tree (f : gmap Path Node → gmap Path Node) (w : World) : World :=
  mkWorld (f (tree w)) (os_error w) (stat_error w) (case_sensitive w) (environ w) (calls w)
    (sem_value w) (pbar_desc w) (pbar_n w) (pbar_total w) (stdout w).
Definition set_environ (f : gmap string string → gmap string string) (w : World) : World :=
  mkWorld (tree w) (os_error w) (stat_error w) (case_sensitive w) (f (environ w)) (calls w)
    (sem_value w) (pbar_desc w) (pbar_n w) (pbar_total w) (stdout w).
Definition set_calls (f : list string → list string) (w : World) : World :=
  mkWorld (tree w) (os_error w) (stat_error w) (case_sensitive w) (environ w) (f (calls w))
    (sem_value w) (pbar_desc w) (pbar_n w) (pbar_total w) (stdout w).
Definition set_sem_value (f : nat → nat) (w : World) : World :=
  mkWorld (tree w) (os_error w) (stat_error w) (case_sensitive w) (environ w) (calls w)
    (f (sem_value w)) (pbar_desc w) (pbar_n w) (pbar_total w) (stdout w).
Definition set_pbar (desc : string) (n total : nat) (w : World) : World :=
  mkWorld (tree w) (os_error w) (stat_error w) (case_sensitive w) (environ w) (calls w)
    (sem_value w) desc n total (stdout w).
Definition set_stdout (f : list string → list string) (w : World) : World :=
  mkWorld (tree w) (os_error w) (stat_error w) (case_sensitive w) (environ w) (calls w)
    (sem_value w) (pbar_desc w) (pbar_n w) (pbar_total w) (f (stdout w)).

(** Statements run in a world, change it, and return or raise. *)
Definition M (A : Type) : Type := World → World * Outcome A.

Definition ret {A} (a : A) : M A := λ w, (w, Ok a).
Definition raise {A} (e : Exn) : M A := λ w, (w, Raise e).
Definition bind {A B} (m : M A) (k : A → M B) : M B :=
  λ w, match m w with
       | (w', Ok a) => k a w'
       | (w', Raise e) => (w', Raise e)
       end.

(** [try: body  except Exception as e: handler(str(e))] *)
Definition try_except {A} (body : M A) (handler : string → M A) : M A :=
  λ w, match body w with
       | (w', Raise (Exception msg)) => handler msg w'
       | r => r
       end.

Global Instance M_ret : MRet M := @ret.
Global Instance M_bind : MBind M := λ A B k m, bind m k.

Definition modify (f : World → World) : M unit := λ w, (f w, Ok tt).

Definition nl : string := String (ascii_of_nat 10) EmptyString.

(** [print(s)] *)
Definition print (s : string) : M unit := modify (set_stdout (λ out, out ++ [s])).

(** [os.getenv(k)] *)
Definition getenv (k : string) : M (option string) := λ w, (w, Ok (environ w !! k)).

(** [os.environ[k] = v] *)
Definition setenv (k v : string) : M unit := modify (set_environ <[k := v]>).

(** *** The file system *)

(** The root and the working directory are always there. *)
Definition lookup_node (w : World) (p : Path) : option Node :=
  match parts p with
  | [] => Some Dir
  | _ => tree w !! p
  end.

(** [p.exists()]: whether the path is there; an error of [stat] other
    than the path not being there (a directory on the way that must not be
    searched) is raised. *)
Definition exists_ (p : Path) : M bool :=
  λ w, match stat_error w p with
       | Some e => (w, Raise (Exception e))
       | None => (w, Ok (bool_decide (is_Some (lookup_node w p))))
       end.

(** [p.is_dir()] *)
Definition is_dir (w : World) (p : Path) : bool :=
  bool_decide (lookup_node w p = Some Dir).

Definition quote (p : Path) : string := "'" +:+ PurePath.to_string p +:+ "'".

(** What lies between the slashes of a name, and is not skipped when the
    name is read as a path. *)
Definition named (x : string) : bool :=
  negb (String.eqb x EmptyString) && negb (String.eqb x ".").

(** The runs of a name up to its [j]-th component and the run after it. *)
Fixpoint through_runs (j : nat) (runs : list string) : list string :=
  match runs with
  | [] => []
  | x :: runs' =>
      match j with
      | O => if String.eqb x EmptyString then x :: through_runs O runs' else [x]
      | S j' => x :: through_runs (if named x then j' else j) runs'
      end
  end.

(** The beginning of [name] that [os.makedirs] hands to [mkdir] when the
    [j]-th component of [name] turns out to be a file. *)
Definition through (j : nat) (name : string) : string :=
  Str.join_slash (through_runs j (Str.split_slash name)).

(** Who walks down the path: [os.makedirs(name, exist_ok=True)], which
    names in its errors the string it was given, or
    [p.mkdir(parents=True, exist_ok=True)], which names the path. *)
Inductive Walk := OsMakedirs (name : string) | PathMkdir.

(** The last component is a file. *)
Definition file_exists_text (wk : Walk) (p : Path) : string :=
  "[Errno 17] File exists: "
  +:+ match wk with
      | OsMakedirs name => "'" +:+ name +:+ "'"
      | PathMkdir => quote p
      end.

(** The component [above] ends with is a file, and [below] follows it. *)
Definition not_a_directory_text (wk : Walk) (r : string) (above below : list string)
  : string :=
  "[Errno 20] Not a directory: "
  +:+ match wk with
      | OsMakedirs name => "'" +:+ through (length above) name +:+ "'"
      | PathMkdir => quote (mkPath r (above ++ below))
      end.

(** Walk down from the root, keep the directories that exist, create the
    missing ones, fail on a file. *)
Fixpoint makedirs_from (wk : Walk) (r : string) (above below : list string) : M unit :=
  match below with
  | [] => ret tt
  | x :: below' =>
      let p := mkPath r (above ++ [x]) in
      λ w, match tree w !! p with
           | Some Dir => makedirs_from wk r (above ++ [x]) below' w
           | Some (File _) =>
               match below' with
               | [] => (w, Raise (Exception (file_exists_text wk p)))
               | _ => (w, Raise (Exception
                                   (not_a_directory_text wk r (above ++ [x]) below')))
               end
           | None =>
               match os_error w p with
               | Some e => (w, Raise (Exception e))
               | None => makedirs_from wk r (above ++ [x]) below' (set_tree <[p := Dir]> w)
               end
           end
  end.

(** [os.makedirs(name, exist_ok=True)] *)
Definition makedirs (name : string) : M unit :=
  let p := PurePath.of_string name in
  makedirs_from (OsMakedirs name) (root p) [] (parts p).

(** [p.mkdir(parents=True, exist_ok=True)] *)
Definition mkdir (p : Path) : M unit := makedirs_from PathMkdir (root p) [] (parts p).

(** [p.write_text(content, encoding="utf-8")] *)
Definition write_text (p : Path) (content : string) : M unit :=
  λ w, match lookup_node w p with
       | Some Dir => (w, Raise (Exception ("[Errno 21] Is a directory: " +:+ quote p)))
       | _ =>
           if negb (is_dir w (PurePath.parent p)) then
             (w, Raise (Exception ("[Errno 2] No such file or directory: " +:+ quote p)))
           else match os_error w p with
                | Some e => (w, Raise (Exception e))
                | None => (set_tree <[p := File content]> w, Ok tt)
                end
       end.

(** The names of the entries of directory [d], as [os.scandir] lists them. *)
Definition child_name (d : Path) (k : Path) : option string :=
  match decide (root k = root d), last (parts k) with
  | left _, Some n => if decide (parts k = parts d ++ [n]) then Some n else None
  | _, _ => None
  end.

Definition scandir (w : World) (d : Path) : list string :=
  omap (child_name d) (elements (dom (tree w))).

(** The entry [n] of directory [d]: the parts of [d] and the name. *)
Definition child (d : Path) (n : string) : Path := mkPath (root d) (parts d ++ [n]).

(** How [glob] compares a name with a pattern: as they are on a
    case-sensitive flavour, in small letters on the other. *)
Definition fnmatch (w : World) (pat name : string) : bool :=
  if case_sensitive w then Str.fnmatchcase pat name
  else Str.fnmatchcase (Str.lower pat) (Str.lower name).

(** [list(d.glob(pattern))] for a pattern of one component: nothing
    unless [d] is a directory; otherwise its entries whose name matches.
    The [is_dir] it begins with raises what [stat] refuses. *)
Definition glob (d : Path) (pattern : string) : M (list Path) :=
  λ w, match stat_error w d with
       | Some e => (w, Raise (Exception e))
       | None =>
           (w, Ok (if is_dir w d then
                     child d <$> filter (λ n, fnmatch w pattern n = true) (scandir w d)
                   else []))
       end.

(** *** The progress bar and the semaphore *)

(** [tqdm(total=n, desc=d, unit="file")] *)
Definition tqdm (total : nat) (desc : string) : M unit := modify (set_pbar desc 0 total).

(** [pbar.set_description(d)] *)
Definition pbar_set_description (d : string) : M unit :=
  modify (λ w, set_pbar d (pbar_n w) (pbar_total w) w).

(** [pbar.update(k)] *)
Definition pbar_update (k : nat) : M unit :=
  modify (λ w, set_pbar (pbar_desc w) (pbar_n w + k) (pbar_total w) w).

(** [pbar.close()]: the bar stays as it is. *)
Definition pbar_close : M unit := mret tt.

(** [asyncio.Semaphore(n)] *)
Definition Semaphore (n : nat) : M unit := modify (set_sem_value (λ _, n)).

(** [semaphore.acquire()] completes only while a permit is left; with none
    the coroutine stays suspended, which is [None]. *)
Definition acquire (w : World) : option World :=
  match sem_value w with
  | O => None
  | S n => Some (set_sem_value (λ _, n) w)
  end.

(** [semaphore.release()] *)
Definition release : M unit := modify (set_sem_value S).

(** Leaving the block of [async with semaphore]: the permit goes back
    however [body] ends, by [return] or by an exception. *)
Definition releasing {A} (body : M A) : M A :=
  λ w, match body w with
       | (w', o) => match release w' with (w'', _) => (w'', o) end
       end.

(** An exception that leaves the block of [async with semaphore] while
    the job has not yet suspended gives the permit back on its way. *)
Definition released_on_raise {A} (body : M A) : M A :=
  λ w, match body w with
       | (w', Raise e) => match release w' with (w'', _) => (w'', Raise e) end
       | r => r
       end.

(** ** The remote conversion service *)

(** What [await client.convert(...)] comes back with: an exception, or a
    result object whose [markdown] attribute may be missing. *)
Inductive Response := Raises (msg : string) | Returns (markdown : option string).

(** [result = await client.convert(...)], once the response is there. *)
Definition awaited (resp : Response) : M (option string) :=
  match resp with
  | Raises msg => raise (Exception msg)
  | Returns markdown => ret markdown
  end.

(** ** Command line *)

Inductive Format := pdf | epub | html | all.

(** What [argparse] hands over: [-o] may be missing. *)
Record Namespace := mkNamespace {
  ns_input : string;
  ns_output : option string;
  ns_format : Format;
}.

(** What [parser.parse_args()] comes back with.  [argparse] is the
    library's: after a usage error (no [-i], a [-f] that is none of the
    choices, an option it does not know) it prints to standard error and
    leaves with [sys.exit(2)], after [-h] it writes the help to standard
    output and leaves with [sys.exit(0)]; otherwise it returns the
    namespace.  [shown] is what it wrote to standard output. *)
Inductive CommandLine :=
  | Refused (code : nat) (shown : list string)
  | Parsed (ns : Namespace).

Coercion Parsed : Namespace >-> CommandLine.

(** The arguments after [parse_args] filled in the output directory. *)
Record Args := mkArgs {
  input : string;
  output : string;
  format : Format;
}.

(** [not args.output] *)
Definition not_given (o : option string) : bool :=
  match o with
  | None | Some EmptyString => true
  | Some _ => false
  end.

(** [parse_args] from the return of [parser.parse_args()] on. *)
Definition parse_args (ns : Namespace) : Args :=
  let input_path := PurePath.of_string (ns_input ns) in
  let out :=
    if not_given (ns_output ns) then
      if decide (PurePath.name input_path ≠ EmptyString) then
        PurePath.to_string
          (PurePath.parent input_path // (PurePath.name input_path +:+ "_Markdown"))
      else PurePath.to_string (input_path // "Markdown")
    else default EmptyString (ns_output ns) in
  {| input := ns_input ns; output := out; format := ns_format ns |}.

(** ** process_file *)

(** [(success, file_path.name, message)] *)
Definition Result : Type := bool * string * string.

Definition markdown_file_of (file_path : Path) (args : Args) : Path :=
  PurePath.of_string (output args) // (PurePath.stem file_path +:+ ".md").

(** Where a job is: still before [async with semaphore], inside
    [await client.convert] with a permit in hand, or returned. *)
Inductive Task :=
  | Waiting (file_path : Path)
  | Converting (file_path : Path)
  | Done (r : Result).

(** From the start of the coroutine to its first suspension.  [None]: no
    permit is left and the coroutine waits in [acquire].  The check
    [markdown_file.exists()] stands before the [try]: what it raises
    leaves the coroutine. *)
Definition process_file_enter (file_path : Path) (args : Args) (w : World)
  : option (World * Outcome Task) :=
  w ← acquire w;
  Some
    ((let file_name := PurePath.stem file_path in
      let markdown_file := markdown_file_of file_path args in
      found ← released_on_raise (exists_ markdown_file);
      if found : bool then
        releasing
          (pbar_set_description ("Skipping (exists): " +:+ Str.take 40 file_name);;
           pbar_update 1;;
           ret (Done (true, PurePath.name file_path, "Skipped (exists)")))
      else
        pbar_set_description ("Processing: " +:+ Str.take 40 file_name);;
        modify (set_calls (λ l, l ++ [PurePath.to_string file_path]));;
        ret (Converting file_path)) w).

(** From the response of the service to the end of the coroutine. *)
Definition process_file_resume (file_path : Path) (args : Args) (resp : Response)
  : M Result :=
  let file_name := PurePath.stem file_path in
  let markdown_file := markdown_file_of file_path args in
  releasing
    (try_except
       (markdown_content ← awaited resp;
        match markdown_content with
        | None | Some EmptyString =>
            raise (Exception "No markdown content returned from Datalab API")
        | Some text =>
            mkdir (PurePath.parent markdown_file);;
            write_text markdown_file text;;
            pbar_set_description ("✓ Converted: " +:+ Str.take 40 file_name);;
            pbar_update 1;;
            ret (true, PurePath.name file_path, "Converted")
        end)
       (λ e,
          let error_msg := Str.take 200 e in
          pbar_set_description ("✗ Failed: " +:+ Str.take 40 file_name);;
          pbar_update 1;;
          ret (false, PurePath.name file_path, error_msg))).

(** ** The event loop: [asyncio.gather] over the jobs *)

Record Batch := mkBatch { world : World; tasks : list Task }.

(** [asyncio.gather] over [process_file(f, ...)] for [f] in [files] *)
Definition gather (files : list Path) (w : World) : Batch :=
  {| world := w; tasks := Waiting <$> files |}.

(** One turn of the event loop: a waiting job gets a permit and runs to
    its first suspension, or the service answers a job and the job runs to
    its end.  The loop is cooperative, so nothing else runs in between.
    An exception that leaves a coroutine ends [gather]: that is the end
    of the batch, told where [main] awaits it. *)
Inductive step (args : Args) (b : Batch) : Batch → Prop :=
  | step_enter i file_path w' t :
      tasks b !! i = Some (Waiting file_path) →
      process_file_enter file_path args (world b) = Some (w', Ok t) →
      step args b {| world := w'; tasks := <[i := t]> (tasks b) |}
  | step_resume i file_path resp w' r :
      tasks b !! i = Some (Converting file_path) →
      process_file_resume file_path args resp (world b) = (w', Ok r) →
      step args b {| world := w'; tasks := <[i := Done r]> (tasks b) |}.

Definition result_of (t : Task) : option Result :=
  match t with
  | Done r => Some r
  | _ => None
  end.

(** What [await asyncio.gather(...)] returns once every job is done: the
    results in the order of the jobs. *)
Definition results_of (b : Batch) : option (list Result) := mapM result_of (tasks b).

(** The number of jobs inside [await client.convert]. *)
Definition converting (t : Task) : bool :=
  match t with
  | Converting _ => true
  | _ => false
  end.

Definition in_flight (b : Batch) : nat := length (filter (λ t, converting t = true) (tasks b)).

(** One job alone, with a service that answers [client file_path]. *)
Definition process_file (client : string → Response) (file_path : Path) (args : Args)
    (w : World) : option (World * Outcome Result) :=
  '(w', t) ← process_file_enter file_path args w;
  match t with
  | Ok (Done r) => Some (w', Ok r)
  | Ok (Converting f) =>
      Some (process_file_resume file_path args (client (PurePath.to_string f)) w')
  | Ok (Waiting _) => None
  | Raise e => Some (w', Raise e)
  end.

(** ** main *)

Definition format_name (f : Format) : string :=
  match f with
  | pdf => "pdf"
  | epub => "epub"
  | html => "html"
  | all => "all"
  end.

Definition extensions_of (f : Format) : list string :=
  match f with
  | all => [".pdf"; ".epub"; ".html"; ".htm"]
  | epub => [".epub"]
  | html => [".html"; ".htm"]
  | pdf => [".pdf"]
  end.

(** The loop over [extensions]: two globs for each, the extension as it is
    and in capitals. *)
Fixpoint glob_extensions (input_path : Path) (extensions : list string)
    (files_to_convert : list Path) : M (list Path) :=
  match extensions with
  | [] => ret files_to_convert
  | ext :: extensions' =>
      lower ← glob input_path ("*" +:+ ext);
      upper ← glob input_path ("*" +:+ Str.upper ext);
      glob_extensions input_path extensions' (files_to_convert ++ lower ++ upper)
  end.

(** The file discovery of [main]: the extensions of the format, the
    globs, and [set(files_to_convert)]. *)
Definition discover_files (input_path : Path) (fmt : Format) : M (gset Path) :=
  found ← glob_extensions input_path (extensions_of fmt) [];
  mret (list_to_set found).

(** [a or b] on values that are [None] or a string. *)
Definition py_or (a b : option string) : option string :=
  match a with
  | None | Some EmptyString => b
  | Some _ => a
  end.

(** [not api_key or api_key in (placeholder, empty)] *)
Definition not_configured (api_key : option string) : bool :=
  match api_key with
  | None | Some EmptyString => true
  | Some key => bool_decide (key ∈ ["your_api_key_here"; EmptyString])
  end.

Definition sys_exit {A} (code : nat) : M A := raise (SystemExit code).

(** Where [main] is when it suspends: it returned, or it waits in
    [await asyncio.gather] for the jobs of [files]. *)
Inductive Suspended :=
  | Returned
  | AwaitGather (args : Args) (files : gset Path).

(** [main] up to [await asyncio.gather].  It begins with [parse_args],
    where [argparse] may leave. *)
Definition main_enter (cl : CommandLine) : M Suspended :=
  match cl with
  | Refused code shown => modify (set_stdout (λ out, out ++ shown));; sys_exit code
  | Parsed ns =>
  let args := parse_args ns in
  datalab ← getenv "DATALAB_API_KEY";
  marker ← getenv "MARKER_PDF_KEY";
  let api_key := py_or datalab marker in
  match (if not_configured api_key then None else api_key) with
  | None =>
      print "ERROR: API key not found or not configured in .env file";;
      print "Please:";;
      print "  1. Create a .env file with your Datalab API credentials";;
      print "  2. Add either:";;
      print "       DATALAB_API_KEY=your_actual_api_key_here";;
      print "     or";;
      print "       MARKER_PDF_KEY=your_actual_api_key_here";;
      sys_exit 1
  | Some api_key =>
      setenv "DATALAB_API_KEY" api_key;;
      makedirs (output args);;
      print ("Input directory: " +:+ input args);;
      print ("Output directory: " +:+ output args);;
      print ("Format: " +:+ format_name (format args));;
      print "Using Datalab.to Conversion API for conversion...";;
      let input_path := PurePath.of_string (input args) in
      files_to_convert ← discover_files input_path (format args);
      print (nl +:+ "Found " +:+ pretty (size files_to_convert)
               +:+ " files to convert" +:+ nl);;
      if decide (size files_to_convert = 0) then
        print ("No " +:+ format_name (format args)
                 +:+ " files found in the input directory");;
        ret Returned
      else
        Semaphore 10;;
        tqdm (size files_to_convert) "Converting files";;
        ret (AwaitGather args files_to_convert)
  end
  end.

(** The lines for the failures that are shown. *)
Definition print_failures (shown : list (string * string)) : M unit :=
  foldr (λ '(filename, error) rest,
           print ("  - " +:+ Str.take 60 filename);;
           print ("    Error: " +:+ Str.take 100 error);;
           rest)
        (ret tt) shown.

(** The results [if success] keeps, and those [if not success] keeps. *)
Definition successes (results : list Result) : list Result :=
  filter (λ r, r.1.1 = true) results.
Definition failures (results : list Result) : list Result :=
  filter (λ r, r.1.1 = false) results.

(** [main] from the results of [gather] to its end. *)
Definition main_resume (args : Args) (files_to_convert : list Path)
    (results : list Result) : M unit :=
  let successful := (λ r, r.1.2) <$> successes results in
  let failed := (λ r, (r.1.2, r.2)) <$> failures results in
  pbar_close;;
  print (nl +:+ String.concat EmptyString (replicate 60 "="));;
  print "Conversion Summary:";;
  print ("  Successful: " +:+ pretty (length successful));;
  print ("  Failed: " +:+ pretty (length failed));;
  print ("  Total: " +:+ pretty (length files_to_convert));;
  print ("  Markdown files saved to: " +:+ output args);;
  if decide (failed ≠ []) then
    print (nl +:+ "Failed conversions (first 10):");;
    print_failures (take 10 failed);;
    if decide (10 < length failed) then
      print ("  ... and " +:+ pretty (length failed - 10) +:+ " more failures")
    else ret tt
  else ret tt.

(** The exit status of the interpreter: that of [sys.exit], 1 after a
    traceback, 0 when [main] returns. *)
Definition exit_status {A} (o : Outcome A) : nat :=
  match o with
  | Ok _ => 0
  | Raise (SystemExit code) => code
  | Raise (Exception _) => 1
  end.

(** What a run of the script leaves behind. *)
Record Run := mkRun {
  status : nat;
  results : list Result;
  final : World;
}.

(** [asyncio.run(main())].  The order in which [list(set(...))] lists the
    files is not fixed, so neither is the order of the jobs.  An exception
    that leaves a job is raised by [await asyncio.gather] and leaves
    [main]: no result is returned and nothing more is printed. *)
Inductive main_run (cl : CommandLine) (w : World) : Run → Prop :=
  | run_raise w' e :
      main_enter cl w = (w', Raise e) →
      main_run cl w (mkRun (exit_status (@Raise unit e)) [] w')
  | run_return w' :
      main_enter cl w = (w', Ok Returned) →
      main_run cl w (mkRun 0 [] w')
  | run_gather w' args files files_to_convert b rs w'' o :
      main_enter cl w = (w', Ok (AwaitGather args files)) →
      files_to_convert ≡ₚ elements files →
      rtc (step args) (gather files_to_convert w') b →
      results_of b = Some rs →
      main_resume args files_to_convert rs (world b) = (w'', o) →
      main_run cl w (mkRun (exit_status o) rs w'')
  | run_job_raises w' args files files_to_convert b i file_path w'' e :
      main_enter cl w = (w', Ok (AwaitGather args files)) →
      files_to_convert ≡ₚ elements files →
      rtc (step args) (gather files_to_convert w') b →
      tasks b !! i = Some (Waiting file_path) →
      process_file_enter file_path args (world b) = Some (w'', Raise e) →
      main_run cl w (mkRun (exit_status (@Raise unit e)) [] w'').

(** ** A small installation to try the statements on *)

Module Example.

Definition at_ (s : string) : Path := PurePath.of_string s.

(** [/in] holds four documents and a text file, [/out] one finished
    conversion. *)
Definition files_on_disk : gmap Path Node :=
  list_to_map
    [(at_ "/in", Dir); (at_ "/in/a.pdf", File "%PDF a"); (at_ "/in/B.PDF", File "%PDF b");
     (at_ "/in/c.epub", File "epub c"); (at_ "/in/d.txt", File "text d");
     (at_ "/in/e.Pdf", File "%PDF e");
     (at_ "/in/sub", Dir); (at_ "/in/sub/f.pdf", File "%PDF f");
     (at_ "/out", Dir); (at_ "/out/a.md", File "# a, converted earlier")].

Definition no_refusal : Path → option string := λ _, None.

Definition posix : World :=
  {| tree := files_on_disk; os_error := no_refusal; stat_error := no_refusal; case_sensitive := true;
     environ := {[ "DATALAB_API_KEY" := "sk-live-0123" ]};
     calls := []; sem_value := 10; pbar_desc := EmptyString; pbar_n := 0;
     pbar_total := 0; stdout := [] |}.

Definition to_out : Args := {| input := "/in"; output := "/out"; format := all |}.

(** [-i /in -o /out -f all] *)
Definition cli : Namespace :=
  {| ns_input := "/in"; ns_output := Some "/out"; ns_format := all |}.

(** [-i /in -o /out -f epub] *)
Definition cli_epub : Namespace :=
  {| ns_input := "/in"; ns_output := Some "/out"; ns_format := epub |}.


(** A service that converts [B.PDF], returns nothing for [c.epub] and
    fails on everything else. *)
Definition service (file_path : string) : Response :=
  if String.eqb file_path "/in/B.PDF" then Returns (Some "# b")
  else if String.eqb file_path "/in/c.epub" then Returns (Some EmptyString)
  else Raises "503 Service Unavailable".

(** A directory with [a.pdf], [B.PDF], [c.epub] and [d.txt], on a path
    flavour that is case-sensitive or not. *)
Definition docs (flavour : bool) : World :=
  {| tree := list_to_map [(at_ "/docs", Dir); (at_ "/docs/a.pdf", File "a");
                          (at_ "/docs/B.PDF", File "b"); (at_ "/docs/c.epub", File "c");
                          (at_ "/docs/d.txt", File "d")];
     os_error := no_refusal; stat_error := no_refusal; case_sensitive := flavour; environ := ∅;
     calls := []; sem_value := 0; pbar_desc := EmptyString; pbar_n := 0;
     pbar_total := 0; stdout := [] |}.

(** The same installation on a volume with no room for [/out/B.md]. *)
Definition full_disk : World :=
  {| tree := files_on_disk;
     os_error := λ p, if decide (p = at_ "/out/B.md")
                      then Some "[Errno 28] No space left on device: '/out/B.md'"
                      else None;
     stat_error := no_refusal; case_sensitive := true;
     environ := {[ "DATALAB_API_KEY" := "sk-live-0123" ]};
     calls := ["/in/B.PDF"]; sem_value := 9; pbar_desc := EmptyString; pbar_n := 0;
     pbar_total := 0; stdout := [] |}.

(** The same installation with [/out] closed to the user: [stat] on what
    lies in it is refused. *)
Definition locked : World :=
  {| tree := files_on_disk; os_error := no_refusal;
     stat_error := λ p, if decide (PurePath.parent p = at_ "/out")
                        then Some ("[Errno 13] Permission denied: " +:+ quote p)
                        else None;
     case_sensitive := true;
     environ := {[ "DATALAB_API_KEY" := "sk-live-0123" ]};
     calls := []; sem_value := 10; pbar_desc := EmptyString; pbar_n := 0;
     pbar_total := 0; stdout := [] |}.

End Example.

(** ** The library model at work *)

Example parse_drops_empty_and_dot :
  PurePath.of_string "//data/./docs//x/" = mkPath "//" ["data"; "docs"; "x"].
Proof. reflexivity. Qed.

Example three_slashes_are_one_root : PurePath.of_string "///data" = mkPath "/" ["data"].
Proof. reflexivity. Qed.

Example the_empty_path_is_dot :
  PurePath.to_string (PurePath.of_string EmptyString) = ".".
Proof. reflexivity. Qed.

Example stem_drops_the_last_suffix :
  PurePath.stem (PurePath.of_string "/in/report.final.pdf") = "report.final".
Proof. reflexivity. Qed.

Example stem_of_a_dot_file : PurePath.stem (PurePath.of_string "/in/.pdf") = ".pdf".
Proof. reflexivity. Qed.

Example an_absolute_operand_replaces_the_path :
  PurePath.of_string "/out" // "/tmp/x.md" = PurePath.of_string "/tmp/x.md".
Proof. reflexivity. Qed.

Example star_matches_a_dot_file : Str.fnmatchcase "*.pdf" ".pdf" = true.
Proof. reflexivity. Qed.

Example star_is_case_sensitive : Str.fnmatchcase "*.pdf" "B.PDF" = false.
Proof. reflexivity. Qed.

Example only_entries_of_the_directory_itself :
  list_to_set (scandir Example.posix (Example.at_ "/in"))
  = ({[ "a.pdf"; "B.PDF"; "c.epub"; "d.txt"; "e.Pdf"; "sub" ]} : gset string).
Proof. apply set_eq. intros x. by vm_compute. Qed.

(** * Properties *)

(** ** Running statements *)

Ltac run_m :=
  unfold exists_, pbar_set_description, pbar_update, release, print, getenv,
    setenv, sys_exit, tqdm, Semaphore, awaited in *;
  unfold releasing, released_on_raise, release in *;
  unfold mbind, mret, M_bind, M_ret, bind, try_except in *;
  unfold ret, raise, modify in *;
  cbn beta iota in *.

(** ** The file system only grows *)

(** [w'] differs from [w] in its tree at most. *)
Definition same_but_tree (w w' : World) : Prop := w' = set_tree (λ _, tree w') w.

(** Every node of [w] is still in [w'], unchanged. *)
Definition keeps (w w' : World) : Prop :=
  ∀ p n, tree w !! p = Some n → tree w' !! p = Some n.

(** Every node of [w] is still in [w'], with its kind: a directory stays a
    directory, a file stays a file. *)
Definition same_kind (n n' : Node) : Prop :=
  match n, n' with
  | Dir, Dir | File _, File _ => True
  | _, _ => False
  end.

Definition extends (w w' : World) : Prop :=
  ∀ p n, tree w !! p = Some n → ∃ n', tree w' !! p = Some n' ∧ same_kind n n'.

Lemma same_kind_refl n : same_kind n n.
Proof. by destruct n. Qed.

Lemma same_kind_trans n1 n2 n3 : same_kind n1 n2 → same_kind n2 n3 → same_kind n1 n3.
Proof. by destruct n1, n2, n3. Qed.

Lemma same_but_tree_refl w : same_but_tree w w.
Proof. by destruct w. Qed.

Lemma same_but_tree_trans w1 w2 w3 :
  same_but_tree w1 w2 → same_but_tree w2 w3 → same_but_tree w1 w3.
Proof. unfold same_but_tree. intros H12 H23. rewrite H23, H12. by destruct w1. Qed.

Lemma same_but_tree_set f w : same_but_tree w (set_tree f w).
Proof. by destruct w. Qed.

Lemma keeps_extends w w' : keeps w w' → extends w w'.
Proof. intros H p n Hp. exists n. split; [by apply H | apply same_kind_refl]. Qed.

Lemma extends_refl w : extends w w.
Proof. apply keeps_extends. by intros p n. Qed.

Lemma extends_trans w1 w2 w3 : extends w1 w2 → extends w2 w3 → extends w1 w3.
Proof.
  intros H12 H23 p n Hp.
  destruct (H12 p n Hp) as (n2 & Hp2 & Hk2).
  destruct (H23 p n2 Hp2) as (n3 & Hp3 & Hk3).
  exists n3. split; [done | by eapply same_kind_trans].
Qed.

Lemma keeps_trans w1 w2 w3 : keeps w1 w2 → keeps w2 w3 → keeps w1 w3.
Proof. intros H12 H23 p n Hp. by apply H23, H12. Qed.

Lemma lookup_node_extends w w' p n :
  extends w w' → lookup_node w p = Some n →
  ∃ n', lookup_node w' p = Some n' ∧ same_kind n n'.
Proof.
  unfold lookup_node. intros Hext. destruct (parts p); [|by apply Hext].
  intros [= <-]. by exists Dir.
Qed.


Lemma exists_extends w w' p :
  extends w w' → is_Some (lookup_node w p) → is_Some (lookup_node w' p).
Proof.
  intros Hext [n Hn].
  destruct (lookup_node_extends _ _ _ _ Hext Hn) as (n' & Hn' & _). by exists n'.
Qed.

(** *** makedirs *)

Section Makedirs.

(** The directories [makedirs_from wk r above below] walks through. *)
Definition on_the_way (r : string) (above below : list string) (p : Path) : Prop :=
  ∃ k, 0 < k ≤ length below ∧ p = mkPath r (above ++ take k below).

Lemma on_the_way_cons r above x below p :
  on_the_way r above (x :: below) p ↔
  p = mkPath r (above ++ [x]) ∨ on_the_way r (above ++ [x]) below p.
Proof.
  unfold on_the_way. split.
  - intros (k & Hk & ->). destruct k as [|[|k]]; [cbn in Hk; lia | by left |].
    right. exists (S k). cbn [length] in Hk. split; [lia|].
    cbn [take]. by rewrite <- app_assoc.
  - intros [-> | (k & Hk & ->)].
    + exists 1. cbn [length take]. split; [lia | done].
    + exists (S k). cbn [length take]. split; [lia|]. by rewrite <- app_assoc.
Qed.

Lemma makedirs_from_spec wk r below : ∀ above w w' o,
  makedirs_from wk r above below w = (w', o) →
  same_but_tree w w'
  ∧ keeps w w'
  ∧ (∀ p n, tree w' !! p = Some n →
       tree w !! p = Some n ∨ (n = Dir ∧ on_the_way r above below p))
  ∧ match o with
    | Ok _ => ∀ p, on_the_way r above below p → tree w' !! p = Some Dir
    | Raise e => ∃ msg, e = Exception msg
    end.
Proof.
  induction below as [|x below IH]; intros above w w' o Hrun.
  - cbn in Hrun. injection Hrun as <- <-.
    split_and!; [apply same_but_tree_refl | by intros ?? | by left; auto|].
    intros p (k & Hk & _). cbn in Hk. lia.
  - cbn [makedirs_from] in Hrun.
    destruct (tree w !! mkPath r (above ++ [x])) as [[c|]|] eqn:Hx.
    + assert ((∃ msg, o = Raise (Exception msg)) ∧ w' = w) as [[msg ->] ->].
      { destruct below; injection Hrun as <- <-; eauto. }
      split_and!; [apply same_but_tree_refl | by intros ?? | by left; auto | eauto].
    + destruct (IH _ _ _ _ Hrun) as (Hs & Hk & Hnew & Ho).
      split_and!; [done | done | |].
      * intros p n Hp. destruct (Hnew p n Hp) as [?|[-> Hway]]; [by left|].
        right. split; [done|]. apply on_the_way_cons. by right.
      * destruct o; [|done]. intros p [->|Hway]%on_the_way_cons; [|by apply Ho].
        by apply Hk.
    + destruct (os_error w (mkPath r (above ++ [x]))) as [e|] eqn:He.
      { injection Hrun as <- <-.
        split_and!; [apply same_but_tree_refl | by intros ?? | by left; auto | eauto]. }
      destruct (IH _ _ _ _ Hrun) as (Hs & Hk & Hnew & Ho).
      split_and!.
      * eapply same_but_tree_trans; [apply same_but_tree_set | done].
      * intros p n Hp. apply Hk. cbn.
        rewrite lookup_insert_ne; [done | congruence].
      * intros p n Hp. destruct (Hnew p n Hp) as [Hold|[-> Hway]].
        -- cbn in Hold. destruct (decide (p = mkPath r (above ++ [x]))) as [->|Hne].
           ++ rewrite lookup_insert_eq in Hold. injection Hold as <-.
              right. split; [done|]. apply on_the_way_cons. by left.
           ++ rewrite lookup_insert_ne in Hold by done. by left.
        -- right. split; [done|]. apply on_the_way_cons. by right.
      * destruct o; [|done]. intros p [->|Hway]%on_the_way_cons; [|by apply Ho].
        apply Hk. cbn. by rewrite lookup_insert_eq.
Qed.

(** Where every directory on the way is there, nothing happens. *)
Lemma makedirs_from_present wk r below : ∀ above w,
  (∀ p, on_the_way r above below p → tree w !! p = Some Dir) →
  makedirs_from wk r above below w = (w, Ok tt).
Proof.
  induction below as [|x below IH]; intros above w Hall; [done|].
  cbn [makedirs_from]. rewrite Hall by (apply on_the_way_cons; by left).
  apply IH. intros p Hp. apply Hall, on_the_way_cons. by right.
Qed.

End Makedirs.

(** *** write_text *)

Lemma write_text_spec p content w w' o :
  write_text p content w = (w', o) →
  (o = Ok tt ∧ w' = set_tree <[p := File content]> w
   ∧ lookup_node w p ≠ Some Dir ∧ parts p ≠ [])
  ∨ (w' = w ∧ ∃ msg, o = Raise (Exception msg)).
Proof.
  unfold write_text. intros Hrun.
  assert (lookup_node w p = Some Dir ∨ lookup_node w p ≠ Some Dir) as [Hd|Hd].
  { destruct (lookup_node w p) as [[]|]; auto. }
  { rewrite Hd in Hrun. injection Hrun as <- <-. right. eauto. }
  assert (parts p ≠ []) as Hparts.
  { intros Hnil. apply Hd. unfold lookup_node. by rewrite Hnil. }
  assert ((w', o) =
          if negb (is_dir w (PurePath.parent p))
          then (w, Raise (Exception ("[Errno 2] No such file or directory: " +:+ quote p)))
          else match os_error w p with
               | Some e => (w, Raise (Exception e))
               | None => (set_tree <[p:=File content]> w, Ok tt)
               end) as Hrun'.
  { rewrite <- Hrun. by destruct (lookup_node w p) as [[]|]. }
  clear Hrun. destruct (negb _).
  { injection Hrun' as -> ->. right. eauto. }
  destruct (os_error w p); injection Hrun' as -> ->; [right; eauto | by left].
Qed.

(** ** What one job does *)

(** The fields a job never touches. *)
Definition frame (w w' : World) : Prop :=
  os_error w' = os_error w ∧ case_sensitive w' = case_sensitive w
  ∧ environ w' = environ w ∧ stdout w' = stdout w ∧ pbar_total w' = pbar_total w
  ∧ stat_error w' = stat_error w.

Lemma frame_refl w : frame w w.
Proof. done. Qed.

Lemma frame_trans w1 w2 w3 : frame w1 w2 → frame w2 w3 → frame w1 w3.
Proof. unfold frame. intros (?&?&?&?&?&?) (?&?&?&?&?&?). split_and!; congruence. Qed.

Lemma same_but_tree_frame w w' :
  same_but_tree w w' →
  frame w w' ∧ sem_value w' = sem_value w ∧ calls w' = calls w ∧ pbar_n w' = pbar_n w.
Proof. intros ->. by destruct w. Qed.

Section ProcessFile.

Context (file_path : Path) (args : Args).

Let markdown_file := markdown_file_of file_path args.
Let file_name := PurePath.name file_path.

(** With no permit left the job waits. *)
Lemma enter_blocked w :
  sem_value w = 0 → process_file_enter file_path args w = None.
Proof. unfold process_file_enter, acquire. by intros ->. Qed.

(** With a permit left and the output in place, the first segment ends
    the job at once. *)
Lemma enter_exists w :
  0 < sem_value w →
  is_Some (lookup_node w markdown_file) →
  stat_error w markdown_file = None →
  ∃ w', process_file_enter file_path args w
          = Some (w', Ok (Done (true, file_name, "Skipped (exists)")))
        ∧ tree w' = tree w ∧ calls w' = calls w
        ∧ sem_value w' = sem_value w ∧ pbar_n w' = pbar_n w + 1 ∧ frame w w'.
Proof.
  intros Hsem Hex Hstat. unfold process_file_enter, acquire.
  destruct (sem_value w) as [|n] eqn:Hn; [lia|].
  cbn [mbind option_bind]. run_m.
  fold markdown_file.
  assert (stat_error (set_sem_value (λ _, n) w) markdown_file
          = stat_error w markdown_file) as -> by done.
  rewrite Hstat.
  assert (lookup_node (set_sem_value (λ _, n) w) markdown_file
          = lookup_node w markdown_file) as -> by done.
  rewrite bool_decide_true by done.
  eexists; split; [reflexivity|]. by cbn.
Qed.

(** With a permit left and no output yet, the first segment takes the
    permit, issues the call and suspends. *)
Lemma enter_missing w :
  0 < sem_value w →
  lookup_node w markdown_file = None →
  stat_error w markdown_file = None →
  ∃ w', process_file_enter file_path args w = Some (w', Ok (Converting file_path))
        ∧ tree w' = tree w
        ∧ calls w' = calls w ++ [PurePath.to_string file_path]
        ∧ S (sem_value w') = sem_value w ∧ pbar_n w' = pbar_n w ∧ frame w w'.
Proof.
  intros Hsem Hex Hstat. unfold process_file_enter, acquire.
  destruct (sem_value w) as [|n] eqn:Hn; [lia|].
  cbn [mbind option_bind]. run_m.
  fold markdown_file.
  assert (stat_error (set_sem_value (λ _, n) w) markdown_file
          = stat_error w markdown_file) as -> by done.
  rewrite Hstat.
  assert (lookup_node (set_sem_value (λ _, n) w) markdown_file
          = lookup_node w markdown_file) as -> by done.
  rewrite bool_decide_false by (rewrite Hex; by intros []).
  eexists; split; [reflexivity|]. by cbn.
Qed.

(** With a permit left and a check that raises, the first segment gives
    the permit back and lets the exception out: nothing catches it. *)
Lemma enter_raises w e :
  0 < sem_value w →
  stat_error w markdown_file = Some e →
  ∃ w', process_file_enter file_path args w = Some (w', Raise (Exception e))
        ∧ tree w' = tree w ∧ calls w' = calls w
        ∧ sem_value w' = sem_value w ∧ pbar_n w' = pbar_n w ∧ frame w w'
        ∧ stdout w' = stdout w.
Proof.
  intros Hsem Hstat. unfold process_file_enter, acquire.
  destruct (sem_value w) as [|n] eqn:Hn; [lia|].
  cbn [mbind option_bind]. run_m.
  fold markdown_file.
  assert (stat_error (set_sem_value (λ _, n) w) markdown_file
          = stat_error w markdown_file) as -> by done.
  rewrite Hstat.
  eexists; split; [reflexivity|]. by cbn.
Qed.

(** The first segment, whichever way it goes. *)
Lemma enter_spec w w' o :
  process_file_enter file_path args w = Some (w', o) →
  0 < sem_value w ∧ tree w' = tree w ∧ frame w w'
  ∧ ((o = Ok (Done (true, file_name, "Skipped (exists)"))
      ∧ is_Some (lookup_node w markdown_file)
      ∧ calls w' = calls w ∧ sem_value w' = sem_value w)
     ∨ (o = Ok (Converting file_path)
        ∧ lookup_node w markdown_file = None
        ∧ calls w' = calls w ++ [PurePath.to_string file_path]
        ∧ S (sem_value w') = sem_value w)
     ∨ (∃ e, o = Raise (Exception e)
        ∧ stat_error w markdown_file = Some e
        ∧ calls w' = calls w ∧ sem_value w' = sem_value w)).
Proof.
  intros Hrun.
  assert (0 < sem_value w) as Hsem.
  { destruct (sem_value w) eqn:Hs; [|lia]. by rewrite enter_blocked in Hrun. }
  destruct (stat_error w markdown_file) as [e|] eqn:Hstat.
  { destruct (enter_raises w e Hsem Hstat) as (w1 & Hw1 & ? & ? & ? & ? & ? & ?).
    rewrite Hrun in Hw1. injection Hw1 as <- ->.
    split_and!; [done..|]. right; right. by exists e. }
  destruct (lookup_node w markdown_file) as [n|] eqn:Hn.
  - destruct (enter_exists w Hsem) as (w1 & Hw1 & ? & ? & ? & ? & ?);
      [by rewrite Hn | done |].
    rewrite Hrun in Hw1. injection Hw1 as <- ->.
    split_and!; [done..|]. left. split_and!; eauto.
  - destruct (enter_missing w Hsem Hn Hstat) as (w1 & Hw1 & ? & ? & ? & ? & ?).
    rewrite Hrun in Hw1. injection Hw1 as <- ->.
    split_and!; [done..|]. right; by left.
Qed.

(** A first segment that returns has had its check answered. *)
Lemma enter_checked w w' t :
  process_file_enter file_path args w = Some (w', Ok t) →
  stat_error w markdown_file = None.
Proof.
  intros Hrun. pose proof Hrun as (Hsem & _)%enter_spec.
  destruct (stat_error w markdown_file) as [e|] eqn:Hstat; [|done].
  destruct (enter_raises w e Hsem Hstat) as (w1 & Hw1 & _). congruence.
Qed.

(** What the end of a job leaves in the world, whatever the result: the
    progress bar moved by one and the permit given back. *)
Definition report (desc : string) (w : World) : World :=
  set_sem_value S (set_pbar desc (pbar_n w + 1) (pbar_total w) w).

Definition job_done (w w' : World) : Prop :=
  sem_value w' = S (sem_value w) ∧ calls w' = calls w
  ∧ pbar_n w' = pbar_n w + 1 ∧ frame w w'.

Lemma report_done desc w : job_done w (report desc w) ∧ tree (report desc w) = tree w.
Proof. done. Qed.

Definition failed_with (e : string) (w : World) : World * Outcome Result :=
  (report ("✗ Failed: " +:+ Str.take 40 (PurePath.stem file_path)) w,
   Ok (false, file_name, Str.take 200 e)).

(** [markdown_file.parent.mkdir(...)] followed by [markdown_file.write_text(...)] *)
Definition write_output (text : string) : M unit :=
  mkdir (PurePath.parent markdown_file);; write_text markdown_file text.

(** The second segment, case by case. *)
Lemma resume_eq resp w :
  process_file_resume file_path args resp w =
  match resp with
  | Raises msg => failed_with msg w
  | Returns None | Returns (Some EmptyString) =>
      failed_with "No markdown content returned from Datalab API" w
  | Returns (Some text) =>
      match write_output text w with
      | (w1, Ok _) =>
          (report ("✓ Converted: " +:+ Str.take 40 (PurePath.stem file_path)) w1,
           Ok (true, file_name, "Converted"))
      | (w1, Raise (Exception e)) => failed_with e w1
      | (w1, Raise (SystemExit code)) => (set_sem_value S w1, Raise (SystemExit code))
      end
  end.
Proof.
  unfold process_file_resume, write_output, failed_with, report.
  fold markdown_file. run_m.
  destruct resp as [msg|[text|]]; [done | | done].
  destruct text as [|c text]; [done|].
  destruct (mkdir (PurePath.parent markdown_file) w) as [w1 [[]|[e|code]]]; [|done..].
  by destruct (write_text markdown_file (String c text) w1) as [w2 [[]|[e|code]]].
Qed.

(** What creating and writing the output does to the tree. *)
Lemma write_output_spec text w w' o :
  write_output text w = (w', o) →
  same_but_tree w w'
  ∧ (∀ p n, p ≠ markdown_file → tree w !! p = Some n → tree w' !! p = Some n)
  ∧ extends w w'
  ∧ (∀ p n, tree w' !! p = Some n → tree w !! p = None →
       (p = markdown_file ∧ o = Ok tt ∧ n = File text)
       ∨ (n = Dir ∧ on_the_way (root markdown_file) []
                       (parts (PurePath.parent markdown_file)) p))
  ∧ match o with
    | Ok _ => tree w' !! markdown_file = Some (File text)
    | Raise e => ∃ msg, e = Exception msg
    end.
Proof.
  unfold write_output. run_m. intros Hrun.
  destruct (mkdir (PurePath.parent markdown_file) w) as [w1 o1] eqn:Hmk.
  apply makedirs_from_spec in Hmk as (Hs1 & Hk1 & Hnew1 & Ho1).
  destruct o1 as [[]|e1].
  2:{ injection Hrun as <- <-. split_and!; [done | by intros ??? ; apply Hk1
        | by apply keeps_extends | | done].
      intros p n Hp Hnone. destruct (Hnew1 p n Hp) as [?|[-> ?]]; [congruence|].
      by right. }
  apply write_text_spec in Hrun as [(-> & -> & Hnd & Hparts)|(-> & msg & ->)].
  - split_and!.
    + eapply same_but_tree_trans; [done | apply same_but_tree_set].
    + intros p n Hne Hp. cbn. rewrite lookup_insert_ne by done. by apply Hk1.
    + intros p n Hp. apply Hk1 in Hp. cbn.
      destruct (decide (p = markdown_file)) as [->|Hne].
      * rewrite lookup_insert_eq. eexists; split; [done|].
        unfold lookup_node in Hnd. destruct (parts markdown_file); [done|].
        destruct n; [done | congruence].
      * rewrite lookup_insert_ne by done. exists n. split; [done | apply same_kind_refl].
    + intros p n Hp Hnone. cbn in Hp.
      destruct (decide (p = markdown_file)) as [->|Hne].
      { rewrite lookup_insert_eq in Hp. injection Hp as <-. by left. }
      rewrite lookup_insert_ne in Hp by done.
      destruct (Hnew1 p n Hp) as [?|[-> ?]]; [congruence | by right].
    + cbn. by rewrite lookup_insert_eq.
  - split_and!; [done | by intros ???; apply Hk1 | by apply keeps_extends | | eauto].
    intros p n Hp Hnone. destruct (Hnew1 p n Hp) as [?|[-> ?]]; [congruence | by right].
Qed.

(** The service raised. *)
Lemma resume_raises msg w :
  ∃ w', process_file_resume file_path args (Raises msg) w
          = (w', Ok (false, file_name, Str.take 200 msg))
        ∧ tree w' = tree w ∧ job_done w w'.
Proof. rewrite resume_eq. eexists. split; [done|]. split; [done | apply report_done]. Qed.

(** The service returned nothing to write. *)
Lemma resume_no_markdown md w :
  md = None ∨ md = Some EmptyString →
  ∃ w', process_file_resume file_path args (Returns md) w
          = (w', Ok (false, file_name, "No markdown content returned from Datalab API"))
        ∧ tree w' = tree w ∧ job_done w w'.
Proof.
  intros [-> | ->]; rewrite resume_eq; (eexists; split; [done|]);
    (split; [done | apply report_done]).
Qed.

(** The output could not be written. *)
Lemma resume_write_raises text w w1 e :
  text ≠ EmptyString →
  write_output text w = (w1, Raise (Exception e)) →
  ∃ w', process_file_resume file_path args (Returns (Some text)) w
          = (w', Ok (false, file_name, Str.take 200 e))
        ∧ tree w' = tree w1.
Proof.
  intros Htext Hrun. rewrite resume_eq, Hrun. destruct text; [done|].
  eexists. by split.
Qed.

(** The output was written. *)
Lemma resume_written text w w1 :
  text ≠ EmptyString →
  write_output text w = (w1, Ok tt) →
  ∃ w', process_file_resume file_path args (Returns (Some text)) w
          = (w', Ok (true, file_name, "Converted"))
        ∧ tree w' = tree w1.
Proof.
  intros Htext Hrun. rewrite resume_eq, Hrun. destruct text; [done|].
  eexists. by split.
Qed.

(** The second segment, whichever way it goes: it always returns a result,
    gives the permit back, and touches the tree at the output file and at
    the missing directories above it only. *)
Lemma resume_spec resp w w' o :
  process_file_resume file_path args resp w = (w', o) →
  ∃ r, o = Ok r
    ∧ job_done w w'
    ∧ (∀ p n, p ≠ markdown_file → tree w !! p = Some n → tree w' !! p = Some n)
    ∧ extends w w'
    ∧ (∀ p n, tree w' !! p = Some n → tree w !! p = None →
         (p = markdown_file ∧ ∃ text, n = File text)
         ∨ (n = Dir ∧ on_the_way (root markdown_file) []
                         (parts (PurePath.parent markdown_file)) p))
    ∧ ((r = (true, file_name, "Converted") ∧ is_Some (tree w' !! markdown_file))
       ∨ (∃ e, r = (false, file_name, Str.take 200 e))).
Proof.
  rewrite resume_eq. intros Hrun.
  assert (∀ e, (w', o) = failed_with e w → ∃ r : Result,
    o = Ok r ∧ job_done w w'
    ∧ (∀ p n, p ≠ markdown_file → tree w !! p = Some n → tree w' !! p = Some n)
    ∧ extends w w'
    ∧ (∀ p n, tree w' !! p = Some n → tree w !! p = None →
         (p = markdown_file ∧ ∃ text, n = File text)
         ∨ (n = Dir ∧ on_the_way (root markdown_file) []
                         (parts (PurePath.parent markdown_file)) p))
    ∧ ((r = (true, file_name, "Converted") ∧ is_Some (tree w' !! markdown_file))
       ∨ (∃ e, r = (false, file_name, Str.take 200 e)))) as Hfail.
  { intros e [= -> ->]. eexists. split; [done|].
    split_and!; [apply report_done | by intros ???
                 | apply keeps_extends; by intros ?? | | eauto].
    intros p n Hp Hnone. cbn in Hp. congruence. }
  destruct resp as [msg|[text|]];
    [by eapply (Hfail _ (eq_sym Hrun)) | | by eapply (Hfail _ (eq_sym Hrun))].
  destruct text as [|c text]; [by eapply (Hfail _ (eq_sym Hrun))|].
  destruct (write_output (String c text) w) as [w1 o1] eqn:Hw.
  apply write_output_spec in Hw as (Hs & Hk & Hext & Hnew & Ho).
  apply same_but_tree_frame in Hs as (Hf & Hsem & Hcalls & Hn).
  destruct o1 as [[]|[e|code]].
  - injection Hrun as <- <-. eexists. split; [done|].
    split_and!; [| done | done | | left; split; [done | by eexists; apply Ho]].
    + destruct (report_done ("✓ Converted: " +:+ Str.take 40 (PurePath.stem file_path)) w1)
        as [(? & ? & ? & ?) _].
      unfold job_done. split_and!; [congruence.. | by eapply frame_trans].
    + intros p n Hp Hnone.
      destruct (Hnew p n Hp Hnone) as [(-> & _ & ->)|?]; [left; eauto | by right].
  - injection Hrun as <- <-. eexists. split; [done|].
    split_and!; [| done | done | | eauto].
    + destruct (report_done ("✗ Failed: " +:+ Str.take 40 (PurePath.stem file_path)) w1)
        as [(? & ? & ? & ?) _].
      unfold job_done. split_and!; [congruence.. | by eapply frame_trans].
    + intros p n Hp Hnone. destruct (Hnew p n Hp Hnone) as [(_ & [=] & _)|?]. by right.
  - by destruct Ho.
Qed.

End ProcessFile.

(** ** What one turn of the event loop does *)

Lemma sum_list_with_insert {A} (f : A → nat) (l : list A) i x0 x :
  l !! i = Some x0 →
  sum_list_with f (<[i:=x]> l) + f x0 = sum_list_with f l + f x.
Proof.
  revert i. induction l as [|y l IH]; intros [|i] Hi; try done.
  - injection Hi as ->. simpl. lia.
  - simpl in *. specialize (IH i Hi). lia.
Qed.

Definition permits_held (t : Task) : nat := if converting t then 1 else 0.

Lemma in_flight_sum b : in_flight b = sum_list_with permits_held (tasks b).
Proof.
  unfold in_flight. induction (tasks b) as [|t l IH]; [done|].
  rewrite filter_cons. simpl. unfold permits_held at 1.
  destruct (converting t) eqn:Ht; case_decide; try done; simpl; by rewrite IH.
Qed.

(** The turns a job still has to take. *)
Definition turns_left (t : Task) : nat :=
  match t with
  | Waiting _ => 2
  | Converting _ => 1
  | Done _ => 0
  end.

Definition remaining (b : Batch) : nat := sum_list_with turns_left (tasks b).

(** The results a job for [f] can have. *)
Definition skipped_result (f : Path) : Result := (true, PurePath.name f, "Skipped (exists)").
Definition converted_result (f : Path) : Result := (true, PurePath.name f, "Converted").
Definition failed_result (f : Path) (e : string) : Result :=
  (false, PurePath.name f, Str.take 200 e).

Definition job_result (f : Path) (r : Result) : Prop :=
  r = skipped_result f ∨ r = converted_result f ∨ ∃ e, r = failed_result f e.

Definition task_of (f : Path) (t : Task) : Prop :=
  t = Waiting f ∨ t = Converting f ∨ ∃ r, t = Done r ∧ job_result f r.

Section Batch.

Context (args : Args).

Local Abbreviation mf f := (markdown_file_of f args).

(** The three kinds of turn. *)
Inductive turn (b b' : Batch) (i : nat) (f : Path) : Prop :=
  | turn_skip :
      tasks b !! i = Some (Waiting f) →
      tasks b' = <[i := Done (skipped_result f)]> (tasks b) →
      0 < sem_value (world b) →
      is_Some (lookup_node (world b) (mf f)) →
      tree (world b') = tree (world b) →
      calls (world b') = calls (world b) →
      sem_value (world b') = sem_value (world b) →
      frame (world b) (world b') →
      turn b b' i f
  | turn_call :
      tasks b !! i = Some (Waiting f) →
      tasks b' = <[i := Converting f]> (tasks b) →
      lookup_node (world b) (mf f) = None →
      tree (world b') = tree (world b) →
      calls (world b') = calls (world b) ++ [PurePath.to_string f] →
      S (sem_value (world b')) = sem_value (world b) →
      frame (world b) (world b') →
      turn b b' i f
  | turn_answer r :
      tasks b !! i = Some (Converting f) →
      tasks b' = <[i := Done r]> (tasks b) →
      job_done (world b) (world b') →
      (∀ p n, p ≠ mf f → tree (world b) !! p = Some n → tree (world b') !! p = Some n) →
      extends (world b) (world b') →
      (∀ p n, tree (world b') !! p = Some n → tree (world b) !! p = None →
         (p = mf f ∧ ∃ text, n = File text)
         ∨ (n = Dir ∧ on_the_way (root (mf f)) [] (parts (PurePath.parent (mf f))) p)) →
      (r = converted_result f ∧ is_Some (tree (world b') !! mf f))
      ∨ (∃ e, r = failed_result f e) →
      turn b b' i f.

Lemma step_turn b b' : step args b b' → ∃ i f, turn b b' i f.
Proof.
  intros [i f w' t Hi Hrun | i f resp w' r Hi Hrun]; exists i, f.
  - apply enter_spec in Hrun as (Hsem & Htree & Hframe & Hcase).
    destruct Hcase as [([= ->] & ? & ? & ?)|[([= ->] & ? & ? & ?)|(e & [=] & _)]].
    + by apply turn_skip.
    + by apply turn_call.
  - apply resume_spec in Hrun as (r' & [= <-] & ? & ? & ? & ? & ?).
    by eapply turn_answer.
Qed.

Lemma turn_extends b b' i f : turn b b' i f → extends (world b) (world b').
Proof.
  intros [? ? ? ? Ht|? ? ? Ht|]; [| |done];
    apply keeps_extends; intros p n; by rewrite Ht.
Qed.

Lemma turn_frame b b' i f : turn b b' i f → frame (world b) (world b').
Proof. intros [| |r ? ? (?&?&?&?)]; done. Qed.

Lemma turn_length b b' i f : turn b b' i f → length (tasks b') = length (tasks b).
Proof. intros [? ->|? ->|? ? ->]; apply length_insert. Qed.

Ltac count_insert g Hi t0 t :=
  let Hsum := fresh "Hsum" in
  pose proof (sum_list_with_insert g _ _ _ t Hi) as Hsum;
  let a := eval cbv in (g t0) in
  let c := eval cbv in (g t) in
  change (g t0) with a in Hsum; change (g t) with c in Hsum;
  lia.

(** A permit is out exactly while a job is inside [client.convert]. *)
Lemma turn_permits b b' i f :
  turn b b' i f →
  sem_value (world b') + in_flight b' = sem_value (world b) + in_flight b.
Proof.
  rewrite !in_flight_sum.
  intros [Hi -> ? ? ? ? Hsem|Hi -> ? ? ? Hsem|r Hi -> (Hsem & _)].
  - count_insert permits_held Hi (Waiting f) (Done (skipped_result f)).
  - count_insert permits_held Hi (Waiting f) (Converting f).
  - count_insert permits_held Hi (Converting f) (Done r).
Qed.

(** Every turn brings the batch nearer to its end. *)
Lemma turn_remaining b b' i f : turn b b' i f → remaining b' < remaining b.
Proof.
  unfold remaining.
  intros [Hi ->|Hi ->|r Hi ->].
  - count_insert turns_left Hi (Waiting f) (Done (skipped_result f)).
  - count_insert turns_left Hi (Waiting f) (Converting f).
  - count_insert turns_left Hi (Converting f) (Done r).
Qed.

(** A job stays the job of its file. *)
Definition jobs_of (files : list Path) (b : Batch) : Prop :=
  length (tasks b) = length files
  ∧ ∀ i f, files !! i = Some f → ∃ t, tasks b !! i = Some t ∧ task_of f t.

Lemma jobs_of_gather files w : jobs_of files (gather files w).
Proof.
  split; [apply length_fmap|]. intros i f Hi. exists (Waiting f).
  split; [|by left]. cbn. by rewrite list_lookup_fmap, Hi.
Qed.

Lemma jobs_of_file files b i f t :
  jobs_of files b → tasks b !! i = Some t → (t = Waiting f ∨ t = Converting f) →
  files !! i = Some f.
Proof.
  intros [Hlen Hjobs] Hi Ht.
  destruct (files !! i) as [f'|] eqn:Hf.
  - destruct (Hjobs i f' Hf) as (t' & Hi' & Ht'). rewrite Hi in Hi'. injection Hi' as <-.
    destruct Ht as [-> | ->], Ht' as [?|[?|(?&?&?)]]; congruence.
  - apply lookup_ge_None in Hf. apply lookup_lt_Some in Hi. lia.
Qed.

Lemma turn_jobs_of files b b' i f :
  turn b b' i f → jobs_of files b → jobs_of files b'.
Proof.
  intros Hturn Hjobs. pose proof Hjobs as [Hlen Hall].
  split; [by rewrite (turn_length _ _ _ _ Hturn)|].
  intros j g Hj. destruct (Hall j g Hj) as (t & Ht & Htask).
  assert (∀ t', tasks b !! i = Some (Waiting f) ∨ tasks b !! i = Some (Converting f) →
                task_of f t' → tasks b' = <[i := t']> (tasks b) →
                ∃ t0, tasks b' !! j = Some t0 ∧ task_of g t0) as Hins.
  { intros t' Hi Ht' ->. destruct (decide (i = j)) as [->|Hne].
    - exists t'. split; [apply list_lookup_insert_eq; by eapply lookup_lt_Some|].
      assert (files !! j = Some f) as Hf.
      { destruct Hi as [Hi|Hi]; eapply jobs_of_file; eauto. }
      by simplify_eq.
    - exists t. by rewrite list_lookup_insert_ne. }
  destruct Hturn as [Hi Hb'|Hi Hb'|r Hi Hb' _ _ _ _ Hr].
  - eapply Hins; [by left | | done]. right; right. eexists. split; [done | by left].
  - eapply Hins; [by left | | done]. right; by left.
  - eapply Hins; [by right | | done]. right; right. exists r. split; [done|].
    destruct Hr as [[-> _]|[e ->]]; [right; by left | right; right; by eexists].
Qed.

End Batch.

(** ** What holds all along a batch *)

(** The states the event loop can be in. *)
Definition reachable (args : Args) (files : list Path) (w0 : World) (b : Batch) : Prop :=
  rtc (step args) (gather files w0) b.

Ltac reach_induction Hr :=
  unfold reachable in Hr;
  match type of Hr with
  | rtc _ _ ?b =>
      pattern b; revert b Hr; apply rtc_ind_r; [|intros b1 b2 Hr1 Hstep IH]
  end.

Section Reachable.

Context (args : Args) (files : list Path) (w0 : World).

Local Abbreviation mf f := (markdown_file_of f args).

Lemma in_flight_gather : in_flight (gather files w0) = 0.
Proof.
  rewrite in_flight_sum. cbn. induction files as [|f l IH]; [done|]. by cbn.
Qed.

Lemma reachable_jobs_of b : reachable args files w0 b → jobs_of files b.
Proof.
  intros Hr. reach_induction Hr;
    [apply jobs_of_gather|].
  apply step_turn in Hstep as (i & f & Hturn). by eapply turn_jobs_of.
Qed.

Lemma reachable_permits b :
  reachable args files w0 b → sem_value (world b) + in_flight b = sem_value w0.
Proof.
  intros Hr. reach_induction Hr;
    [by rewrite in_flight_gather; cbn; lia|].
  apply step_turn in Hstep as (i & f & Hturn).
  rewrite <- IH. by eapply turn_permits.
Qed.

Lemma reachable_extends b : reachable args files w0 b → extends w0 (world b).
Proof.
  intros Hr. reach_induction Hr;
    [apply extends_refl|].
  apply step_turn in Hstep as (i & f & Hturn).
  eapply extends_trans; [done | by eapply turn_extends].
Qed.

Lemma reachable_frame b : reachable args files w0 b → frame w0 (world b).
Proof.
  intros Hr. reach_induction Hr;
    [apply frame_refl|].
  apply step_turn in Hstep as (i & f & Hturn).
  eapply frame_trans; [done | by eapply turn_frame].
Qed.

(** A job is inside [client.convert] only if its output was missing when
    the batch began; and nothing that was in the tree then has changed. *)
Lemma reachable_keeps b :
  reachable args files w0 b →
  keeps w0 (world b)
  ∧ ∀ i f, tasks b !! i = Some (Converting f) → lookup_node w0 (mf f) = None.
Proof.
  intros Hr. reach_induction Hr.
  { split; [by intros ??|]. intros i f Hi. cbn in Hi.
    rewrite list_lookup_fmap in Hi. by destruct (files !! i). }
  destruct IH as [Hkeep Hconv].
  pose proof (reachable_extends _ Hr1) as Hext.
  apply step_turn in Hstep as (i & f & Hturn).
  assert (∀ t, tasks b2 = <[i := t]> (tasks b1) →
            (∀ g, t = Converting g → lookup_node w0 (mf g) = None) →
            ∀ j g, tasks b2 !! j = Some (Converting g) → lookup_node w0 (mf g) = None)
    as Hins.
  { intros t -> Ht j g Hj. destruct (decide (i = j)) as [->|Hne].
    - apply list_lookup_insert_Some in Hj as [(_ & Heq & _)|[? _]]; [by apply Ht | done].
    - rewrite list_lookup_insert_ne in Hj by done. by eapply Hconv. }
  destruct Hturn as [Hi Hb2 _ _ Htree|Hi Hb2 Hnone Htree|r Hi Hb2 _ Hkeep2].
  - split; [intros p n Hp; rewrite Htree; by apply Hkeep|].
    by eapply Hins.
  - split; [intros p n Hp; rewrite Htree; by apply Hkeep|].
    eapply Hins; [done|]. intros g [= <-].
    destruct (lookup_node w0 (mf f)) as [n|] eqn:Hn; [|done].
    destruct (lookup_node_extends _ _ _ _ Hext Hn) as (n' & Hn' & _). congruence.
  - split; [|by eapply Hins].
    intros p n Hp. apply Hkeep2; [|by apply Hkeep].
    intros ->. specialize (Hconv _ _ Hi). unfold lookup_node in Hconv.
    destruct (parts (mf f)); [done | congruence].
Qed.

(** A job that came back with success has its output in the tree, from
    then on. *)
Lemma reachable_success b :
  reachable args files w0 b →
  ∀ i f r, files !! i = Some f → tasks b !! i = Some (Done r) → r.1.1 = true →
           is_Some (lookup_node (world b) (mf f)).
Proof.
  intros Hr. reach_induction Hr.
  { intros i f r Hf Hi. cbn in Hi. rewrite list_lookup_fmap, Hf in Hi. done. }
  intros j g r Hg Hj Hr.
  pose proof (reachable_jobs_of _ Hr1) as Hjobs.
  apply step_turn in Hstep as (i & f & Hturn).
  pose proof (turn_extends _ _ _ _ _ Hturn) as Hext.
  assert (i ≠ j → ∀ t, tasks b2 = <[i := t]> (tasks b1) →
          is_Some (lookup_node (world b2) (mf g))) as Hother.
  { intros Hne t Hb2. rewrite Hb2, list_lookup_insert_ne in Hj by done.
    eapply exists_extends; [done|]. by eapply IH. }
  assert (i = j → tasks b1 !! i = Some (Waiting f) ∨ tasks b1 !! i = Some (Converting f) →
          g = f) as Hsame.
  { intros -> Hi. assert (files !! j = Some f); [|congruence].
    destruct Hi; eapply jobs_of_file; eauto. }
  destruct (decide (i = j)) as [Hij|Hne].
  2:{ destruct Hturn; by eapply Hother. }
  destruct Hturn as [Hi Hb2 _ Hex Htree|Hi Hb2|r' Hi Hb2 _ _ _ _ Hres].
  - rewrite (Hsame Hij) by auto.
    destruct Hex as [n Hn].
    destruct (lookup_node_extends _ _ _ _ Hext Hn) as (n' & Hn' & _). by exists n'.
  - subst j. rewrite Hb2 in Hj.
    apply list_lookup_insert_Some in Hj as [(_ & [=] & _)|[? _]]; done.
  - rewrite (Hsame Hij) by auto. subst j. rewrite Hb2 in Hj.
    apply list_lookup_insert_Some in Hj as [(_ & [= <-] & _)|[? _]]; [|done].
    destruct Hres as [[_ Hn]|[e ->]]; [|done].
    unfold lookup_node. destruct (parts (mf f)); [by eexists | done].
Qed.

(** The calls a batch adds are for files whose output was missing when it
    began. *)
Lemma reachable_calls b :
  reachable args files w0 b →
  ∃ l, calls (world b) = calls w0 ++ l
     ∧ Forall (λ s, ∃ f, f ∈ files ∧ s = PurePath.to_string f
                       ∧ lookup_node w0 (mf f) = None) l.
Proof.
  intros Hr. reach_induction Hr.
  { exists []. split; [by rewrite app_nil_r | done]. }
  destruct IH as (l & Hl & Hall).
  pose proof (reachable_jobs_of _ Hr1) as Hjobs.
  pose proof (reachable_extends _ Hr1) as Hext.
  apply step_turn in Hstep as (i & f & Hturn).
  destruct Hturn as [_ _ _ _ _ Hc|Hi _ Hnone _ Hc|r _ _ (_ & Hc & _)].
  - exists l. by rewrite Hc.
  - exists (l ++ [PurePath.to_string f]). split; [by rewrite Hc, Hl, app_assoc|].
    apply Forall_app. split; [done|]. apply Forall_singleton.
    exists f. split_and!; [|done|].
    + eapply list_elem_of_lookup_2, jobs_of_file; eauto.
    + destruct (lookup_node w0 (mf f)) as [n|] eqn:Hn; [|done].
      destruct (lookup_node_extends _ _ _ _ Hext Hn) as (n' & Hn' & _). congruence.
  - exists l. by rewrite Hc.
Qed.

(** What a batch adds to the tree: outputs of its jobs, and directories
    above them. *)
Lemma reachable_new b :
  reachable args files w0 b →
  ∀ p n, tree (world b) !! p = Some n → tree w0 !! p = None →
    ∃ f, f ∈ files
       ∧ ((p = mf f ∧ ∃ text, n = File text)
          ∨ (n = Dir ∧ on_the_way (root (mf f)) [] (parts (PurePath.parent (mf f))) p)).
Proof.
  intros Hr. reach_induction Hr.
  { intros p n Hp Hnone. cbn in Hp. congruence. }
  intros p n Hp Hnone.
  pose proof (reachable_jobs_of _ Hr1) as Hjobs.
  apply step_turn in Hstep as (i & f & Hturn).
  destruct Hturn as [_ _ _ _ Htree|_ _ _ Htree|r Hi _ _ Hkeep2 Hext2 Hnew2].
  - rewrite Htree in Hp. by eapply IH.
  - rewrite Htree in Hp. by eapply IH.
  - destruct (tree (world b1) !! p) as [n1|] eqn:Hp1.
    + destruct (Hext2 p n1 Hp1) as (n2 & Hp2 & Hkind).
      rewrite Hp in Hp2. injection Hp2 as <-.
      destruct (IH p n1 Hp1 Hnone) as (g & Hg & [[-> [text ->]]|[-> Hway]]);
        exists g; (split; [done|]).
      * left. split; [done|]. destruct n; [eauto | done].
      * right. split; [|done]. by destruct n.
    + exists f. split; [eapply list_elem_of_lookup_2, jobs_of_file; eauto|].
      destruct (Hnew2 p n Hp Hp1) as [[-> ?]|?]; [by left | by right].
Qed.

End Reachable.

(** ** Every batch comes to its end *)

Lemma results_of_None b :
  results_of b = None → ∃ i t, tasks b !! i = Some t ∧ result_of t = None.
Proof.
  unfold results_of. intros Hnone.
  destruct (decide (Forall (is_Some ∘ result_of) (tasks b))) as [Hall|Hex].
  - apply mapM_is_Some_2 in Hall as [rs Hrs]. congruence.
  - apply not_Forall_Exists in Hex; [|apply _].
    apply Exists_exists in Hex as (t & [i Hi]%list_elem_of_lookup_1 & Ht).
    exists i, t. split; [done|]. cbn in Ht.
    destruct (result_of t); [|done]. by destruct Ht.
Qed.

Lemma in_flight_pos b : 0 < in_flight b → ∃ i f, tasks b !! i = Some (Converting f).
Proof.
  unfold in_flight. intros Hpos.
  destruct (filter (λ t, converting t = true) (tasks b)) as [|t l] eqn:Hf; [cbn in Hpos; lia|].
  assert (t ∈ filter (λ t, converting t = true) (tasks b)) as Ht by (rewrite Hf; left).
  apply list_elem_of_filter in Ht as [Hc [i Hi]%list_elem_of_lookup_1].
  destruct t as [f|f|r]; try done. by exists i, f.
Qed.

Lemma in_flight_zero b i f : in_flight b = 0 → tasks b !! i ≠ Some (Converting f).
Proof.
  unfold in_flight. intros Hz Hi.
  assert (Converting f ∈ filter (λ t, converting t = true) (tasks b)) as Hin.
  { apply list_elem_of_filter. split; [done | by eapply list_elem_of_lookup_2]. }
  destruct (filter _ (tasks b)); [by apply elem_of_nil in Hin | done].
Qed.

Lemma results_of_length files b rs :
  jobs_of files b → results_of b = Some rs →
  length rs = length files
  ∧ ∀ i f, files !! i = Some f → ∃ r, rs !! i = Some r ∧ tasks b !! i = Some (Done r)
                                     ∧ job_result f r.
Proof.
  intros [Hlen Hjobs] Hrs%mapM_Some_1. split.
  - apply Forall2_length in Hrs. congruence.
  - intros i f Hf. destruct (Hjobs i f Hf) as (t & Ht & Htask).
    destruct (Forall2_lookup_l _ _ _ _ _ Hrs Ht) as (r & Hr & Hres).
    exists r. destruct t; try done. injection Hres as ->.
    split_and!; [done..|]. destruct Htask as [?|[?|(r' & [= <-] & ?)]]; done.
Qed.

(** The checks of the jobs of [files] all return. *)
Definition checks_return (args : Args) (files : list Path) (w : World) : Prop :=
  Forall (λ f, stat_error w (markdown_file_of f args) = None) files.

Section Progress.

Context (args : Args) (files : list Path) (w0 : World).

(** While a job is not done the loop can take a turn, or a job that
    waits meets a check that raises: the service may answer a job that
    waits for it, and when none does every permit is free for a job that
    waits for one. *)
Lemma progress_or_raise b :
  reachable args files w0 b → 0 < sem_value w0 →
  results_of b = None →
  (∃ b', step args b b')
  ∨ (∃ i f w' e, tasks b !! i = Some (Waiting f)
               ∧ stat_error w0 (markdown_file_of f args) = Some e
               ∧ process_file_enter f args (world b) = Some (w', Raise (Exception e))).
Proof.
  intros Hr Hsem Hnone.
  destruct (decide (0 < in_flight b)) as [Hpos|Hzero].
  - apply in_flight_pos in Hpos as (i & f & Hi).
    destruct (resume_raises f args EmptyString (world b)) as (w' & Hrun & _).
    left. eexists. by eapply step_resume.
  - apply results_of_None in Hnone as (i & t & Hi & Ht).
    assert (in_flight b = 0) as Hz by lia.
    destruct t as [f|f|r]; [|by apply in_flight_zero with (i:=i) (f:=f) in Hz|done].
    pose proof (reachable_permits _ _ _ _ Hr) as Hp.
    assert (0 < sem_value (world b)) as Hsem' by lia.
    destruct (reachable_frame _ _ _ _ Hr) as (_ & _ & _ & _ & _ & Hstat).
    destruct (stat_error (world b) (markdown_file_of f args)) as [e|] eqn:He.
    { destruct (enter_raises f args (world b) e Hsem' He) as (w' & Hrun & _).
      right. exists i, f, w', e. split_and!; [done | by rewrite <- Hstat | done]. }
    destruct (lookup_node (world b) (markdown_file_of f args)) as [n|] eqn:Hn.
    + destruct (enter_exists f args (world b) Hsem') as (w' & Hrun & _);
        [by rewrite Hn | done |].
      left. eexists. by eapply step_enter.
    + destruct (enter_missing f args (world b) Hsem' Hn He) as (w' & Hrun & _).
      left. eexists. by eapply step_enter.
Qed.

(** Where every check returns, the loop can take a turn. *)
Lemma progress b :
  reachable args files w0 b → 0 < sem_value w0 → checks_return args files w0 →
  results_of b = None → ∃ b', step args b b'.
Proof.
  intros Hr Hsem Hchecks Hnone.
  destruct (progress_or_raise b Hr Hsem Hnone) as [?|(i & f & w' & e & Hi & He & _)];
    [done|].
  assert (f ∈ files) as Hf.
  { pose proof (reachable_jobs_of _ _ _ _ Hr) as Hjobs.
    eapply list_elem_of_lookup_2, jobs_of_file; eauto. }
  eapply Forall_forall in Hchecks; [|done]. congruence.
Qed.

Lemma step_remaining b b' : step args b b' → remaining b' < remaining b.
Proof. intros (i & f & Hturn)%step_turn. by eapply turn_remaining. Qed.

(** From wherever the loop is, the batch can be brought to its end, with
    a result for every job, where every check returns. *)
Lemma completes b :
  reachable args files w0 b → 0 < sem_value w0 → checks_return args files w0 →
  ∃ b' rs, rtc (step args) b b' ∧ results_of b' = Some rs.
Proof.
  intros Hr Hsem Hchecks. remember (remaining b) as k eqn:Hk.
  revert b Hr Hk. induction k as [k IH] using lt_wf_ind. intros b Hr ->.
  destruct (results_of b) as [rs|] eqn:Hres; [by exists b, rs|].
  destruct (progress b Hr Hsem Hchecks Hres) as [b1 Hstep].
  destruct (IH (remaining b1) (step_remaining _ _ Hstep) b1) as (b' & rs & Hrtc & Hrs);
    [by eapply rtc_r | done |].
  exists b', rs. split; [by eapply rtc_l | done].
Qed.

(** A job whose check raises never gets past it. *)
Lemma reachable_stuck b i f e :
  reachable args files w0 b → files !! i = Some f →
  stat_error w0 (markdown_file_of f args) = Some e →
  tasks b !! i = Some (Waiting f).
Proof.
  intros Hr Hf He. reach_induction Hr.
  { cbn. by rewrite list_lookup_fmap, Hf. }
  pose proof (reachable_jobs_of _ _ _ _ Hr1) as Hjobs.
  destruct (reachable_frame _ _ _ _ Hr1) as (_ & _ & _ & _ & _ & Hstat).
  destruct Hstep as [j g w' t Hj Hrun | j g resp w' r Hj Hrun]; cbn [tasks].
  - destruct (decide (j = i)) as [->|Hne]; [|by rewrite list_lookup_insert_ne].
    rewrite IH in Hj. injection Hj as <-.
    apply enter_checked in Hrun. rewrite Hstat in Hrun. congruence.
  - destruct (decide (j = i)) as [->|Hne]; [|by rewrite list_lookup_insert_ne].
    congruence.
Qed.

End Progress.

(** ** Jobs whose output is already there *)

Section Skipping.

Context (args : Args) (files : list Path) (w0 : World).

Local Abbreviation mf f := (markdown_file_of f args).

(** A job that did not skip is one whose output was missing when the
    batch began. *)
Lemma reachable_called b :
  reachable args files w0 b →
  ∀ i f r, files !! i = Some f → tasks b !! i = Some (Done r) →
           r ≠ skipped_result f → lookup_node w0 (mf f) = None.
Proof.
  intros Hr. reach_induction Hr.
  { intros i f r Hf Hi. cbn in Hi. by rewrite list_lookup_fmap, Hf in Hi. }
  intros j g r Hg Hj Hne.
  pose proof (reachable_jobs_of _ _ _ _ Hr1) as Hjobs.
  destruct (reachable_keeps _ _ _ _ Hr1) as [_ Hconv].
  apply step_turn in Hstep as (i & f & Hturn).
  assert (∀ t, tasks b2 = <[i := t]> (tasks b1) → i ≠ j →
               lookup_node w0 (mf g) = None) as Hother.
  { intros t Hb2 Hij. rewrite Hb2, list_lookup_insert_ne in Hj by done. by eapply IH. }
  destruct (decide (i = j)) as [<-|Hij]; [|destruct Hturn; by eapply Hother].
  destruct Hturn as [Hi Hb2|Hi Hb2|r' Hi Hb2]; rewrite Hb2 in Hj;
    apply list_lookup_insert_Some in Hj as [(_ & Heq & _)|[? _]]; try done.
  - injection Heq as <-.
    assert (files !! i = Some f) by (eapply jobs_of_file; eauto). congruence.
  - assert (files !! i = Some f) by (eapply jobs_of_file; eauto).
    assert (g = f) as -> by congruence. by eapply Hconv.
Qed.

(** A job whose output was there when the batch began never enters
    [client.convert]: it waits for a permit or has skipped. *)
Lemma reachable_skips b i f :
  reachable args files w0 b →
  files !! i = Some f → is_Some (lookup_node w0 (mf f)) →
  tasks b !! i = Some (Waiting f) ∨ tasks b !! i = Some (Done (skipped_result f)).
Proof.
  intros Hr Hf [n Hn].
  destruct (reachable_jobs_of _ _ _ _ Hr) as [_ Hjobs].
  destruct (Hjobs i f Hf) as (t & Ht & [->|[->|(r & -> & Hres)]]); [by left | |].
  - destruct (reachable_keeps _ _ _ _ Hr) as [_ Hconv].
    specialize (Hconv _ _ Ht). congruence.
  - destruct (decide (r = skipped_result f)) as [->|Hne]; [by right|].
    pose proof (reachable_called _ Hr _ _ _ Hf Ht Hne). congruence.
Qed.

(** What was in the tree when the batch began is there unchanged. *)
Lemma reachable_lookup b p n :
  reachable args files w0 b → lookup_node w0 p = Some n → lookup_node (world b) p = Some n.
Proof.
  intros Hr. destruct (reachable_keeps _ _ _ _ Hr) as [Hkeep _].
  unfold lookup_node. destruct (parts p); [done | apply Hkeep].
Qed.

End Skipping.

(** ** The claims about [process_file] *)

(** C1, as the code has it.  A job whose output file is already in the
    output directory, and whose check [markdown_file.exists()] returns, is
    skipped: [process_file] returns the success result marked
    ["Skipped (exists)"], issues no call to the conversion client and
    leaves the file tree, and so the output file, as it was.  When the
    check raises (the output directory must not be searched), the
    exception leaves [process_file], for the check stands before the
    [try]: there is no result then, and still no call and no change.  In a
    batch, a job whose output was there when the batch began only ever
    waits or has returned the skipped result, it is never inside
    [client.convert], and its output file is untouched by every other job
    as well. *)
Theorem process_file_skips_existing_output (args : Args) (file_path : Path) :
  (∀ client w,
     0 < sem_value w →
     is_Some (lookup_node w (markdown_file_of file_path args)) →
     stat_error w (markdown_file_of file_path args) = None →
     ∃ w', process_file client file_path args w
             = Some (w', Ok (skipped_result file_path))
           ∧ calls w' = calls w ∧ tree w' = tree w)
  ∧ (∀ client w e,
       0 < sem_value w →
       stat_error w (markdown_file_of file_path args) = Some e →
       ∃ w', process_file client file_path args w = Some (w', Raise (Exception e))
             ∧ calls w' = calls w ∧ tree w' = tree w ∧ sem_value w' = sem_value w)
  ∧ (∀ files w0 b i n,
       files !! i = Some file_path →
       lookup_node w0 (markdown_file_of file_path args) = Some n →
       reachable args files w0 b →
       (tasks b !! i = Some (Waiting file_path)
        ∨ tasks b !! i = Some (Done (skipped_result file_path)))
       ∧ tasks b !! i ≠ Some (Converting file_path)
       ∧ lookup_node (world b) (markdown_file_of file_path args) = Some n).
Proof.
  split_and!.
  - intros client w Hsem Hex Hstat.
    destruct (enter_exists file_path args w Hsem Hex Hstat) as (w' & Hrun & Ht & Hc & _).
    exists w'. unfold process_file. rewrite Hrun. by cbn.
  - intros client w e Hsem Hstat.
    destruct (enter_raises file_path args w e Hsem Hstat)
      as (w' & Hrun & Ht & Hc & Hs & _).
    exists w'. unfold process_file. rewrite Hrun. by cbn.
  - intros files w0 b i n Hf Hn Hr.
    assert (tasks b !! i = Some (Waiting file_path)
            ∨ tasks b !! i = Some (Done (skipped_result file_path))) as Hcase.
    { eapply reachable_skips; eauto. }
    split_and!; [done | | by eapply reachable_lookup].
    destruct Hcase as [-> | ->]; done.
Qed.

Lemma process_file_skips_existing_output_witness :
  (∃ w', process_file Example.service (Example.at_ "/in/a.pdf") Example.to_out Example.posix
           = Some (w', Ok (skipped_result (Example.at_ "/in/a.pdf")))
         ∧ calls w' = calls Example.posix ∧ tree w' = tree Example.posix)
  ∧ (∃ w', process_file Example.service (Example.at_ "/in/a.pdf") Example.to_out
             Example.locked
           = Some (w', Raise (Exception "[Errno 13] Permission denied: '/out/a.md'"))
         ∧ calls w' = calls Example.locked ∧ tree w' = tree Example.locked
         ∧ sem_value w' = sem_value Example.locked)
  ∧ tasks (gather [Example.at_ "/in/a.pdf"] Example.posix) !! 0
      ≠ Some (Converting (Example.at_ "/in/a.pdf")).
Proof.
  pose proof (process_file_skips_existing_output Example.to_out (Example.at_ "/in/a.pdf"))
    as (Hskip & Hraise & Hbatch).
  split_and!.
  - apply Hskip; [cbn; lia | vm_compute; by eexists | reflexivity].
  - apply Hraise; [cbn; lia | reflexivity].
  - eapply (Hbatch [Example.at_ "/in/a.pdf"] Example.posix _ 0);
      [reflexivity | vm_compute; reflexivity | apply rtc_refl].
Defined.

(** C1 as the specification words it fails where the check raises: the
    output [/out/a.md] is there, but [/out] must not be searched, and
    [process_file] ends with the [PermissionError] of [exists], not with
    a skipped result. *)
Lemma process_file_raises_where_exists_raises :
  ¬ (∀ args file_path client w,
       0 < sem_value w →
       is_Some (lookup_node w (markdown_file_of file_path args)) →
       ∃ w', process_file client file_path args w
             = Some (w', Ok (skipped_result file_path))).
Proof.
  intros Hclaim.
  destruct (Hclaim Example.to_out (Example.at_ "/in/a.pdf") Example.service Example.locked)
    as (w' & Hrun); [cbn; lia | vm_compute; by eexists |].
  destruct (enter_raises (Example.at_ "/in/a.pdf") Example.to_out Example.locked
              "[Errno 13] Permission denied: '/out/a.md'")
    as (w1 & Henter & _); [cbn; lia | reflexivity |].
  unfold process_file in Hrun. rewrite Henter in Hrun. cbn in Hrun. congruence.
Qed.

(** C3.  When [client.convert] returns a result whose [markdown] is
    missing or empty, [process_file] returns a failed result, with the
    message of the [RuntimeError] it raises for itself, and the file
    tree is as before, so no output file has been created.  This holds
    whatever the world looks like when the answer arrives, and for the job
    run alone from its start, once its check of the output has returned
    that there is none. *)
Theorem process_file_fails_without_markdown (args : Args) (file_path : Path)
    (markdown : option string) :
  markdown = None ∨ markdown = Some EmptyString →
  (∀ w, ∃ w',
     process_file_resume file_path args (Returns markdown) w
       = (w', Ok (false, PurePath.name file_path,
                  "No markdown content returned from Datalab API"))
     ∧ tree w' = tree w)
  ∧ (∀ client w,
       0 < sem_value w →
       lookup_node w (markdown_file_of file_path args) = None →
       stat_error w (markdown_file_of file_path args) = None →
       client (PurePath.to_string file_path) = Returns markdown →
       ∃ w', process_file client file_path args w
               = Some (w', Ok (false, PurePath.name file_path,
                               "No markdown content returned from Datalab API"))
             ∧ tree w' = tree w
             ∧ lookup_node w' (markdown_file_of file_path args) = None).
Proof.
  intros Hmd. split.
  - intros w. destruct (resume_no_markdown file_path args markdown w Hmd)
      as (w' & Hrun & Ht & _). by exists w'.
  - intros client w Hsem Hnone Hstat Hclient.
    destruct (enter_missing file_path args w Hsem Hnone Hstat) as (w1 & Hrun1 & Ht1 & _).
    destruct (resume_no_markdown file_path args markdown w1 Hmd) as (w' & Hrun & Ht & _).
    exists w'. unfold process_file. rewrite Hrun1. cbn. rewrite Hclient, Hrun.
    split_and!; [done | congruence |].
    unfold lookup_node in *. destruct (parts _); [done | congruence].
Qed.

Lemma process_file_fails_without_markdown_witness :
  ∃ w', process_file Example.service (Example.at_ "/in/c.epub") Example.to_out Example.posix
          = Some (w', Ok (false, "c.epub", "No markdown content returned from Datalab API"))
        ∧ tree w' = tree Example.posix
        ∧ lookup_node w' (Example.at_ "/out/c.md") = None.
Proof.
  apply (proj2 (process_file_fails_without_markdown Example.to_out
                  (Example.at_ "/in/c.epub") (Some EmptyString) (or_intror eq_refl))).
  - cbn. lia.
  - vm_compute. reflexivity.
  - reflexivity.
  - vm_compute. reflexivity.
Defined.

Lemma take_length n s : Str.len (Str.take n s) ≤ n.
Proof.
  revert n. induction s as [|c s IH]; intros n; [cbn; lia|].
  cbn [Str.take]. destruct (Str.continuation c) eqn:Hc.
  - cbn [Str.len]. rewrite Hc. apply IH.
  - destruct n as [|n]; [cbn; lia|]. cbn [Str.len]. rewrite Hc. specialize (IH n). lia.
Qed.

(** A slice is the beginning of the string. *)
Lemma take_prefix n s : ∃ rest, s = Str.take n s +:+ rest.
Proof.
  revert n. induction s as [|c s IH]; intros n; [by exists EmptyString|].
  cbn [Str.take]. destruct (Str.continuation c).
  - destruct (IH n) as [rest Hrest]. exists rest.
    change (String c s = String c (Str.take n s +:+ rest)). by f_equal.
  - destruct n as [|n]; [by exists (String c s)|].
    destruct (IH n) as [rest Hrest]. exists rest.
    change (String c s = String c (Str.take n s +:+ rest)). by f_equal.
Qed.

(** A string of at most [n] characters is its own slice. *)
Lemma take_all n s : Str.len s ≤ n → Str.take n s = s.
Proof.
  revert n. induction s as [|c s IH]; intros n Hlen; [done|].
  cbn [Str.take Str.len] in *. destruct (Str.continuation c).
  - by rewrite IH.
  - destruct n as [|n]; [lia|]. rewrite IH; [done | lia].
Qed.

(** A longer string is cut to exactly [n] characters. *)
Lemma take_full n s : n ≤ Str.len s → Str.len (Str.take n s) = n.
Proof.
  revert n. induction s as [|c s IH]; intros n Hlen; [cbn in *; lia|].
  cbn [Str.take Str.len] in *. destruct (Str.continuation c) eqn:Hc.
  - cbn [Str.len]. rewrite Hc. by apply IH.
  - destruct n as [|n]; [done|]. cbn [Str.len]. rewrite Hc. rewrite IH; [done | lia].
Qed.

(** A slice ends where a character ends. *)
Lemma take_whole n s :
  ∃ rest, s = Str.take n s +:+ rest
        ∧ match rest with
          | EmptyString => True
          | String c _ => Str.continuation c = false
          end.
Proof.
  revert n. induction s as [|c s IH]; intros n; [by exists EmptyString|].
  cbn [Str.take]. destruct (Str.continuation c) eqn:Hc.
  - destruct (IH n) as (rest & Hrest & Hb). exists rest. split; [|done].
    change (String c s = String c (Str.take n s +:+ rest)). by f_equal.
  - destruct n as [|n]; [by exists (String c s)|].
    destruct (IH n) as (rest & Hrest & Hb). exists rest. split; [|done].
    change (String c s = String c (Str.take n s +:+ rest)). by f_equal.
Qed.

(** C4.  An exception of the remote call, or of creating and writing the
    output file, is caught: [process_file] returns a failed result whose
    message is the text of the exception cut to its first 200 characters
    (the beginning of the text, ending where a character ends: the whole
    text when it has no more than 200 characters, exactly 200 of them
    otherwise), and the code after the call never lets an exception out.
    So the failure of a job does not end the batch: as long as a job has
    no result the event loop can take a turn, unless a job that has not
    begun meets a check [exists()] that raises, which is no failure of the
    call or of the write; every turn brings the batch nearer to its end;
    and where the checks return, the batch reaches its end from any
    state, with a result for every job. *)
Theorem process_file_catches_exceptions (args : Args) (file_path : Path) :
  (∀ msg w, ∃ w',
     process_file_resume file_path args (Raises msg) w
       = (w', Ok (false, PurePath.name file_path, Str.take 200 msg)))
  ∧ (∀ text e w w1,
       text ≠ EmptyString →
       write_output file_path args text w = (w1, Raise (Exception e)) →
       ∃ w', process_file_resume file_path args (Returns (Some text)) w
               = (w', Ok (false, PurePath.name file_path, Str.take 200 e)))
  ∧ (∀ e,
       Str.len (Str.take 200 e) ≤ 200
       ∧ (∃ rest, e = Str.take 200 e +:+ rest
                ∧ match rest with
                  | EmptyString => True
                  | String c _ => Str.continuation c = false
                  end)
       ∧ (Str.len e ≤ 200 → Str.take 200 e = e)
       ∧ (200 ≤ Str.len e → Str.len (Str.take 200 e) = 200))
  ∧ (∀ resp w, ∃ w' r, process_file_resume file_path args resp w = (w', Ok r))
  ∧ (∀ files w0 b,
       0 < sem_value w0 →
       reachable args files w0 b →
       (results_of b = None →
          (∃ b', step args b b')
          ∨ (∃ i f w' e,
               tasks b !! i = Some (Waiting f)
               ∧ stat_error w0 (markdown_file_of f args) = Some e
               ∧ process_file_enter f args (world b) = Some (w', Raise (Exception e))))
       ∧ (∀ b', step args b b' → remaining b' < remaining b)
       ∧ (checks_return args files w0 →
            ∃ b' rs, rtc (step args) b b' ∧ results_of b' = Some rs
                     ∧ length rs = length files)).
Proof.
  split_and!.
  - intros msg w. destruct (resume_raises file_path args msg w) as (w' & Hrun & _).
    by exists w'.
  - intros text e w w1 Htext Hrun.
    destruct (resume_write_raises file_path args text w w1 e Htext Hrun) as (w' & Hw' & _).
    by exists w'.
  - intros e. split_and!;
      [apply take_length | apply take_whole | apply take_all | apply take_full].
  - intros resp w.
    destruct (process_file_resume file_path args resp w) as [w' o] eqn:Hrun.
    apply resume_spec in Hrun as (r & -> & _). by exists w', r.
  - intros files w0 b Hsem Hr. split_and!.
    + by eapply progress_or_raise.
    + apply step_remaining.
    + intros Hchecks.
      destruct (completes args files w0 b Hr Hsem Hchecks) as (b' & rs & Hrtc & Hrs).
      exists b', rs. split_and!; [done..|].
      eapply results_of_length; [|done].
      eapply reachable_jobs_of. unfold reachable in *. by etrans.
Qed.

Lemma process_file_catches_exceptions_witness :
  (∃ w', process_file_resume (Example.at_ "/in/B.PDF") Example.to_out
           (Returns (Some "# b")) Example.full_disk
         = (w', Ok (false, "B.PDF", "[Errno 28] No space left on device: '/out/B.md'")))
  ∧ ∃ b' rs,
      rtc (step Example.to_out)
        (gather [Example.at_ "/in/a.pdf"; Example.at_ "/in/B.PDF"] Example.posix) b'
      ∧ results_of b' = Some rs ∧ length rs = 2.
Proof.
  pose proof (process_file_catches_exceptions Example.to_out (Example.at_ "/in/B.PDF"))
    as (_ & Hwrite & Hcut & _ & Hbatch).
  split.
  - destruct (Hwrite "# b" "[Errno 28] No space left on device: '/out/B.md'"
                Example.full_disk Example.full_disk) as [w' Hrun];
      [done | vm_compute; reflexivity |].
    exists w'. rewrite Hrun.
    destruct (Hcut "[Errno 28] No space left on device: '/out/B.md'")
      as (_ & _ & Hshort & _).
    rewrite Hshort; [done | vm_compute; lia].
  - apply (Hbatch [Example.at_ "/in/a.pdf"; Example.at_ "/in/B.PDF"] Example.posix).
    + cbn. lia.
    + apply rtc_refl.
    + by repeat constructor.
Defined.

(** ** Names and patterns *)

(** A pattern without a wildcard. *)
Fixpoint literal (pat : string) : bool :=
  match pat with
  | EmptyString => true
  | String c pat' =>
      negb (Ascii.eqb c "*"%char) && negb (Ascii.eqb c "?"%char) && literal pat'
  end.

Lemma endswith_spec s suffix :
  Str.endswith s suffix = true ↔ ∃ before, s = before +:+ suffix.
Proof.
  induction s as [|c s IH]; cbn [Str.endswith].
  - rewrite orb_false_r, String.eqb_eq. split.
    + intros <-. by exists EmptyString.
    + intros ([|? ?] & Heq); cbn in Heq; [done | discriminate].
  - rewrite orb_true_iff, String.eqb_eq, IH. split.
    + intros [<-|[before ->]]; [by exists EmptyString | by exists (String c before)].
    + intros ([|d before] & Heq); cbn in Heq; [by left|].
      injection Heq as -> ->. right. by exists before.
Qed.

Lemma fnmatchcase_literal pat name :
  literal pat = true → Str.fnmatchcase pat name = String.eqb name pat.
Proof.
  revert name. induction pat as [|c pat IH]; intros name Hlit.
  - by destruct name.
  - cbn in Hlit. apply andb_true_iff in Hlit as [[Hs Hq]%andb_true_iff Hlit].
    apply negb_true_iff in Hs, Hq. cbn [Str.fnmatchcase]. rewrite Hs.
    destruct name as [|d name]; [done|].
    rewrite Hq, IH by done. cbn. by rewrite Ascii.eqb_sym.
Qed.

(** [*] followed by a literal matches the names that end with it. *)
Lemma fnmatchcase_star pat name :
  literal pat = true → Str.fnmatchcase ("*" +:+ pat) name = Str.endswith name pat.
Proof.
  intros Hlit. change ("*" +:+ pat) with (String "*"%char pat).
  cbn [Str.fnmatchcase]. change (Ascii.eqb "*" "*") with true. cbn match.
  induction name as [|d name IH]; cbn [Str.endswith];
    rewrite fnmatchcase_literal by done; [done|]. by rewrite IH.
Qed.

Global Instance child_inj d : Inj (=) (=) (child d).
Proof. intros n1 n2 [= Heq]. by apply app_inj_tail in Heq as [_ ?]. Qed.

Lemma child_name_Some d k n : child_name d k = Some n ↔ k = child d n.
Proof.
  unfold child_name, child. split.
  - destruct (decide (root k = root d)) as [Hr|]; [|done].
    destruct (last (parts k)) as [m|]; [|done].
    case_decide as Hp; [|done]. intros [= ->]. destruct k. cbn in *. by subst.
  - intros ->. cbn. rewrite decide_True by done. rewrite last_snoc.
    by rewrite decide_True.
Qed.

Lemma elem_of_scandir w d n : n ∈ scandir w d ↔ is_Some (tree w !! child d n).
Proof.
  unfold scandir. rewrite list_elem_of_omap. split.
  - intros (k & Hk & Hn). apply child_name_Some in Hn as ->.
    by apply elem_of_dom, elem_of_elements.
  - intros Hin. exists (child d n).
    split; [by apply elem_of_elements, elem_of_dom | by apply child_name_Some].
Qed.

(** [name] matches [*ext] or [*EXT]: on a case-sensitive flavour it ends
    with the extension in small letters or in capitals, on a
    case-insensitive one in any casing. *)
Definition matches_extension (w : World) (name ext : string) : bool :=
  if case_sensitive w then Str.endswith name ext || Str.endswith name (Str.upper ext)
  else Str.endswith (Str.lower name) ext.

(** What the extensions of the script have in common: no wildcard, small
    letters. *)
Definition plain (ext : string) : bool :=
  literal ext && literal (Str.upper ext)
  && String.eqb (Str.lower ext) ext && String.eqb (Str.lower (Str.upper ext)) ext.

Lemma extensions_plain fmt : Forall (λ ext, plain ext = true) (extensions_of fmt).
Proof. destruct fmt; repeat constructor. Qed.

Lemma lower_star ext : Str.lower ("*" +:+ ext) = "*" +:+ Str.lower ext.
Proof. done. Qed.

Lemma fnmatch_extension w ext name :
  plain ext = true →
  fnmatch w ("*" +:+ ext) name || fnmatch w ("*" +:+ Str.upper ext) name
  = matches_extension w name ext.
Proof.
  unfold plain, fnmatch, matches_extension.
  intros [[[H1 H2]%andb_true_iff H3%String.eqb_eq]%andb_true_iff
            H4%String.eqb_eq]%andb_true_iff.
  destruct (case_sensitive w).
  - by rewrite !fnmatchcase_star.
  - rewrite !lower_star, H3, H4, !fnmatchcase_star by done. apply orb_diag.
Qed.

(** ** File discovery *)

(** What [d.glob(pattern)] yields in [w]. *)
Definition globbed (w : World) (d : Path) (pattern : string) : list Path :=
  if is_dir w d then child d <$> filter (λ n, fnmatch w pattern n = true) (scandir w d)
  else [].

Lemma glob_eq d pattern w :
  stat_error w d = None → glob d pattern w = (w, Ok (globbed w d pattern)).
Proof. unfold glob. by intros ->. Qed.

Lemma glob_raises d pattern w e :
  stat_error w d = Some e → glob d pattern w = (w, Raise (Exception e)).
Proof. unfold glob. by intros ->. Qed.

Lemma elem_of_globbed w d pattern p :
  p ∈ globbed w d pattern ↔
  is_dir w d = true
  ∧ ∃ n, p = child d n ∧ is_Some (tree w !! p) ∧ fnmatch w pattern n = true.
Proof.
  unfold globbed. destruct (is_dir w d).
  - rewrite list_elem_of_fmap. split.
    + intros (n & -> & [Hm Hn%elem_of_scandir]%list_elem_of_filter). eauto.
    + intros (_ & n & -> & Hin & Hm). exists n. split; [done|].
      apply list_elem_of_filter. split; [done | by apply elem_of_scandir].
  - split; [by intros ?%elem_of_nil | by intros [? _]].
Qed.

Lemma glob_extensions_eq d exts : ∀ acc w,
  stat_error w d = None →
  glob_extensions d exts acc w
  = (w, Ok (acc ++ flat_map (λ ext, globbed w d ("*" +:+ ext)
                                     ++ globbed w d ("*" +:+ Str.upper ext)) exts)).
Proof.
  induction exts as [|ext exts IH]; intros acc w Hstat; cbn [glob_extensions flat_map].
  - unfold ret. by rewrite app_nil_r.
  - unfold mbind, M_bind, bind. rewrite !glob_eq, IH by done. by rewrite <- !app_assoc.
Qed.

(** What [discover_files] returns in [w]. *)
Definition discovered (w : World) (d : Path) (fmt : Format) : gset Path :=
  list_to_set (flat_map (λ ext, globbed w d ("*" +:+ ext)
                                ++ globbed w d ("*" +:+ Str.upper ext))
                        (extensions_of fmt)).

Lemma discover_files_eq d fmt w :
  stat_error w d = None → discover_files d fmt w = (w, Ok (discovered w d fmt)).
Proof.
  intros Hstat. unfold discover_files, mbind, M_bind, bind.
  by rewrite glob_extensions_eq.
Qed.

(** The first glob raises what [stat] refuses. *)
Lemma discover_files_raises d fmt w e :
  stat_error w d = Some e → discover_files d fmt w = (w, Raise (Exception e)).
Proof.
  intros Hstat. unfold discover_files, mbind, M_bind, bind.
  destruct fmt; cbn [extensions_of glob_extensions]; unfold mbind, M_bind, bind;
    by rewrite (glob_raises _ _ _ _ Hstat).
Qed.

Lemma elem_of_discovered w d fmt p :
  p ∈ discovered w d fmt ↔
  is_dir w d = true
  ∧ ∃ n, p = child d n ∧ is_Some (tree w !! p)
       ∧ ∃ ext, ext ∈ extensions_of fmt ∧ matches_extension w n ext = true.
Proof.
  unfold discovered. rewrite elem_of_list_to_set, list_elem_of_In, in_flat_map.
  setoid_rewrite <- list_elem_of_In. setoid_rewrite elem_of_app.
  setoid_rewrite elem_of_globbed. split.
  - intros (ext & Hext & Hp).
    assert (plain ext = true) as Hplain.
    { by eapply Forall_forall in Hext; [|apply extensions_plain]. }
    assert (is_dir w d = true
            ∧ ∃ n, p = child d n ∧ is_Some (tree w !! p)
                 ∧ (fnmatch w ("*" +:+ ext) n || fnmatch w ("*" +:+ Str.upper ext) n) = true)
      as (Hd & n & -> & Hin & Hm).
    { destruct Hp as [(? & n & ? & ? & Hm)|(? & n & ? & ? & Hm)];
        (split; [done|]); exists n; rewrite Hm; split_and!; try done.
      apply orb_true_r. }
    rewrite fnmatch_extension in Hm by done. eauto 10.
  - intros (Hd & n & -> & Hin & ext & Hext & Hm). exists ext. split; [done|].
    assert (plain ext = true) as Hplain.
    { by eapply Forall_forall in Hext; [|apply extensions_plain]. }
    rewrite <- fnmatch_extension in Hm by done.
    apply orb_true_iff in Hm as [Hm|Hm]; [left | right]; eauto 10.
Qed.



(** ** What [main] does before the batch *)

(** The key [main] settles on. *)
Definition api_key_of (w : World) : option string :=
  py_or (environ w !! "DATALAB_API_KEY") (environ w !! "MARKER_PDF_KEY").

Lemma makedirs_from_frame wk r below : ∀ above w v,
  tree w = tree v → os_error w = os_error v →
  (makedirs_from wk r above below w).2 = (makedirs_from wk r above below v).2
  ∧ tree (makedirs_from wk r above below w).1
    = tree (makedirs_from wk r above below v).1.
Proof.
  induction below as [|x below IH]; intros above w v Ht He; [done|].
  cbn [makedirs_from]. rewrite <- Ht, <- He.
  destruct (tree w !! _) as [[c|]|].
  - by destruct below.
  - by apply IH.
  - destruct (os_error w _); [done|]. apply IH; cbn; congruence.
Qed.

Lemma discovered_frame w v d fmt :
  tree w = tree v → case_sensitive w = case_sensitive v →
  discovered w d fmt = discovered v d fmt.
Proof.
  intros Ht Hc. unfold discovered, globbed, is_dir, lookup_node, scandir, fnmatch.
  by rewrite Ht, Hc.
Qed.

(** What [main] has done when it suspends or leaves, the command line
    parsed. *)
Lemma main_enter_parsed (ns : Namespace) w w' o :
  main_enter ns w = (w', o) →
  stat_error w' = stat_error w
  ∧ calls w' = calls w ∧ os_error w' = os_error w ∧ case_sensitive w' = case_sensitive w
  ∧ keeps w w'
  ∧ ((not_configured (api_key_of w) = true ∧ o = Raise (SystemExit 1)
      ∧ tree w' = tree w ∧ environ w' = environ w)
     ∨ (∃ key, api_key_of w = Some key ∧ not_configured (Some key) = false
          ∧ environ w' = <["DATALAB_API_KEY" := key]> (environ w)
          ∧ ∃ w2 o2,
              makedirs (output (parse_args ns)) w = (w2, o2)
              ∧ tree w' = tree w2
              ∧ match o2 with
                | Raise e => o = Raise e
                | Ok _ =>
                    match stat_error w (PurePath.of_string (input (parse_args ns))) with
                    | Some e => o = Raise (Exception e)
                    | None =>
                        let files :=
                          discovered w' (PurePath.of_string (input (parse_args ns)))
                            (format (parse_args ns)) in
                        (size files = 0 ∧ o = Ok Returned)
                        ∨ (size files ≠ 0 ∧ o = Ok (AwaitGather (parse_args ns) files)
                           ∧ sem_value w' = 10 ∧ pbar_total w' = size files)
                    end
                end)).
Proof.
  intros Hrun. unfold main_enter in Hrun. run_m. fold (api_key_of w) in Hrun.
  destruct (not_configured (api_key_of w)) eqn:Hconf.
  { injection Hrun as <- <-. split_and!; [done.. | by intros ?? |]. left. by split_and!. }
  destruct (api_key_of w) as [key|] eqn:Hkey; [|done].
  set (d := PurePath.of_string (input (parse_args ns))) in *.
  set (w1 := set_environ <["DATALAB_API_KEY":=key]> w) in Hrun.
  destruct (makedirs (output (parse_args ns)) w1) as [w2 o2] eqn:Hmk.
  destruct (makedirs (output (parse_args ns)) w) as [v2 p2] eqn:Hmk'.
  destruct (makedirs_from_frame (OsMakedirs (output (parse_args ns)))
              (root (PurePath.of_string (output (parse_args ns))))
              (parts (PurePath.of_string (output (parse_args ns)))) [] w1 w eq_refl eq_refl)
    as [Ho Ht].
  unfold makedirs in Hmk, Hmk'. cbn zeta in Hmk, Hmk'.
  rewrite Hmk, Hmk' in Ho, Ht. cbn in Ho, Ht. subst p2.
  apply makedirs_from_spec in Hmk as (Hs & Hk & _ & _).
  apply same_but_tree_frame in Hs as ((He & Hc & Henv & _ & _ & Hst) & _ & Hcalls & _).
  unfold w1 in He, Hc, Henv, Hcalls, Hst. cbn in He, Hc, Henv, Hcalls, Hst.
  assert (∀ w'' o'', tree w'' = tree w2 → calls w'' = calls w2 →
            os_error w'' = os_error w2 → case_sensitive w'' = case_sensitive w2 →
            environ w'' = environ w2 → stat_error w'' = stat_error w2 →
            match o2 with
            | Raise e => o'' = Raise e
            | Ok _ =>
                match stat_error w d with
                | Some e => o'' = Raise (Exception e)
                | None =>
                    let files := discovered w'' d (format (parse_args ns)) in
                    (size files = 0 ∧ o'' = Ok Returned)
                    ∨ (size files ≠ 0 ∧ o'' = Ok (AwaitGather (parse_args ns) files)
                       ∧ sem_value w'' = 10 ∧ pbar_total w'' = size files)
                end
            end →
            (w'', o'') = (w', o) →
            stat_error w' = stat_error w
            ∧ calls w' = calls w ∧ os_error w' = os_error w
            ∧ case_sensitive w' = case_sensitive w ∧ keeps w w'
            ∧ ((false = true ∧ o = Raise (SystemExit 1)
                ∧ tree w' = tree w ∧ environ w' = environ w)
               ∨ (∃ key0, Some key = Some key0 ∧ not_configured (Some key0) = false
                    ∧ environ w' = <["DATALAB_API_KEY" := key0]> (environ w)
                    ∧ ∃ w3 o3, (v2, o2) = (w3, o3) ∧ tree w' = tree w3
                        ∧ match o3 with
                          | Raise e => o = Raise e
                          | Ok _ =>
                              match stat_error w d with
                              | Some e => o = Raise (Exception e)
                              | None =>
                                  let files := discovered w' d (format (parse_args ns)) in
                                  (size files = 0 ∧ o = Ok Returned)
                                  ∨ (size files ≠ 0
                                     ∧ o = Ok (AwaitGather (parse_args ns) files)
                                     ∧ sem_value w' = 10 ∧ pbar_total w' = size files)
                              end
                          end))) as Hend.
  { intros w'' o'' Ht'' Hc'' He'' Hcs'' Henv'' Hst'' Hcase [= <- <-].
    split_and!; [congruence.. | |].
    - intros p n Hp. rewrite Ht''. by apply Hk.
    - right. exists key. split_and!; [done | done | by rewrite Henv'', Henv|].
      exists v2, o2. split_and!; [done | congruence | done]. }
  destruct o2 as [[]|e]; [|eapply Hend; [.. | exact Hrun]; done].
  destruct (stat_error w d) as [e|] eqn:Hstat.
  { rewrite (discover_files_raises _ _ _ e) in Hrun by (cbn; congruence).
    cbn beta iota in Hrun. eapply Hend; [.. | exact Hrun]; done. }
  rewrite discover_files_eq in Hrun by (cbn; congruence). cbn beta iota in Hrun.
  set (w3 := set_stdout _ (set_stdout _ (set_stdout _ (set_stdout _ w2)))) in Hrun.
  set (files := discovered w3 _ _) in Hrun.
  case_decide as Hsize; cbn beta iota in Hrun.
  - eapply Hend; [.. | exact Hrun]; try done. cbn zeta. left. split; [|done].
    erewrite discovered_frame; [exact Hsize | done..].
  - eapply Hend; [.. | exact Hrun]; try done. cbn zeta. right.
    assert (discovered
              (set_pbar "Converting files" 0 (size files)
                 (set_sem_value (λ _ : nat, 10)
                    (set_stdout
                       (λ out : list string,
                          out ++ [nl +:+ "Found " +:+ pretty (size files)
                                    +:+ " files to convert" +:+ nl]) w3)))
              d (format (parse_args ns))
            = files) as ->; [by apply discovered_frame|].
    by split_and!.
Qed.

Lemma main_enter_spec (ns : Namespace) w w' o :
  main_enter ns w = (w', o) →
  calls w' = calls w ∧ os_error w' = os_error w ∧ case_sensitive w' = case_sensitive w
  ∧ keeps w w'
  ∧ ((not_configured (api_key_of w) = true ∧ o = Raise (SystemExit 1)
      ∧ tree w' = tree w ∧ environ w' = environ w)
     ∨ (∃ key, api_key_of w = Some key ∧ not_configured (Some key) = false
          ∧ environ w' = <["DATALAB_API_KEY" := key]> (environ w)
          ∧ ∃ w2 o2,
              makedirs (output (parse_args ns)) w = (w2, o2)
              ∧ tree w' = tree w2
              ∧ match o2 with
                | Raise e => o = Raise e
                | Ok _ =>
                    match stat_error w (PurePath.of_string (input (parse_args ns))) with
                    | Some e => o = Raise (Exception e)
                    | None =>
                        let files :=
                          discovered w' (PurePath.of_string (input (parse_args ns)))
                            (format (parse_args ns)) in
                        (size files = 0 ∧ o = Ok Returned)
                        ∨ (size files ≠ 0 ∧ o = Ok (AwaitGather (parse_args ns) files)
                           ∧ sem_value w' = 10 ∧ pbar_total w' = size files)
                    end
                end)).
Proof. intros Hrun. by apply main_enter_parsed in Hrun as (_ & Hrest). Qed.

(** Nothing [main] does before the batch changes what [stat] refuses. *)
Lemma main_enter_stat cl w w' o :
  main_enter cl w = (w', o) → stat_error w' = stat_error w.
Proof.
  destruct cl as [code shown|ns]; [by intros [= <- _]|].
  intros Hrun. by apply main_enter_parsed in Hrun as (Hst & _).
Qed.

(** [main] gets as far as the batch only with a parsed command line. *)
Lemma main_enter_ok cl w w' s :
  main_enter cl w = (w', Ok s) → ∃ ns, cl = Parsed ns.
Proof. destruct cl as [code shown|ns]; [by intros [=]|]. by exists ns. Qed.

(** The batch begins with the ten permits of the semaphore. *)
Lemma main_enter_permits cl w w' args files :
  main_enter cl w = (w', Ok (AwaitGather args files)) → sem_value w' = 10.
Proof.
  intros Hmain. destruct (main_enter_ok _ _ _ _ Hmain) as [ns ->].
  apply main_enter_spec in Hmain as (_ & _ & _ & _ & [(_ & [=] & _)|Hconf]).
  destruct Hconf as (key & _ & _ & _ & w2 & o2 & _ & _ & Ho2).
  destruct o2 as [[]|e]; [|done].
  destruct (stat_error w _); [done|].
  by destruct Ho2 as [[_ [=]]|(_ & _ & ? & _)].
Qed.

(** ** What [main] prints after the batch *)

(** [w'] is [w] with [lines] printed. *)
Definition printed (w w' : World) (lines : list string) : Prop :=
  w' = set_stdout (λ _, stdout w ++ lines) w.

Lemma printed_nil w : printed w w [].
Proof. unfold printed. destruct w. cbn. by rewrite app_nil_r. Qed.

Lemma printed_trans w1 w2 w3 l1 l2 :
  printed w1 w2 l1 → printed w2 w3 l2 → printed w1 w3 (l1 ++ l2).
Proof.
  unfold printed. intros -> ->. destruct w1. cbn. by rewrite app_assoc.
Qed.

(** [m] prints [lines], and does nothing else. *)
Definition emits (m : M unit) (lines : list string) : Prop :=
  ∀ w, ∃ w', m w = (w', Ok tt) ∧ printed w w' lines.

Lemma emits_ret : emits (ret tt) [].
Proof. intros w. exists w. split; [done | apply printed_nil]. Qed.

Lemma emits_print s : emits (print s) [s].
Proof. intros w. eexists. split; [done|]. by destruct w. Qed.

Lemma emits_bind m k l1 l2 : emits m l1 → emits k l2 → emits (m;; k) (l1 ++ l2).
Proof.
  intros Hm Hk w. destruct (Hm w) as (w1 & Hrun1 & Hp1).
  destruct (Hk w1) as (w2 & Hrun2 & Hp2). exists w2.
  unfold mbind, M_bind, bind. rewrite Hrun1. split; [done | by eapply printed_trans].
Qed.

Lemma emits_print_then s k l : emits k l → emits (print s;; k) (s :: l).
Proof. intros Hk. apply (emits_bind _ _ [s] l); [apply emits_print | done]. Qed.

(** The lines for one failure. *)
Definition failure_lines (failure : string * string) : list string :=
  ["  - " +:+ Str.take 60 failure.1; "    Error: " +:+ Str.take 100 failure.2].

Lemma emits_print_failures shown :
  emits (print_failures shown) (flat_map failure_lines shown).
Proof.
  induction shown as [|[filename error] shown IH]; [apply emits_ret|].
  cbn [print_failures foldr flat_map failure_lines fst snd app].
  by do 2 apply emits_print_then.
Qed.

(** The summary [main] prints for [results]. *)
Definition summary (args : Args) (total : nat) (results : list Result) : list string :=
  let successful := successes results in
  let failed := (λ r, (r.1.2, r.2)) <$> failures results in
  (nl +:+ String.concat EmptyString (replicate 60 "="))
  :: "Conversion Summary:"
  :: ("  Successful: " +:+ pretty (length successful))
  :: ("  Failed: " +:+ pretty (length failed))
  :: ("  Total: " +:+ pretty total)
  :: ("  Markdown files saved to: " +:+ output args)
  :: (if decide (failed ≠ []) then
        (nl +:+ "Failed conversions (first 10):")
        :: (flat_map failure_lines (take 10 failed)
            ++ (if decide (10 < length failed)
                then ["  ... and " +:+ pretty (length failed - 10) +:+ " more failures"]
                else []))
      else []).

Lemma emits_main_resume args files rs :
  emits (main_resume args files rs) (summary args (length files) rs).
Proof.
  unfold main_resume, summary. rewrite !length_fmap.
  apply (emits_bind _ _ []); [apply emits_ret|].
  do 6 apply emits_print_then.
  case_decide; [|apply emits_ret].
  apply emits_print_then, emits_bind; [apply emits_print_failures|].
  case_decide; [apply emits_print | apply emits_ret].
Qed.

(** ** The claims about the batch and its summary *)

Lemma results_of_in_flight b rs : results_of b = Some rs → in_flight b = 0.
Proof.
  intros Hrs. destruct (decide (0 < in_flight b)) as [Hpos|]; [|lia].
  apply in_flight_pos in Hpos as (i & f & Hi).
  apply mapM_Some_1 in Hrs.
  by destruct (Forall2_lookup_l _ _ _ _ _ Hrs Hi) as (r & _ & ?).
Qed.

(** C5.  From the moment [main] has made the semaphore, whatever the order
    in which the event loop runs the jobs, at most ten of them are inside
    [await client.convert]: the permits left and the jobs inside add up to
    ten.  A job takes its permit before the call (with none left it does
    not start), and gives it back when it ends, whatever its result: when
    every job is done all ten permits are back. *)
Theorem at_most_ten_jobs_in_flight ns w w' args files files_to_convert b :
  main_enter ns w = (w', Ok (AwaitGather args files)) →
  reachable args files_to_convert w' b →
  in_flight b ≤ 10
  ∧ sem_value (world b) + in_flight b = 10
  ∧ (sem_value (world b) = 0 → ∀ f, process_file_enter f args (world b) = None)
  ∧ (∀ rs, results_of b = Some rs → sem_value (world b) = 10).
Proof.
  intros Hmain Hr.
  pose proof (main_enter_permits _ _ _ _ _ Hmain) as Hten.
  pose proof (reachable_permits _ _ _ _ Hr) as Hp. rewrite Hten in Hp.
  split_and!; [lia | done | |].
  - intros Hz f. by apply enter_blocked.
  - intros rs Hrs%results_of_in_flight. lia.
Qed.

(** The results by kind. *)
Definition converted (rs : list Result) : list Result :=
  filter (λ r, r.1.1 = true ∧ r.2 = "Converted") rs.
Definition skipped (rs : list Result) : list Result :=
  filter (λ r, r.1.1 = true ∧ r.2 = "Skipped (exists)") rs.

Lemma job_result_kinds rs :
  Forall (λ r, ∃ f, job_result f r) rs →
  length (successes rs) = length (converted rs) + length (skipped rs)
  ∧ length (converted rs) + length (skipped rs) + length (failures rs) = length rs
  ∧ Forall (λ r : Result, Str.len r.2 ≤ 200) (failures rs).
Proof.
  unfold converted, skipped, failures, successes.
  induction 1 as [|r rs (f & Hr) _ (IH1 & IH2 & IH3)]; [done|].
  destruct Hr as [->|[->|[e ->]]];
    repeat match goal with
      | |- context [filter ?P (?x :: ?l)] =>
          first [ rewrite (filter_cons_True P x l) by (repeat split; reflexivity)
                | rewrite (filter_cons_False P x l) by (intros ?; intuition discriminate) ]
      end;
    cbn [length];
    (split_and!;
      [ rewrite ?Nat.add_succ_r; cbn [Nat.add]; first [exact IH1 | f_equal; exact IH1]
      | rewrite ?Nat.add_succ_r; cbn [Nat.add]; first [exact IH2 | f_equal; exact IH2]
      | try exact IH3 ]).
  constructor; [apply take_length | exact IH3].
Qed.

Lemma flat_map_fmap {A B C} (f : A → B) (g : B → list C) (l : list A) :
  flat_map g (f <$> l) = flat_map (g ∘ f) l.
Proof. induction l as [|x l IH]; [done|]. cbn. by rewrite IH. Qed.

(** C7.  After the jobs of a batch are done, the summary [main] prints
    reports as successful the number of converted results plus the number
    of skipped results, as failed the number of failed results, and as
    total the number of files to convert; the three kinds add up to that
    total.  If a job failed, the failures follow: for each of the first
    ten the file name and the message (which [process_file] cut to 200
    characters), cut once more to 60 and 100 characters, and for the ones
    after the tenth only their number. *)
Theorem summary_counts_the_results args files w0 b rs w :
  reachable args files w0 b →
  results_of b = Some rs →
  ∃ w' details,
    main_resume args files rs w = (w', Ok tt)
    ∧ stdout w' =
        stdout w
        ++ [nl +:+ String.concat EmptyString (replicate 60 "=");
            "Conversion Summary:";
            "  Successful: " +:+ pretty (length (converted rs) + length (skipped rs));
            "  Failed: " +:+ pretty (length (failures rs));
            "  Total: " +:+ pretty (length files);
            "  Markdown files saved to: " +:+ output args]
        ++ details
    ∧ details =
        (if decide (failures rs = []) then []
         else [nl +:+ "Failed conversions (first 10):"]
              ++ flat_map (λ r : Result, ["  - " +:+ Str.take 60 r.1.2;
                                          "    Error: " +:+ Str.take 100 r.2])
                          (take 10 (failures rs))
              ++ (if decide (10 < length (failures rs))
                  then ["  ... and " +:+ pretty (length (failures rs) - 10)
                          +:+ " more failures"]
                  else []))
    ∧ length (converted rs) + length (skipped rs) + length (failures rs) = length files
    ∧ Forall (λ r : Result, Str.len r.2 ≤ 200) (failures rs).
Proof.
  intros Hr Hrs.
  pose proof (reachable_jobs_of _ _ _ _ Hr) as Hjobs.
  destruct (results_of_length _ _ _ Hjobs Hrs) as [Hlen Hall].
  assert (Forall (λ r, ∃ f, job_result f r) rs) as Hkinds.
  { apply Forall_lookup. intros i r Hi.
    destruct (files !! i) as [f|] eqn:Hf.
    - destruct (Hall i f Hf) as (r' & Hr' & _ & Hres). exists f. congruence.
    - apply lookup_ge_None in Hf. apply lookup_lt_Some in Hi. lia. }
  apply job_result_kinds in Hkinds as (Hsucc & Hsum & Hcut).
  destruct (emits_main_resume args files rs w) as (w' & Hrun & Hprinted).
  exists w'. eexists. split_and!; [done | | reflexivity | lia | done].
  rewrite Hprinted. cbn [stdout set_stdout]. f_equal. unfold summary.
  rewrite Hsucc, !length_fmap. do 6 f_equal.
  destruct (decide (failures rs = [])) as [Hnil|Hsome].
  - rewrite Hnil. by rewrite decide_False by (by intros ?).
  - rewrite decide_True by (by intros ?%fmap_nil_inv).
    by rewrite <- fmap_take, flat_map_fmap.
Qed.

(** ** Runs of the script *)

Lemma makedirs_raises_exception p w w' e :
  makedirs p w = (w', Raise e) → ∃ msg, e = Exception msg.
Proof. intros Hrun. by apply makedirs_from_spec in Hrun as (_ & _ & _ & ?). Qed.

(** Every start of the script has a run. *)
Lemma main_run_total ns w : ∃ run, main_run ns w run.
Proof.
  destruct (main_enter ns w) as [w' [[|args files]|e]] eqn:Hmain.
  - eexists. by apply run_return.
  - pose proof (main_enter_permits _ _ _ _ _ Hmain) as Hten.
    destruct (decide (checks_return args (elements files) w')) as [Hchecks|Hraises].
    + destruct (completes args (elements files) w' (gather (elements files) w'))
        as (b & rs & Hrtc & Hrs); [apply rtc_refl | lia | done |].
      destruct (emits_main_resume args (elements files) rs (world b)) as (w'' & Hrun & _).
      eexists. by eapply run_gather.
    + apply not_Forall_Exists in Hraises; [|intros f; apply _].
      apply Exists_exists in Hraises as (f & [i Hf]%list_elem_of_lookup_1 & Hstat).
      destruct (stat_error w' (markdown_file_of f args)) as [e|] eqn:He; [|done].
      destruct (enter_raises f args w' e) as (w'' & Hrun & _); [lia | done |].
      eexists. eapply run_job_raises with (i := i); [done | done | apply rtc_refl | | done].
      cbn. by rewrite list_lookup_fmap, Hf.
  - eexists. by apply run_raise.
Qed.

(** How far [main] got when it suspends: the key was in order, the
    output directory is there, and listing the input directory returned
    the files to convert. *)
Lemma main_enter_found (ns : Namespace) w w' s :
  main_enter ns w = (w', Ok s) →
  ∃ wm,
    let args := parse_args ns in
    let d := PurePath.of_string (input args) in
    not_configured (api_key_of w) = false
    ∧ makedirs (output args) w = (wm, Ok tt)
    ∧ stat_error w d = None
    ∧ tree w' = tree wm
    ∧ discovered w' d (format args) = discovered wm d (format args)
    ∧ match s with
      | Returned => size (discovered wm d (format args)) = 0
      | AwaitGather args' files =>
          args' = args ∧ files = discovered wm d (format args) ∧ size files ≠ 0
      end.
Proof.
  intros Hmain.
  apply main_enter_spec in Hmain as (_ & _ & Hcs & _ & [(_ & [=] & _)|Hconf]).
  destruct Hconf as (key & Hkey & Hconf & _ & w2 & o2 & Hmk & Htree & Ho2).
  destruct o2 as [[]|e]; [|done].
  destruct (stat_error w _) eqn:Hd; [done|].
  pose proof Hmk as (Hs & _)%makedirs_from_spec.
  apply same_but_tree_frame in Hs as ((_ & Hcs2 & _) & _).
  assert (discovered w' (PurePath.of_string (input (parse_args ns)))
            (format (parse_args ns))
          = discovered w2 (PurePath.of_string (input (parse_args ns)))
              (format (parse_args ns))) as Hfound
    by (apply discovered_frame; congruence).
  exists w2. cbn zeta. rewrite Hkey. split_and!; [done.. |].
  cbn zeta in Ho2. rewrite Hfound in Ho2.
  destruct Ho2 as [[Hsize [= ->]]|(Hsize & [= ->] & _)]; [done | by split_and!].
Qed.

(** The exit status of a start of the script, read off the world it
    starts in: that of [argparse] where it refuses the command line, 1 for
    a key not in order, 1 where [os.makedirs], the listing of the input
    directory or the check of a job raises, and 0 otherwise. *)
Definition status_of (cl : CommandLine) (w : World) : nat :=
  match cl with
  | Refused code _ => code
  | Parsed ns =>
      let args := parse_args ns in
      let d := PurePath.of_string (input args) in
      let made := makedirs (output args) w in
      if not_configured (api_key_of w) then 1
      else match made.2 with
           | Raise _ => 1
           | Ok _ =>
               if decide (stat_error w d = None
                          ∧ checks_return args
                              (elements (discovered made.1 d (format args))) w)
               then 0 else 1
           end
  end.

Lemma main_run_status cl w run : main_run cl w run → status run = status_of cl w.
Proof.
  intros Hrun. destruct cl as [code shown|ns].
  { destruct Hrun as [w' e Hmain | w' Hmain | w' ??????? Hmain | w' ???????? Hmain];
      try (by apply main_enter_ok in Hmain as [? [=]]).
    by injection Hmain as _ <-. }
  unfold status_of. cbn zeta.
  destruct Hrun as [w' e Hmain | w' Hmain
                   | w' args files fs b rs w'' o Hmain Hperm Hrtc Hres Hsum
                   | w' args files fs b i f w'' e Hmain Hperm Hrtc Hi Henter];
    cbn [status].
  - apply main_enter_spec in Hmain as (_ & _ & _ & _ & Hcase).
    destruct Hcase
      as [(Hconf & Ho & _)|(key & Hkey & Hconf & _ & w2 & o2 & Hmk & _ & Ho2)].
    { rewrite Hconf. by injection Ho as ->. }
    rewrite Hkey, Hconf, Hmk. cbn [fst snd]. destruct o2 as [[]|e2].
    + destruct (stat_error w _) as [msg|] eqn:Hd.
      * injection Ho2 as ->. rewrite decide_False; [done|]. by intros [[=] _].
      * by destruct Ho2 as [[_ [=]]|(_ & [=] & _)].
    + injection Ho2 as ->. by apply makedirs_raises_exception in Hmk as [msg ->].
  - apply main_enter_found in Hmain as (wm & Hconf & Hmk & Hd & _ & _ & Hsize).
    cbn zeta in Hmk, Hd, Hsize. rewrite Hconf, Hmk. cbn [fst snd].
    rewrite decide_True; [done|]. split; [done|].
    apply size_empty_inv, leibniz_equiv in Hsize. rewrite Hsize, elements_empty.
    constructor.
  - pose proof (main_enter_stat _ _ _ _ Hmain) as Hst.
    apply main_enter_found in Hmain as (wm & Hconf & Hmk & Hd & _ & _ & -> & -> & _).
    cbn zeta in Hmk, Hd. rewrite Hconf, Hmk. cbn [fst snd].
    destruct (emits_main_resume (parse_args ns) fs rs (world b)) as (w3 & Hrun3 & _).
    rewrite Hsum in Hrun3. injection Hrun3 as _ ->. cbn [exit_status].
    rewrite decide_True; [done|]. split; [done|].
    apply Forall_forall. intros f Hf.
    destruct (stat_error w (markdown_file_of f (parse_args ns))) as [e|] eqn:He; [|done].
    rewrite <- Hperm in Hf. apply list_elem_of_lookup_1 in Hf as [i Hf].
    rewrite <- Hst in He.
    pose proof (reachable_stuck _ _ _ _ _ _ _ Hrtc Hf He) as Hstuck.
    pose proof (reachable_jobs_of _ _ _ _ Hrtc) as Hjobs.
    destruct (results_of_length _ _ _ Hjobs Hres) as [_ Hall].
    destruct (Hall i f Hf) as (r & _ & Hdone & _). congruence.
  - pose proof (main_enter_stat _ _ _ _ Hmain) as Hst.
    apply main_enter_found in Hmain as (wm & Hconf & Hmk & Hd & _ & _ & -> & -> & _).
    cbn zeta in Hmk, Hd. rewrite Hconf, Hmk. cbn [fst snd].
    pose proof (reachable_jobs_of _ _ _ _ Hrtc) as Hjobs.
    destruct (reachable_frame _ _ _ _ Hrtc) as (_ & _ & _ & _ & _ & Hstat).
    apply enter_spec in Henter as (_ & _ & _ & [(? & _)|[(? & _)|(msg & [= ->] & He & _)]]);
      [done.. |].
    cbn [exit_status]. rewrite decide_False; [done|]. intros [_ Hchecks].
    assert (f ∈ fs) as Hf
      by (eapply list_elem_of_lookup_2, jobs_of_file; eauto).
    rewrite Hperm in Hf. eapply Forall_forall in Hchecks; [|done]. congruence.
Qed.

(** A command line [argparse] refuses ends the script before anything
    else is done. *)
Lemma main_run_refused code shown w run :
  main_run (Refused code shown) w run →
  run = mkRun code [] (set_stdout (λ out, out ++ shown) w).
Proof.
  intros [w' e Hmain | w' Hmain | w' ??????? Hmain | w' ???????? Hmain];
    try (by apply main_enter_ok in Hmain as [? [=]]).
  by injection Hmain as <- <-.
Qed.



(** C10.  The key check rejects a key that is missing, empty, or the
    literal [your_api_key_here], and nothing else: [main] leaves with
    [sys.exit(1)] exactly for these.  Any other value, the
    [your_actual_api_key_here] of the help text among them, is taken as
    the key: it is stored in [DATALAB_API_KEY] and [main] goes on. *)
Theorem only_the_placeholder_is_rejected :
  (∀ api_key,
     not_configured api_key = true ↔
     api_key = None ∨ api_key = Some EmptyString ∨ api_key = Some "your_api_key_here")
  ∧ not_configured (Some "your_actual_api_key_here") = false
  ∧ ∀ (ns : Namespace) w w' o,
      main_enter ns w = (w', o) →
      (o = Raise (SystemExit 1) ↔ not_configured (api_key_of w) = true)
      ∧ (not_configured (api_key_of w) = false →
           environ w' !! "DATALAB_API_KEY" = api_key_of w).
Proof.
  split_and!.
  - intros [key|]; cbn.
    + destruct key as [|c key]; [by split; auto|].
      rewrite bool_decide_eq_true, !elem_of_cons, elem_of_nil.
      split; [intros [->|[[=]|[]]]; auto | intros [[=]|[[=]|[= -> ->]]]; auto].
    + by split; auto.
  - done.
  - intros ns w w' o Hmain.
    apply main_enter_spec in Hmain as (_ & _ & _ & _ & Hcase).
    destruct Hcase as [(Hconf & -> & _)|(key & Hkey & Hconf & Henv & w2 & o2 & Hmk & _ & Ho2)].
    + split; [done | congruence].
    + rewrite Hkey, Hconf, Henv, lookup_insert_eq. split; [|done].
      split; [|done]. intros ->. destruct o2 as [[]|e2].
      * destruct (stat_error w _); [done|].
        by destruct Ho2 as [[_ [=]]|(_ & [=] & _)].
      * injection Ho2 as <-. by apply makedirs_raises_exception in Hmk as [msg [=]].
Qed.

(** ** Components of paths *)

(** A string with no slash in it: what a directory entry is called. *)
Fixpoint no_slash (s : string) : bool :=
  match s with
  | EmptyString => true
  | String c s' => negb (Ascii.eqb c "/"%char) && no_slash s'
  end.

(** A component as [Path(...)] keeps it. *)
Definition component (x : string) : Prop :=
  no_slash x = true ∧ x ≠ EmptyString ∧ x ≠ ".".

Lemma no_slash_app a b : no_slash (a +:+ b) = no_slash a && no_slash b.
Proof.
  induction a as [|c a IH]; [done|].
  simpl. by rewrite IH, andb_assoc.
Qed.

Lemma no_slash_take n s : no_slash s = true → no_slash (Str.take n s) = true.
Proof.
  revert n. induction s as [|c s IH]; intros n; [done|].
  cbn [no_slash Str.take]. intros [Hc Hs]%andb_true_iff.
  destruct (Str.continuation c); [|destruct n as [|n]; [done|]];
    cbn [no_slash]; rewrite Hc; by apply IH.
Qed.

Lemma length_app a b : String.length (a +:+ b) = String.length a + String.length b.
Proof.
  induction a as [|c a IH]; [done|]. simpl. by rewrite IH.
Qed.

Lemma split_slash_no_slash s : Forall (λ x, no_slash x = true) (Str.split_slash s).
Proof.
  induction s as [|c s IH]; cbn [Str.split_slash]; [by repeat constructor|].
  destruct (Ascii.eqb c "/") eqn:Hc; [by constructor|].
  destruct (Str.split_slash s) as [|h t]; [repeat constructor; cbn; by rewrite Hc|].
  apply Forall_cons in IH as [Hh Ht]. constructor; [|done]. cbn. by rewrite Hc.
Qed.

Lemma split_slash_single s : no_slash s = true → Str.split_slash s = [s].
Proof.
  induction s as [|c s IH]; [done|]. cbn.
  intros [Hc%negb_true_iff Hs]%andb_true_iff. by rewrite Hc, IH.
Qed.

Lemma splitroot_relative c s :
  Ascii.eqb c "/" = false → PurePath.splitroot (String c s) = (EmptyString, String c s).
Proof. by destruct c as [[] [] [] [] [] [] [] []]. Qed.

Lemma splitroot_no_slash s :
  Forall (λ x, no_slash x = true) (Str.split_slash (PurePath.splitroot s).2).
Proof.
  unfold PurePath.splitroot.
  repeat match goal with
         | |- context [match ?x with _ => _ end] => destruct x
         end; apply split_slash_no_slash.
Qed.

(** The parts of a parsed path are components. *)
Lemma of_string_parts s : Forall component (parts (PurePath.of_string s)).
Proof.
  unfold PurePath.of_string.
  pose proof (splitroot_no_slash s) as Hall.
  destruct (PurePath.splitroot s) as [r rel]. cbn [parts snd] in *.
  apply Forall_forall. intros x [[Hne Hdot] Hx]%list_elem_of_filter.
  split; [|done]. by eapply Forall_forall in Hall.
Qed.

(** A component parses to itself. *)
Lemma of_string_component x :
  component x → PurePath.of_string x = mkPath EmptyString [x].
Proof.
  intros (Hslash & Hne & Hdot). unfold PurePath.of_string.
  destruct x as [|c x]; [done|].
  pose proof Hslash as [Hc%negb_true_iff _]%andb_true_iff.
  rewrite splitroot_relative by done. rewrite split_slash_single by done.
  rewrite filter_cons_True by done. done.
Qed.

Lemma joinpath_component p x : component x → p // x = child p x.
Proof.
  intros Hx. unfold PurePath.joinpath. rewrite of_string_component by done.
  by rewrite decide_True.
Qed.

Lemma parent_child p x : PurePath.parent (child p x) = p.
Proof. destruct p as [r ps]. unfold PurePath.parent, child. cbn. by rewrite removelast_last. Qed.

Lemma name_child p x : PurePath.name (child p x) = x.
Proof. unfold PurePath.name, child. cbn. by rewrite last_snoc. Qed.

Lemma name_component p :
  Forall component (parts p) → PurePath.name p ≠ EmptyString → component (PurePath.name p).
Proof.
  unfold PurePath.name. intros Hall Hne.
  destruct (last (parts p)) as [x|] eqn:Hlast; [|done].
  apply last_Some_elem_of in Hlast. by eapply Forall_forall in Hall.
Qed.

(** A name with something put after it is still a component. *)
Lemma component_app x suffix :
  no_slash x = true → no_slash suffix = true → 2 ≤ String.length suffix →
  component (x +:+ suffix).
Proof.
  intros Hx Hs Hlen. split_and!.
  - by rewrite no_slash_app, Hx, Hs.
  - intros Heq. apply (f_equal String.length) in Heq. rewrite length_app in Heq.
    cbn in Heq. lia.
  - intros Heq. apply (f_equal String.length) in Heq. rewrite length_app in Heq.
    cbn in Heq. lia.
Qed.

(** C9, as the code has it.  When [-o] is missing or empty and the input
    path has a last component, the output path is the input path with
    [_Markdown] put after that component: the same parent path, that
    name.  This is a relation of paths as they are written: for the input
    [/data/docs] the default is [/data/docs_Markdown], the sibling named
    after the directory, and for [..] and [a/..], whose last component is
    [..], it is [.._Markdown] and [a/.._Markdown], which is no sibling of
    the directory the input denotes.  When the input path has no last
    component (the root, or the current directory) the output directory is
    the directory [Markdown] inside the input directory.  An output
    directory that is given is kept. *)
Theorem default_output_is_sibling_or_child (ns : Namespace) :
  let input_path := PurePath.of_string (ns_input ns) in
  (not_given (ns_output ns) = true →
   PurePath.name input_path ≠ EmptyString →
   ∃ out, output (parse_args ns) = PurePath.to_string out
          ∧ PurePath.parent out = PurePath.parent input_path
          ∧ PurePath.name out = PurePath.name input_path +:+ "_Markdown")
  ∧ (not_given (ns_output ns) = true →
     PurePath.name input_path = EmptyString →
     ∃ out, output (parse_args ns) = PurePath.to_string out
            ∧ PurePath.parent out = input_path
            ∧ PurePath.name out = "Markdown")
  ∧ (∀ dir, ns_output ns = Some dir → dir ≠ EmptyString → output (parse_args ns) = dir)
  ∧ output (parse_args (mkNamespace "/data/docs" None (ns_format ns)))
    = "/data/docs_Markdown"
  ∧ output (parse_args (mkNamespace ".." None (ns_format ns))) = ".._Markdown"
  ∧ output (parse_args (mkNamespace "a/.." None (ns_format ns))) = "a/.._Markdown".
Proof.
  cbn zeta. split_and!.
  - intros Hnot Hname. unfold parse_args. cbn [output]. rewrite Hnot.
    rewrite decide_True by done.
    assert (component (PurePath.name (PurePath.of_string (ns_input ns)) +:+ "_Markdown"))
      as Hcomp.
    { apply component_app; [|done | cbn; lia].
      apply name_component; [apply of_string_parts | done]. }
    rewrite joinpath_component by done.
    eexists. split; [done|]. split; [|apply name_child].
    rewrite parent_child. done.
  - intros Hnot Hname. unfold parse_args. cbn [output]. rewrite Hnot.
    rewrite decide_False by (by intros ?).
    rewrite joinpath_component by done.
    eexists. split; [done|]. split; [apply parent_child | apply name_child].
  - intros dir Hdir Hne. unfold parse_args. cbn [output]. rewrite Hdir.
    by destruct dir.
  - done.
  - done.
  - done.
Qed.

(** ** The statements at work *)

Lemma main_enter_example :
  main_enter Example.cli Example.posix
  = ((main_enter Example.cli Example.posix).1,
     Ok (AwaitGather Example.to_out
           {[ Example.at_ "/in/a.pdf"; Example.at_ "/in/B.PDF"; Example.at_ "/in/c.epub" ]})).
Proof.
  rewrite (surjective_pairing (main_enter Example.cli Example.posix)) at 1.
  f_equal; vm_compute; reflexivity.
Qed.

Lemma at_most_ten_jobs_in_flight_witness :
  in_flight (gather [Example.at_ "/in/B.PDF"; Example.at_ "/in/c.epub"]
               (main_enter Example.cli Example.posix).1) ≤ 10.
Proof.
  eapply (at_most_ten_jobs_in_flight Example.cli Example.posix).
  - apply main_enter_example.
  - apply rtc_refl.
Defined.

Lemma summary_counts_the_results_witness :
  ∃ w', main_resume Example.to_out [Example.at_ "/in/a.pdf"]
          [skipped_result (Example.at_ "/in/a.pdf")] Example.posix = (w', Ok tt)
        ∧ stdout w' !! 2 = Some "  Successful: 1"
        ∧ stdout w' !! 3 = Some "  Failed: 0"
        ∧ stdout w' !! 4 = Some "  Total: 1".
Proof.
  destruct (enter_exists (Example.at_ "/in/a.pdf") Example.to_out Example.posix)
    as (w1 & Henter & _); [cbn; lia | vm_compute; by eexists | done |].
  destruct (summary_counts_the_results Example.to_out [Example.at_ "/in/a.pdf"]
              Example.posix
              {| world := w1;
                 tasks := <[0 := Done (skipped_result (Example.at_ "/in/a.pdf"))]>
                            (tasks (gather [Example.at_ "/in/a.pdf"] Example.posix)) |}
              [skipped_result (Example.at_ "/in/a.pdf")] Example.posix)
    as (w' & details & Hrun & Hout & _).
  - apply rtc_once.
    eapply (step_enter _ _ 0 (Example.at_ "/in/a.pdf")); [reflexivity | exact Henter].
  - reflexivity.
  - exists w'. split; [done|]. rewrite Hout. by vm_compute.
Defined.



Lemma default_output_is_sibling_or_child_witness :
  ∃ out, output (parse_args (mkNamespace "/data/docs/" (Some EmptyString) pdf))
         = PurePath.to_string out
         ∧ PurePath.parent out = Example.at_ "/data"
         ∧ PurePath.name out = "docs_Markdown".
Proof.
  apply (proj1 (default_output_is_sibling_or_child
                  (mkNamespace "/data/docs/" (Some EmptyString) pdf))); done.
Defined.

(** C9 as the specification words it fails for an input path without a name: for
    the current directory the default is [Markdown] inside it, not a
    sibling called [_Markdown]. *)
Lemma default_output_of_the_current_directory :
  ¬ (∀ ns, ns_output ns = None →
       ∃ out, output (parse_args ns) = PurePath.to_string out
              ∧ PurePath.parent out = PurePath.parent (PurePath.of_string (ns_input ns))
              ∧ PurePath.name out
                = PurePath.name (PurePath.of_string (ns_input ns)) +:+ "_Markdown").
Proof.
  intros Hclaim.
  destruct (Hclaim (mkNamespace "." None pdf) eq_refl) as ([r ps] & Hout & Hparent & Hname).
  unfold PurePath.parent in Hparent. cbn in Hparent. injection Hparent as -> Hps.
  unfold PurePath.name in Hname. cbn in Hname.
  destruct (last ps) as [x|] eqn:Hlast; [|done]. cbn in Hname. subst x.
  apply last_Some in Hlast as [ps' ->]. rewrite removelast_last in Hps. subst ps'.
  done.
Qed.

Lemma only_the_placeholder_is_rejected_witness :
  environ (main_enter Example.cli Example.posix).1 !! "DATALAB_API_KEY"
  = Some "sk-live-0123".
Proof.
  destruct only_the_placeholder_is_rejected as (_ & _ & Hmain).
  destruct (Hmain Example.cli Example.posix _ _ main_enter_example) as [_ Henv].
  rewrite Henv; by vm_compute.
Defined.

(** ** Starting the script again *)

Fixpoint last_char (s : string) : option ascii :=
  match s with
  | EmptyString => None
  | String c s' =>
      match last_char s' with
      | Some d => Some d
      | None => Some c
      end
  end.

Lemma last_char_app s t : t ≠ EmptyString → last_char (s +:+ t) = last_char t.
Proof.
  intros Ht. induction s as [|c s IH]; [done|]. simpl. rewrite IH.
  destruct t as [|d t]; [done|]. simpl. by destruct (last_char t).
Qed.

Lemma endswith_last_char s suffix :
  Str.endswith s suffix = true → suffix ≠ EmptyString → last_char s = last_char suffix.
Proof. intros [before ->]%endswith_spec Hne. by apply last_char_app. Qed.

Lemma not_endswith s suffix :
  last_char s ≠ last_char suffix → suffix ≠ EmptyString → Str.endswith s suffix = false.
Proof.
  intros Hne Hsuffix. destruct (Str.endswith s suffix) eqn:Hends; [|done].
  by apply endswith_last_char in Hends.
Qed.

Lemma lower_app a b : Str.lower (a +:+ b) = Str.lower a +:+ Str.lower b.
Proof.
  unfold Str.lower. induction a as [|c a IH]; [done|]. simpl. by rewrite IH.
Qed.

(** No glob of the script matches a name that ends with [.md]. *)
Lemma markdown_never_matches w x ext fmt :
  ext ∈ extensions_of fmt → matches_extension w (x +:+ ".md") ext = false.
Proof.
  intros Hext.
  assert (∀ s, last_char s = Some "d"%char →
            Str.endswith s ext = false ∧ Str.endswith s (Str.upper ext) = false)
    as Hlast.
  { intros s Hs.
    destruct fmt; repeat (apply elem_of_cons in Hext as [->|Hext]);
      try (by apply elem_of_nil in Hext);
      (split; (apply not_endswith; [by rewrite Hs | done])). }
  unfold matches_extension. destruct (case_sensitive w).
  - destruct (Hlast (x +:+ ".md")) as [-> ->]; [by apply last_char_app | done].
  - rewrite lower_app.
    destruct (Hlast (Str.lower x +:+ ".md")) as [Hmd _]; [by apply last_char_app|].
    exact Hmd.
Qed.

(** Every part of every path of the tree is the name of a directory
    entry: there is no slash in it. *)
Definition slash_free (w : World) : Prop :=
  ∀ p, is_Some (tree w !! p) → Forall (λ x, no_slash x = true) (parts p).

Lemma stem_no_slash f :
  no_slash (PurePath.name f) = true → no_slash (PurePath.stem f) = true.
Proof.
  intros Hname. unfold PurePath.stem.
  destruct (Str.rfind_dot _) as [i|]; [|done].
  case_decide; [by apply no_slash_take | done].
Qed.

(** The output of a file with a plain name lies in the output directory
    itself. *)
Lemma markdown_file_child f args :
  no_slash (PurePath.name f) = true →
  markdown_file_of f args
  = child (PurePath.of_string (output args)) (PurePath.stem f +:+ ".md").
Proof.
  intros Hname. unfold markdown_file_of. apply joinpath_component.
  apply component_app; [by apply stem_no_slash | done | cbn; lia].
Qed.

Lemma discovered_name w d fmt f :
  slash_free w → f ∈ discovered w d fmt → no_slash (PurePath.name f) = true.
Proof.
  intros Hwf (_ & n & -> & Hin & _)%elem_of_discovered.
  rewrite name_child. apply Hwf in Hin. cbn in Hin.
  by apply Forall_app in Hin as [_ [? _]%Forall_cons].
Qed.

Section Again.

Context (args : Args) (d : Path) (fmt : Format) (fs : list Path) (w1 : World) (b : Batch).

Local Abbreviation outp := (PurePath.of_string (output args)).

Hypothesis slash_free_w1 : slash_free w1.
Hypothesis output_made :
  ∀ p, on_the_way (root outp) [] (parts outp) p → tree w1 !! p = Some Dir.
Hypothesis files_discovered : ∀ f, f ∈ fs → f ∈ discovered w1 d fmt.
Hypothesis batch : reachable args fs w1 b.

(** What the batch added to the tree are output files, in the output
    directory. *)
Lemma batch_adds_outputs p n :
  tree (world b) !! p = Some n → tree w1 !! p = None →
  ∃ x text, p = child outp (x +:+ ".md") ∧ n = File text.
Proof.
  intros Hp Hnone.
  destruct (reachable_new _ _ _ _ batch p n Hp Hnone) as (f & Hf & Hcase).
  pose proof (discovered_name _ _ _ _ slash_free_w1 (files_discovered f Hf)) as Hname.
  rewrite (markdown_file_child f args Hname) in Hcase.
  destruct Hcase as [[-> [text ->]]|[-> Hway]]; [eauto|].
  rewrite parent_child in Hway. cbn [root child] in Hway.
  apply output_made in Hway. congruence.
Qed.

(** After the batch, discovery finds what it found before. *)
Lemma discovered_after v :
  tree v = tree (world b) → case_sensitive v = case_sensitive w1 →
  discovered v d fmt = discovered w1 d fmt.
Proof.
  intros Htree Hcase. pose proof (reachable_extends _ _ _ _ batch) as Hext.
  apply set_eq. intros p. rewrite !elem_of_discovered.
  unfold matches_extension, is_dir, lookup_node. rewrite Hcase, Htree. split.
  - intros (Hd & n & -> & [node Hin] & ext & Hext' & Hm). split_and!.
    + destruct (parts d) as [|x l] eqn:Hparts; [done|].
      apply bool_decide_eq_true in Hd. apply bool_decide_eq_true.
      destruct (tree w1 !! d) as [n1|] eqn:H1.
      * destruct (Hext d n1 H1) as (n2 & H2 & Hkind). rewrite Hd in H2.
        injection H2 as <-. by destruct n1.
      * by destruct (batch_adds_outputs d Dir Hd H1) as (? & ? & _ & [=]).
    + exists n. split_and!; [done | | by exists ext].
      destruct (tree w1 !! child d n) as [n1|] eqn:H1; [done|].
      destruct (batch_adds_outputs _ _ Hin H1) as (x & text & [= _ Heq] & _).
      apply app_inj_tail in Heq as [_ ->].
      pose proof (markdown_never_matches (mkWorld ∅ (λ _, None) (λ _, None) (case_sensitive w1)
                    ∅ [] 0 EmptyString 0 0 []) x ext fmt Hext') as Hno.
      unfold matches_extension in Hno. cbn [case_sensitive] in Hno. congruence.
  - intros (Hd & n & -> & [node Hin] & ext & Hext' & Hm). split_and!.
    + destruct (parts d) as [|x l] eqn:Hparts; [done|].
      apply bool_decide_eq_true in Hd. apply bool_decide_eq_true.
      destruct (Hext d Dir Hd) as ([] & H2 & Hkind); done.
    + exists n. split_and!; [done | | by exists ext].
      destruct (Hext _ _ Hin) as (n2 & -> & _). done.
Qed.

End Again.

(** The world the script is started in again after a run that began in
    [w] and ended in [w1]: the files as that run left them and the log of
    calls going on, everything else as at the first start. *)
Definition restart (w w1 : World) : World :=
  set_calls (λ _, calls w1) (set_tree (λ _, tree w1) w).

(** A run that ends with status 0, looked at from its end. *)
Lemma main_run_ok (ns : Namespace) w run :
  main_run ns w run → status run = 0 →
  ∃ w1 wm,
    let args := parse_args ns in
    let outp := PurePath.of_string (output args) in
    let found := discovered w1 (PurePath.of_string (input args)) (format args) in
    not_configured (api_key_of w) = false
    ∧ makedirs (output args) w = (wm, Ok tt) ∧ tree w1 = tree wm
    ∧ calls w1 = calls w ∧ case_sensitive w1 = case_sensitive w
    ∧ ((size found = 0 ∧ results run = [] ∧ final run = w1)
       ∨ (size found ≠ 0
          ∧ ∃ fs b, fs ≡ₚ elements found ∧ reachable args fs w1 b
                    ∧ results_of b = Some (results run)
                    ∧ tree (final run) = tree (world b)
                    ∧ calls (final run) = calls (world b))).
Proof.
  intros Hrun Hzero.
  destruct Hrun as [w' e Hmain | w' Hmain
                   | w' args files fs b rs w'' o Hmain Hperm Hb Hrs Hsum
                   | w' args files fs b i f w'' e Hmain Hperm Hb Hi Henter];
    cbn [status results final] in *.
  - exfalso. apply main_enter_spec in Hmain as (_ & _ & _ & _ & Hcase).
    destruct Hcase as [(_ & [= ->] & _)|(key & _ & _ & _ & wm & o2 & Hmk & _ & Ho2)];
      [done|].
    destruct o2 as [[]|e2].
    + destruct (stat_error w _); [by injection Ho2 as ->|].
      by destruct Ho2 as [[_ [=]]|(_ & [=] & _)].
    + injection Ho2 as ->. by apply makedirs_raises_exception in Hmk as [msg ->].
  - pose proof (main_enter_spec _ _ _ _ Hmain) as (Hcalls & _ & Hcs & _).
    apply main_enter_found in Hmain as (wm & Hconf & Hmk & _ & Htree & Hfound & Hsize).
    exists w', wm. cbn zeta in *. split_and!; [done..|]. left. by rewrite Hfound.
  - pose proof (main_enter_spec _ _ _ _ Hmain) as (Hcalls & _ & Hcs & _).
    apply main_enter_found
      in Hmain as (wm & Hconf & Hmk & _ & Htree & Hfound & -> & -> & Hsize).
    exists w', wm. cbn zeta in *. split_and!; [done..|]. right. rewrite Hfound.
    split; [done|]. exists fs, b. split_and!; [done..| |];
      destruct (emits_main_resume (parse_args ns) fs rs (world b)) as (w3 & Hrun3 & Hp);
      rewrite Hsum in Hrun3; injection Hrun3 as -> _; by rewrite Hp.
  - exfalso.
    by apply enter_spec
      in Henter as (_ & _ & _ & [(? & _)|[(? & _)|(msg & [= ->] & _)]]).
Qed.

(** A run that ends with status 0 met no check that raises, and a start
    that meets none ends with status 0. *)
Lemma status_of_zero (ns : Namespace) w :
  status_of ns w = 0 ↔
  not_configured (api_key_of w) = false
  ∧ ∃ wm, makedirs (output (parse_args ns)) w = (wm, Ok tt)
          ∧ stat_error w (PurePath.of_string (input (parse_args ns))) = None
          ∧ checks_return (parse_args ns)
              (elements (discovered wm (PurePath.of_string (input (parse_args ns)))
                           (format (parse_args ns)))) w.
Proof.
  unfold status_of. cbn zeta.
  destruct (makedirs (output (parse_args ns)) w) as [wm o] eqn:Hmk. cbn [fst snd].
  split.
  - destruct (not_configured (api_key_of w)); [done|]. destruct o as [[]|e]; [|done].
    case_decide as Hchecks; [|done]. intros _. split; [done|]. exists wm.
    destruct Hchecks. by split_and!.
  - intros (-> & wm' & [= <- ->] & Hd & Hchecks). by rewrite decide_True.
Qed.

Lemma size_zero_empty (X : gset Path) : size X = 0 → ∀ f, f ∉ X.
Proof. intros ->%size_empty_inv%leibniz_equiv. apply not_elem_of_empty. Qed.

(** C6.  Let a run of the script end with status 0 and a success for every
    job, and let the script be started again on the same command line,
    with the files as that run left them (the paths of the tree being
    made of names without a slash, as those of a file system are).  Then
    the second run has as many jobs as the first, reports every one of
    them as skipped, issues no call to the conversion service, and ends
    with status 0. *)
Theorem second_run_skips_every_job (cl : CommandLine) w run1 run2 :
  slash_free w →
  main_run cl w run1 →
  status run1 = 0 →
  Forall (λ r : Result, r.1.1 = true) (results run1) →
  main_run cl (restart w (final run1)) run2 →
  status run2 = 0
  ∧ length (results run2) = length (results run1)
  ∧ Forall (λ r : Result, r.1.1 = true ∧ r.2 = "Skipped (exists)") (results run2)
  ∧ calls (final run2) = calls (final run1).
Proof.
  intros Hwf Hrun1 Hzero1 Hall Hrun2. destruct cl as [code shown|ns].
  { apply main_run_refused in Hrun1 as ->. apply main_run_refused in Hrun2 as ->.
    cbn in *. split_and!; [done | done | constructor | done]. }
  set (args := parse_args ns). set (outp := PurePath.of_string (output args)).
  set (d := PurePath.of_string (input args)).
  destruct (main_run_ok _ _ _ Hrun1 Hzero1)
    as (w1 & wm & Hconf & Hmk & Htree1 & Hcalls1 & Hcs1 & Hcase1).
  cbn zeta in Hcase1. fold args d in Hcase1. fold args outp in Hmk.
  (* the first run met no check that raises *)
  pose proof (main_run_status _ _ _ Hrun1) as Hst1. rewrite Hzero1 in Hst1.
  symmetry in Hst1. apply status_of_zero in Hst1 as (_ & wm0 & Hmk0 & Hd & Hchecks).
  fold args d in Hmk0, Hd, Hchecks. rewrite Hmk in Hmk0. injection Hmk0 as <-.
  pose proof (makedirs_from_spec _ _ _ _ _ _ _ Hmk) as (Hsb & Hkeep & Hnew & Hmade).
  apply same_but_tree_frame in Hsb as ((_ & Hcsm & _) & _).
  rewrite (discovered_frame wm w1) in Hchecks by congruence.
  set (found := discovered w1 d (format args)) in *.
  (* the output directory is in place after the first run's start *)
  assert (∀ p, on_the_way (root outp) [] (parts outp) p → tree w1 !! p = Some Dir)
    as Hout1 by (intros p Hp; rewrite Htree1; by apply Hmade).
  assert (slash_free w1) as Hwf1.
  { intros p [n Hp]. rewrite Htree1 in Hp.
    destruct (Hnew p n Hp) as [Hold|[_ (k & _ & ->)]]; [by apply Hwf; eexists|].
    cbn. apply Forall_take. eapply Forall_impl; [apply of_string_parts|].
    by intros x (? & _). }
  (* what the first run leaves behind *)
  assert (extends w1 (final run1)
          ∧ (∀ v, tree v = tree (final run1) → case_sensitive v = case_sensitive w1 →
                  discovered v d (format args) = found)
          ∧ (∀ f, f ∈ found → is_Some (lookup_node (final run1) (markdown_file_of f args)))
          ∧ length (results run1) = size found) as (Hext1 & Hsame & Hthere & Hlen1).
  { destruct Hcase1 as [(Hsize & Hres & ->)|(Hsize & fs & b & Hperm & Hb & Hrs & Htree & _)].
    - split_and!; [apply extends_refl | by intros; apply discovered_frame | |].
      + intros f Hf. by apply size_zero_empty in Hf.
      + by rewrite Hres, Hsize.
    - assert (∀ f, f ∈ fs → f ∈ found) as Hfs.
      { intros f Hf. apply elem_of_elements. by rewrite <- Hperm. }
      pose proof (reachable_jobs_of _ _ _ _ Hb) as Hjobs.
      destruct (results_of_length _ _ _ Hjobs Hrs) as [Hlen Hres].
      split_and!.
      + intros p n Hp. rewrite Htree. by apply (reachable_extends _ _ _ _ Hb).
      + intros v Hv Hc. eapply discovered_after; eauto. congruence.
      + intros f Hf. apply elem_of_elements in Hf. rewrite <- Hperm in Hf.
        apply list_elem_of_lookup_1 in Hf as [i Hi].
        destruct (Hres i f Hi) as (r & Hr & Hdone & _).
        assert (r.1.1 = true) as Hsucc.
        { eapply Forall_forall in Hall; [exact Hall|]. by eapply list_elem_of_lookup_2. }
        pose proof (reachable_success _ _ _ _ Hb i f r Hi Hdone Hsucc) as Hex.
        unfold lookup_node in *. by rewrite Htree.
      + by rewrite Hlen, Hperm. }
  (* the second start finds the output directory made and the same files *)
  set (w2 := restart w (final run1)) in *.
  assert (makedirs (output args) w2 = (w2, Ok tt)) as Hmk2.
  { apply makedirs_from_present. intros p Hp.
    destruct (Hext1 p Dir (Hout1 p Hp)) as ([] & Hp2 & Hk); done. }
  assert (api_key_of w2 = api_key_of w) as Hkey2 by done.
  assert (status run2 = 0) as Hzero2.
  { rewrite (main_run_status _ _ _ Hrun2). apply status_of_zero.
    split; [by rewrite Hkey2|]. exists w2. fold args d. split_and!; [done | done |].
    rewrite (Hsame w2) by (done || by rewrite Hcs1). exact Hchecks. }
  destruct (main_run_ok _ _ _ Hrun2 Hzero2)
    as (w1' & wm' & _ & Hmk' & Htree' & Hcalls' & Hcs' & Hcase2).
  cbn zeta in Hcase2. fold args d in Hcase2. fold args outp in Hmk'.
  rewrite Hmk2 in Hmk'. injection Hmk' as <-.
  assert (discovered w1' d (format args) = found) as Hfound2.
  { apply Hsame; [by rewrite Htree' | by rewrite Hcs', Hcs1]. }
  rewrite Hfound2 in Hcase2.
  assert (∀ f, f ∈ found → is_Some (lookup_node w1' (markdown_file_of f args))) as Hthere2.
  { intros f Hf. specialize (Hthere f Hf). unfold lookup_node in *. by rewrite Htree'. }
  split; [done|].
  destruct Hcase2 as [(Hsize & -> & ->)|(Hsize & fs & b & Hperm & Hb & Hrs & Htree & Hcalls)].
  - split_and!; [by rewrite Hlen1, Hsize | done | by rewrite Hcalls'].
  - assert (∀ f, f ∈ fs → f ∈ found) as Hfs.
    { intros f Hf. apply elem_of_elements. by rewrite <- Hperm. }
    pose proof (reachable_jobs_of _ _ _ _ Hb) as Hjobs.
    destruct (results_of_length _ _ _ Hjobs Hrs) as [Hlen Hres].
    split_and!.
    + by rewrite Hlen, Hlen1, Hperm.
    + apply Forall_lookup. intros i r Hr.
      destruct (fs !! i) as [f|] eqn:Hf.
      2:{ apply lookup_ge_None in Hf. apply lookup_lt_Some in Hr. lia. }
      destruct (Hres i f Hf) as (r' & Hr' & Hdone & _).
      assert (r' = r) as -> by congruence.
      destruct (reachable_skips _ _ _ _ i f Hb Hf) as [Hwait|Hskip];
        [apply Hthere2, Hfs; by eapply list_elem_of_lookup_2 | congruence |].
      rewrite Hdone in Hskip. by injection Hskip as ->.
    + rewrite Hcalls.
      destruct (reachable_calls _ _ _ _ Hb) as (l & -> & Hl).
      destruct l as [|s l]; [by rewrite app_nil_r, Hcalls'|].
      apply Forall_cons in Hl as [(f & Hf & _ & Hnone) _].
      destruct (Hthere2 f (Hfs f Hf)) as [n Hn]. congruence.
Qed.

Lemma slash_free_example : slash_free Example.posix.
Proof.
  intros p Hp%elem_of_dom%elem_of_elements. vm_compute in Hp.
  repeat (apply elem_of_cons in Hp as [->|Hp]; [by repeat constructor|]).
  by apply elem_of_nil in Hp.
Qed.

Lemma second_run_skips_every_job_witness :
  ∃ run1 run2,
    main_run Example.cli_epub Example.posix run1
    ∧ results run1 = [converted_result (Example.at_ "/in/c.epub")]
    ∧ main_run Example.cli_epub (restart Example.posix (final run1)) run2
    ∧ length (results run2) = 1
    ∧ Forall (λ r : Result, r.1.1 = true ∧ r.2 = "Skipped (exists)") (results run2)
    ∧ calls (final run2) = calls (final run1).
Proof.
  set (f := Example.at_ "/in/c.epub").
  set (args := parse_args Example.cli_epub).
  set (w1 := (main_enter Example.cli_epub Example.posix).1).
  assert (main_enter Example.cli_epub Example.posix
          = (w1, Ok (AwaitGather args {[ f ]}))) as Hmain.
  { unfold w1. rewrite (surjective_pairing (main_enter _ _)) at 1.
    f_equal; vm_compute; reflexivity. }
  (* the job takes a permit and calls the service *)
  destruct (process_file_enter f args w1) as [[w2 o2]|] eqn:Henter.
  2:{ exfalso. revert Henter. vm_compute. discriminate. }
  assert (o2 = Ok (Converting f)) as ->.
  { assert (snd <$> process_file_enter f args w1 = Some (Ok (Converting f))) as Hsnd
      by (vm_compute; reflexivity).
    rewrite Henter in Hsnd. by injection Hsnd. }
  assert (w2 = match process_file_enter f args w1 with
               | Some (w, _) => w
               | None => w1
               end) as Hw2 by (by rewrite Henter).
  (* the service answers with the Markdown, and the job writes it *)
  destruct (process_file_resume f args (Returns (Some "# c")) w2) as [w3 o3] eqn:Hresume.
  assert (o3 = Ok (converted_result f)) as ->.
  { assert ((process_file_resume f args (Returns (Some "# c")) w2).2
            = Ok (converted_result f)) as Hsnd
      by (rewrite Hw2; vm_compute; reflexivity).
    by rewrite Hresume in Hsnd. }
  set (b := {| world := w3;
               tasks := <[0 := Done (converted_result f)]>
                          (tasks {| world := w2;
                                    tasks := <[0 := Converting f]> (tasks (gather [f] w1)) |}) |}).
  destruct (emits_main_resume args [f] [converted_result f] (world b)) as (w4 & Hsum & _).
  set (run1 := {| status := exit_status (Ok tt); results := [converted_result f];
                  final := w4 |}).
  assert (main_run Example.cli_epub Example.posix run1) as Hrun1.
  { eapply (run_gather _ _ w1 args {[ f ]} [f] b);
      [done | by rewrite elements_singleton | | done | done].
    eapply rtc_l; [eapply (step_enter _ _ 0 f); [reflexivity | exact Henter]|].
    apply rtc_once. eapply (step_resume _ _ 0 f); [reflexivity | exact Hresume]. }
  destruct (main_run_total Example.cli_epub (restart Example.posix (final run1)))
    as [run2 Hrun2].
  exists run1, run2.
  destruct (second_run_skips_every_job Example.cli_epub Example.posix run1 run2)
    as (_ & Hlen & Hall & Hcalls);
    [apply slash_free_example | done | done | by repeat constructor | done |].
  by split_and!.
Defined.

(** * More of the script *)

(** ** [str(e)[:200]] *)

(** X1.  The message of a failed job is the start of the text of the
    exception: the whole text when it has at most 200 characters, its
    first 200 characters otherwise.  Characters are counted as Python
    counts them, a character of several bytes as one, and the cut falls
    between two characters, never inside one. *)
Theorem failure_message_is_a_prefix (args : Args) (file_path : Path) (msg : string)
    (w : World) :
  ∃ w' m,
    process_file_resume file_path args (Raises msg) w
      = (w', Ok (false, PurePath.name file_path, m))
    ∧ Str.len m ≤ 200
    ∧ (∃ rest, msg = m +:+ rest
             ∧ match rest with
               | EmptyString => True
               | String c _ => Str.continuation c = false
               end)
    ∧ (Str.len msg ≤ 200 → m = msg)
    ∧ (200 ≤ Str.len msg → Str.len m = 200).
Proof.
  destruct (resume_raises file_path args msg w) as (w' & Hrun & _).
  exists w', (Str.take 200 msg).
  split_and!;
    [done | apply take_length | apply take_whole | apply take_all | apply take_full].
Qed.

Lemma failure_message_is_a_prefix_witness :
  ∃ w', process_file_resume (Example.at_ "/in/a.pdf") Example.to_out
          (Raises "503 Service Unavailable") Example.posix
        = (w', Ok (false, "a.pdf", "503 Service Unavailable")).
Proof.
  destruct (failure_message_is_a_prefix Example.to_out (Example.at_ "/in/a.pdf")
              "503 Service Unavailable" Example.posix)
    as (w' & m & Hrun & _ & _ & Hshort & _).
  exists w'. rewrite Hrun, Hshort; [done | vm_compute; lia].
Defined.

(** ** [Path(str(p))] *)

(** The roots [Path(...)] gives. *)
Definition posix_root (r : string) : Prop := r = EmptyString ∨ r = "/" ∨ r = "//".

(** A path as [Path(...)] builds it. *)
Definition parsed (p : Path) : Prop := posix_root (root p) ∧ Forall component (parts p).

Lemma splitroot_root s : posix_root (PurePath.splitroot s).1.
Proof.
  unfold PurePath.splitroot, posix_root.
  repeat match goal with
         | |- context [match ?x with _ => _ end] => destruct x
         end; cbn; auto.
Qed.

Lemma of_string_parsed s : parsed (PurePath.of_string s).
Proof.
  split; [|apply of_string_parts].
  unfold PurePath.of_string. pose proof (splitroot_root s) as Hr.
  by destruct (PurePath.splitroot s).
Qed.

Lemma parsed_child p x : parsed p → component x → parsed (child p x).
Proof.
  intros [Hr Hp] Hx. split; [done|]. cbn. apply Forall_app.
  split; [done | by apply Forall_singleton].
Qed.

Lemma parsed_parent p : parsed p → parsed (PurePath.parent p).
Proof.
  intros [Hr Hp]. split; [done|]. cbn.
  rewrite removelast_firstn_len. by apply Forall_take.
Qed.

Lemma split_slash_cons x rest :
  no_slash x = true →
  Str.split_slash (x +:+ String "/"%char rest) = x :: Str.split_slash rest.
Proof.
  induction x as [|c x IH]; [done|]. simpl.
  intros [Hc%negb_true_iff Hx]%andb_true_iff. by rewrite Hc, IH.
Qed.

Lemma split_join l :
  l ≠ [] → Forall (λ x, no_slash x = true) l → Str.split_slash (Str.join_slash l) = l.
Proof.
  induction l as [|x l IH]; [done|]. intros _ [Hx Hl]%Forall_cons.
  destruct l as [|y l]; [by apply split_slash_single|].
  change (Str.join_slash (x :: y :: l)) with (x +:+ String "/"%char (Str.join_slash (y :: l))).
  rewrite split_slash_cons by done. by rewrite IH.
Qed.

Lemma filter_components l :
  Forall component l → filter (λ x, x ≠ EmptyString ∧ x ≠ ".") l = l.
Proof.
  induction 1 as [|x l (_ & ? & ?) _ IH]; [done|].
  by rewrite filter_cons_True, IH.
Qed.

Lemma splitroot_slash c s :
  Ascii.eqb c "/" = false →
  PurePath.splitroot (String "/"%char (String c s)) = ("/", String c s).
Proof. by destruct c as [[] [] [] [] [] [] [] []]. Qed.

Lemma splitroot_two_slashes c s :
  Ascii.eqb c "/" = false →
  PurePath.splitroot (String "/"%char (String "/"%char (String c s))) = ("//", String c s).
Proof. by destruct c as [[] [] [] [] [] [] [] []]. Qed.

(** A path survives being written as a string and read again. *)
Lemma of_string_to_string p : parsed p → PurePath.of_string (PurePath.to_string p) = p.
Proof.
  destruct p as [r ps]. intros [Hr Hps]. cbn [root parts] in *.
  destruct ps as [|x l].
  { by destruct Hr as [->|[->| ->]]. }
  pose proof Hps as [(Hx & Hne & _) _]%Forall_cons.
  destruct x as [|c x]; [done|].
  pose proof Hx as [Hc%negb_true_iff _]%andb_true_iff.
  assert (∃ t, Str.join_slash (String c x :: l) = String c t) as [t Ht].
  { destruct l; simpl; eauto. }
  assert (filter (λ x, x ≠ EmptyString ∧ x ≠ ".") (Str.split_slash (String c t))
          = String c x :: l) as Hparts.
  { rewrite <- Ht, split_join; [by apply filter_components | done |].
    eapply Forall_impl; [exact Hps|]. by intros ? (? & _). }
  unfold PurePath.to_string, PurePath.of_string. cbn [root parts]. rewrite Ht.
  destruct Hr as [->|[->| ->]].
  - change (EmptyString +:+ String c t) with (String c t). cbn match.
    rewrite splitroot_relative by done. by rewrite Hparts.
  - change ("/" +:+ String c t) with (String "/"%char (String c t)). cbn match.
    rewrite splitroot_slash by done. by rewrite Hparts.
  - change ("//" +:+ String c t) with (String "/"%char (String "/"%char (String c t))).
    cbn match. rewrite splitroot_two_slashes by done. by rewrite Hparts.
Qed.

Lemma to_string_nonempty p : PurePath.to_string p ≠ EmptyString.
Proof. unfold PurePath.to_string. by destruct (root p +:+ Str.join_slash (parts p)). Qed.

(** X2.  What [parse_args] hands to the rest of the script: the input and
    the format as given, and an output directory that is never the
    empty string.  When [-o] is missing, [Path(args.output)], as
    [process_file] and [os.makedirs] read it back, is the sibling (or, for
    an input without a name, the child) that was built, and it is never
    the input directory itself. *)
Theorem parse_args_output_is_read_back (ns : Namespace) :
  let args := parse_args ns in
  let input_path := PurePath.of_string (ns_input ns) in
  input args = ns_input ns
  ∧ format args = ns_format ns
  ∧ output args ≠ EmptyString
  ∧ (not_given (ns_output ns) = true →
       PurePath.of_string (output args)
       = (if decide (PurePath.name input_path ≠ EmptyString)
          then child (PurePath.parent input_path) (PurePath.name input_path +:+ "_Markdown")
          else child input_path "Markdown")
       ∧ PurePath.of_string (output args) ≠ input_path).
Proof.
  cbn zeta. split_and!; [done | done | |].
  - unfold parse_args. cbn [output].
    destruct (not_given (ns_output ns)) eqn:Hnot.
    + case_decide; apply to_string_nonempty.
    + destruct (ns_output ns) as [[|c s]|]; done.
  - intros Hnot. unfold parse_args. cbn [output]. rewrite Hnot.
    pose proof (of_string_parsed (ns_input ns)) as Hin.
    case_decide as Hname.
    + assert (component (PurePath.name (PurePath.of_string (ns_input ns)) +:+ "_Markdown"))
        as Hcomp.
      { apply component_app; [|done | cbn; lia].
        apply name_component; [apply of_string_parts | done]. }
      rewrite joinpath_component by done.
      rewrite of_string_to_string by (by apply parsed_child; [apply parsed_parent|]).
      split; [done|]. intros Heq%(f_equal PurePath.name). rewrite name_child in Heq.
      apply (f_equal String.length) in Heq. rewrite length_app in Heq. cbn in Heq. lia.
    + rewrite joinpath_component by done.
      rewrite of_string_to_string by (by apply parsed_child).
      split; [done|]. intros Heq%(f_equal PurePath.name). rewrite name_child in Heq.
      by rewrite Hname in Heq.
Qed.

Lemma parse_args_output_is_read_back_witness :
  PurePath.of_string (output (parse_args (mkNamespace "data//docs/" None epub)))
  = child (Example.at_ "data") "docs_Markdown".
Proof.
  destruct (parse_args_output_is_read_back (mkNamespace "data//docs/" None epub))
    as (_ & _ & _ & Hout).
  destruct (Hout eq_refl) as [-> _]. reflexivity.
Defined.

(** ** One job, from its start to its end *)

(** X3.  A job whose output is missing, as its check finds, and whose
    document the service converts: the job calls the service once, gives its permit back and
    moves the progress bar by one; it ends as converted or, when the
    output cannot be written, as failed.  When it ends as converted the
    output file holds the Markdown the service returned, and the same job
    started again, whatever the service would answer, is skipped without
    a call and without touching the tree. *)
Theorem converted_output_is_skipped_next (args : Args) (file_path : Path)
    (client : string → Response) (text : string) (w : World) :
  0 < sem_value w →
  lookup_node w (markdown_file_of file_path args) = None →
  stat_error w (markdown_file_of file_path args) = None →
  client (PurePath.to_string file_path) = Returns (Some text) →
  text ≠ EmptyString →
  ∃ w' r,
    process_file client file_path args w = Some (w', Ok r)
    ∧ sem_value w' = sem_value w
    ∧ calls w' = calls w ++ [PurePath.to_string file_path]
    ∧ pbar_n w' = pbar_n w + 1
    ∧ (r = converted_result file_path ∨ ∃ e, r = failed_result file_path e)
    ∧ (r = converted_result file_path →
         tree w' !! markdown_file_of file_path args = Some (File text)
         ∧ ∀ client', ∃ w'',
             process_file client' file_path args w'
               = Some (w'', Ok (skipped_result file_path))
             ∧ tree w'' = tree w' ∧ calls w'' = calls w').
Proof.
  intros Hsem Hnone Hstat Hclient Htext.
  destruct (enter_missing file_path args w Hsem Hnone Hstat)
    as (w1 & Henter & Htree1 & Hcalls1 & Hsem1 & Hn1 & Hfr1).
  destruct (process_file_resume file_path args (Returns (Some text)) w1) as [w' o] eqn:Hrun.
  pose proof (resume_spec _ _ _ _ _ _ Hrun) as (r & -> & (Hsem' & Hcalls' & Hn' & Hfr') & _).
  destruct (frame_trans _ _ _ Hfr1 Hfr') as (_ & _ & _ & _ & _ & Hstat').
  exists w', r. unfold process_file. rewrite Henter. cbn. rewrite Hclient, Hrun.
  assert (r = converted_result file_path ∧
            tree w' !! markdown_file_of file_path args = Some (File text)
          ∨ ∃ e, r = failed_result file_path e) as Hcase.
  { destruct (write_output file_path args text w1) as [w2 [[]|[e|code]]] eqn:Hw.
    - destruct (resume_written file_path args text w1 w2 Htext Hw) as (w3 & Hrun3 & Htree3).
      rewrite Hrun in Hrun3. injection Hrun3 as <- ->. left. split; [done|].
      rewrite Htree3. by apply write_output_spec in Hw as (_ & _ & _ & _ & ?).
    - destruct (resume_write_raises file_path args text w1 w2 e Htext Hw)
        as (w3 & Hrun3 & _).
      rewrite Hrun in Hrun3. injection Hrun3 as <- ->. right. by exists e.
    - by apply write_output_spec in Hw as (_ & _ & _ & _ & msg & [=]). }
  split_and!; [done | lia | congruence | lia | |].
  - destruct Hcase as [[-> _]|?]; auto.
  - intros ->. destruct Hcase as [[_ Hfile]|[e [=]]]. split; [done|].
    intros client'.
    destruct (enter_exists file_path args w') as (w'' & Hskip & Htree'' & Hcalls'' & _);
      [lia | | by rewrite Hstat' |].
    { unfold lookup_node. destruct (parts _); [by eexists | by rewrite Hfile]. }
    exists w''. by rewrite Hskip.
Qed.

Lemma converted_output_is_skipped_next_witness :
  ∃ w' r,
    process_file Example.service (Example.at_ "/in/B.PDF") Example.to_out Example.posix
      = Some (w', Ok r)
    ∧ sem_value w' = 10
    ∧ calls w' = ["/in/B.PDF"].
Proof.
  destruct (converted_output_is_skipped_next Example.to_out (Example.at_ "/in/B.PDF")
              Example.service "# b" Example.posix)
    as (w' & r & Hrun & Hsem & Hcalls & _);
    [cbn; lia | vm_compute; reflexivity | done | vm_compute; reflexivity | done |].
  by exists w', r.
Defined.

(** ** Two documents with one stem *)

(** X4.  Two jobs whose files have the same stem ([a.pdf] and [a.PDF], or
    [a.pdf] and [a.epub] under the format all) write to the same output
    file.  When that file is missing, as the check finds, and two permits
    are free, the loop can put both jobs inside [client.convert] at once,
    so the service is called for both.  And the segment after the call looks at the output
    no more: a job that ends as converted has left its own Markdown in the
    file, whatever another job had written there in the meantime. *)
Theorem same_stem_jobs_share_an_output (args : Args) (files : list Path) (w0 : World)
    (i j : nat) (f g : Path) :
  i ≠ j → files !! i = Some f → files !! j = Some g →
  PurePath.stem f = PurePath.stem g →
  lookup_node w0 (markdown_file_of f args) = None →
  stat_error w0 (markdown_file_of f args) = None →
  2 ≤ sem_value w0 →
  markdown_file_of f args = markdown_file_of g args
  ∧ (∃ b, reachable args files w0 b
        ∧ tasks b !! i = Some (Converting f) ∧ tasks b !! j = Some (Converting g)
        ∧ calls (world b) = calls w0 ++ [PurePath.to_string f; PurePath.to_string g])
  ∧ ∀ text w w',
      process_file_resume g args (Returns (Some text)) w = (w', Ok (converted_result g)) →
      tree w' !! markdown_file_of f args = Some (File text).
Proof.
  intros Hij Hf Hg Hstem Hnone Hstat Hsem.
  assert (markdown_file_of f args = markdown_file_of g args) as Hsame.
  { unfold markdown_file_of. by rewrite Hstem. }
  split_and!; [done | |].
  - destruct (enter_missing f args w0)
      as (w1 & Hrun1 & Htree1 & Hcalls1 & Hsem1 & _ & Hfr1); [lia | done | done |].
    destruct Hfr1 as (_ & _ & _ & _ & _ & Hstat1).
    destruct (enter_missing g args w1) as (w2 & Hrun2 & Htree2 & Hcalls2 & Hsem2 & _).
    { lia. }
    { rewrite <- Hsame. unfold lookup_node in *. by rewrite Htree1. }
    { by rewrite <- Hsame, Hstat1. }
    set (b1 := {| world := w1; tasks := <[i := Converting f]> (tasks (gather files w0)) |}).
    exists {| world := w2; tasks := <[j := Converting g]> (tasks b1) |}.
    assert (tasks (gather files w0) !! i = Some (Waiting f)) as Hi.
    { cbn. by rewrite list_lookup_fmap, Hf. }
    assert (tasks b1 !! j = Some (Waiting g)) as Hj.
    { cbn. rewrite list_lookup_insert_ne by done. by rewrite list_lookup_fmap, Hg. }
    split_and!.
    + eapply rtc_l; [by eapply (step_enter _ _ i f)|].
      apply rtc_once. by eapply (step_enter _ b1 j g).
    + cbn. rewrite list_lookup_insert_ne by done.
      apply list_lookup_insert_eq. rewrite length_fmap. by eapply lookup_lt_Some.
    + cbn. apply list_lookup_insert_eq. rewrite length_insert, length_fmap.
      by eapply lookup_lt_Some.
    + cbn. by rewrite Hcalls2, Hcalls1, <- app_assoc.
  - intros text w w' Hrun. rewrite Hsame. rewrite resume_eq in Hrun.
    destruct text as [|c text]; [done|].
    destruct (write_output g args (String c text) w) as [w1 [[]|[e|code]]] eqn:Hw;
      [|done..].
    injection Hrun as <-. cbn.
    by apply write_output_spec in Hw as (_ & _ & _ & _ & ?).
Qed.

Lemma same_stem_jobs_share_an_output_witness :
  markdown_file_of (Example.at_ "/in/c.epub") Example.to_out
  = markdown_file_of (Example.at_ "/in/c.pdf") Example.to_out
  ∧ ∃ b, reachable Example.to_out [Example.at_ "/in/c.epub"; Example.at_ "/in/c.pdf"]
           Example.posix b
       ∧ calls (world b) = ["/in/c.epub"; "/in/c.pdf"].
Proof.
  destruct (same_stem_jobs_share_an_output Example.to_out
              [Example.at_ "/in/c.epub"; Example.at_ "/in/c.pdf"] Example.posix 0 1
              (Example.at_ "/in/c.epub") (Example.at_ "/in/c.pdf"))
    as (Hsame & (b & Hb & _ & _ & Hcalls) & _);
    [done | done | done | done | vm_compute; reflexivity | done | cbn; lia |].
  split; [done|]. by exists b.
Defined.

(** ** Counting along a batch *)

(** A job that has its result. *)
Definition finished (t : Task) : nat :=
  match t with
  | Done _ => 1
  | _ => 0
  end.

(** A job that has called the service. *)
Definition called (t : Task) : nat :=
  match t with
  | Waiting _ => 0
  | Converting _ => 1
  | Done r => if r.1.1 && String.eqb r.2 "Skipped (exists)" then 0 else 1
  end.

Lemma finished_gather files : sum_list_with finished (Waiting <$> files) = 0.
Proof. induction files as [|f l IH]; [done|]. by cbn. Qed.

Lemma called_gather files : sum_list_with called (Waiting <$> files) = 0.
Proof. induction files as [|f l IH]; [done|]. by cbn. Qed.

Lemma finished_le l : sum_list_with finished l ≤ length l.
Proof. induction l as [|[] l IH]; cbn; lia. Qed.

Lemma called_le l : sum_list_with called l ≤ length l.
Proof. induction l as [|[| |r] l IH]; cbn; [lia..|]. destruct (_ && _); lia. Qed.

Lemma results_of_tasks b rs : results_of b = Some rs → tasks b = Done <$> rs.
Proof.
  unfold results_of. intros Hrs%mapM_Some_1.
  induction Hrs as [|t r ts rs Ht _ IH]; [done|].
  destruct t; try done. injection Ht as ->. cbn. by rewrite IH.
Qed.

Lemma finished_results rs : sum_list_with finished (Done <$> rs) = length rs.
Proof. induction rs as [|r rs IH]; [done|]. cbn. by rewrite IH. Qed.

Lemma called_results rs :
  Forall (λ r, ∃ f, job_result f r) rs →
  sum_list_with called (Done <$> rs) = length (converted rs) + length (failures rs).
Proof.
  unfold converted, failures.
  induction 1 as [|r rs (f & Hr) _ IH]; [done|].
  destruct Hr as [->|[->|[e ->]]];
    repeat match goal with
      | |- context [filter ?P (?x :: ?l)] =>
          first [ rewrite (filter_cons_True P x l) by (repeat split; reflexivity)
                | rewrite (filter_cons_False P x l) by (intros ?; intuition discriminate) ]
      end;
    cbn [length fmap list_fmap sum_list_with];
    change (list_fmap _ _ Done rs) with (Done <$> rs); rewrite IH;
    [ change (called (Done (skipped_result f))) with 0
    | change (called (Done (converted_result f))) with 1
    | change (called (Done (failed_result f e))) with 1 ];
    rewrite ?Nat.add_succ_r; cbn [Nat.add]; reflexivity.
Qed.

Section Counting.

Context (args : Args) (files : list Path) (w0 : World).

Lemma enter_pbar f w w' t :
  process_file_enter f args w = Some (w', Ok t) → pbar_n w' = pbar_n w + finished t.
Proof.
  intros Hrun. pose proof (enter_spec _ _ _ _ _ Hrun) as (Hsem & _ & _ & Hcase).
  pose proof (enter_checked _ _ _ _ _ Hrun) as Hstat.
  destruct Hcase as [(_ & Hex & _)|[(_ & Hnone & _)|(e & [=] & _)]].
  - destruct (enter_exists f args w Hsem Hex Hstat) as (w1 & Hrun1 & _ & _ & _ & Hn & _).
    rewrite Hrun in Hrun1. by injection Hrun1 as -> ->.
  - destruct (enter_missing f args w Hsem Hnone Hstat)
      as (w1 & Hrun1 & _ & _ & _ & Hn & _).
    rewrite Hrun in Hrun1. injection Hrun1 as -> ->. cbn. lia.
Qed.

(** The progress bar has moved once for every job that has its result. *)
Lemma reachable_pbar b :
  reachable args files w0 b →
  pbar_n (world b) = pbar_n w0 + sum_list_with finished (tasks b).
Proof.
  intros Hr. reach_induction Hr.
  { cbn. rewrite finished_gather. lia. }
  destruct Hstep as [i f w' t Hi Hrun | i f resp w' r Hi Hrun]; cbn [world tasks].
  - apply enter_pbar in Hrun.
    pose proof (sum_list_with_insert finished _ _ _ t Hi) as Hsum.
    change (finished (Waiting f)) with 0 in Hsum. lia.
  - apply resume_spec in Hrun as (r' & [= <-] & (_ & _ & Hn & _) & _).
    pose proof (sum_list_with_insert finished _ _ _ (Done r) Hi) as Hsum.
    change (finished (Converting f)) with 0 in Hsum.
    change (finished (Done r)) with 1 in Hsum. lia.
Qed.

(** The log has one call for every job that is inside [client.convert] or
    came back from it. *)
Lemma reachable_called_count b :
  reachable args files w0 b →
  length (calls (world b)) = length (calls w0) + sum_list_with called (tasks b).
Proof.
  intros Hr. reach_induction Hr.
  { cbn. rewrite called_gather. lia. }
  apply step_turn in Hstep as (i & f & Hturn).
  destruct Hturn as [Hi Hb2 _ _ _ Hc|Hi Hb2 _ _ Hc|r Hi Hb2 (_ & Hc & _) _ _ _ Hres];
    rewrite Hb2, Hc.
  - pose proof (sum_list_with_insert called _ _ _ (Done (skipped_result f)) Hi) as Hsum.
    change (called (Waiting f)) with 0 in Hsum.
    change (called (Done (skipped_result f))) with 0 in Hsum. lia.
  - pose proof (sum_list_with_insert called _ _ _ (Converting f) Hi) as Hsum.
    change (called (Waiting f)) with 0 in Hsum.
    change (called (Converting f)) with 1 in Hsum.
    rewrite List.length_app. cbn [length]. lia.
  - pose proof (sum_list_with_insert called _ _ _ (Done r) Hi) as Hsum.
    change (called (Converting f)) with 1 in Hsum.
    assert (called (Done r) = 1) as Hone by (by destruct Hres as [[-> _]|[e ->]]).
    lia.
Qed.

Lemma results_are_job_results b rs :
  reachable args files w0 b → results_of b = Some rs →
  Forall (λ r, ∃ f, job_result f r) rs.
Proof.
  intros Hr Hrs. pose proof (reachable_jobs_of _ _ _ _ Hr) as Hjobs.
  destruct (results_of_length _ _ _ Hjobs Hrs) as [Hlen Hall].
  apply Forall_lookup. intros i r Hi.
  destruct (files !! i) as [f|] eqn:Hf.
  - destruct (Hall i f Hf) as (r' & Hr' & _ & Hres). exists f. congruence.
  - apply lookup_ge_None in Hf. apply lookup_lt_Some in Hi. lia.
Qed.

End Counting.

(** In the example the job for [a.pdf] finds [/out/a.md] and skips. *)
Lemma skipped_batch_example :
  ∃ b, reachable Example.to_out [Example.at_ "/in/a.pdf"] Example.posix b
     ∧ results_of b = Some [skipped_result (Example.at_ "/in/a.pdf")].
Proof.
  destruct (enter_exists (Example.at_ "/in/a.pdf") Example.to_out Example.posix)
    as (w1 & Henter & _); [cbn; lia | vm_compute; by eexists | done |].
  exists {| world := w1;
            tasks := <[0 := Done (skipped_result (Example.at_ "/in/a.pdf"))]>
                       (tasks (gather [Example.at_ "/in/a.pdf"] Example.posix)) |}.
  split; [|reflexivity].
  apply rtc_once.
  eapply (step_enter _ _ 0 (Example.at_ "/in/a.pdf")); [reflexivity | exact Henter].
Qed.

(** X5.  No job calls the service twice: all along a batch the calls added
    to the log are at most as many as the jobs, and when the batch is over
    they are as many as the results that are not skipped, the converted
    ones and the failed ones. *)
Theorem one_call_for_each_job_not_skipped (args : Args) (files : list Path) (w0 : World)
    (b : Batch) :
  reachable args files w0 b →
  length (calls (world b)) ≤ length (calls w0) + length files
  ∧ ∀ rs, results_of b = Some rs →
      length (calls (world b))
      = length (calls w0) + length (converted rs) + length (failures rs).
Proof.
  intros Hr. pose proof (reachable_called_count _ _ _ _ Hr) as Hcount.
  pose proof (reachable_jobs_of _ _ _ _ Hr) as [Hlen _].
  split.
  - pose proof (called_le (tasks b)). lia.
  - intros rs Hrs. rewrite Hcount, (results_of_tasks _ _ Hrs).
    rewrite called_results by (by eapply results_are_job_results). lia.
Qed.

Lemma one_call_for_each_job_not_skipped_witness :
  ∃ b, reachable Example.to_out [Example.at_ "/in/a.pdf"] Example.posix b
     ∧ results_of b = Some [skipped_result (Example.at_ "/in/a.pdf")]
     ∧ length (calls (world b)) = 0.
Proof.
  destruct skipped_batch_example as (b & Hb & Hrs).
  exists b. split_and!; [done..|].
  destruct (one_call_for_each_job_not_skipped _ _ _ _ Hb) as [_ Hcount].
  by rewrite (Hcount _ Hrs).
Defined.

(** X6.  The results of a finished batch follow its jobs: there is one for
    every file, in the order of the files, and it carries the name of its
    file.  The output of a job that is reported as a success is in the
    tree when the batch ends; a job that is reported as failed had no
    output when the batch began. *)
Theorem results_follow_the_jobs (args : Args) (files : list Path) (w0 : World)
    (b : Batch) (rs : list Result) :
  reachable args files w0 b →
  results_of b = Some rs →
  length rs = length files
  ∧ ∀ i f, files !! i = Some f →
      ∃ r, rs !! i = Some r
         ∧ r.1.2 = PurePath.name f
         ∧ (r.1.1 = true → is_Some (lookup_node (world b) (markdown_file_of f args)))
         ∧ (r.1.1 = false → lookup_node w0 (markdown_file_of f args) = None).
Proof.
  intros Hr Hrs. pose proof (reachable_jobs_of _ _ _ _ Hr) as Hjobs.
  destruct (results_of_length _ _ _ Hjobs Hrs) as [Hlen Hall].
  split; [done|]. intros i f Hf.
  destruct (Hall i f Hf) as (r & Hi & Hdone & Hres).
  exists r. split_and!; [done | | |].
  - by destruct Hres as [->|[->|[e ->]]].
  - intros Hsucc. by eapply reachable_success.
  - intros Hfail. eapply reachable_called; [done.. |]. by intros ->.
Qed.

Lemma results_follow_the_jobs_witness :
  ∃ b r, reachable Example.to_out [Example.at_ "/in/a.pdf"] Example.posix b
       ∧ results_of b = Some [r]
       ∧ r.1.2 = "a.pdf".
Proof.
  destruct skipped_batch_example as (b & Hb & Hrs).
  exists b, (skipped_result (Example.at_ "/in/a.pdf")). split_and!; [done..|].
  destruct (results_follow_the_jobs _ _ _ _ _ Hb Hrs) as [_ Hall].
  destruct (Hall 0 (Example.at_ "/in/a.pdf") eq_refl) as (r & [= <-] & Hname & _).
  exact Hname.
Defined.

(** ** [main] up to the batch, once more *)

(** The number [main] prints after discovery. *)
Definition found_count (s : Suspended) : nat :=
  match s with
  | Returned => 0
  | AwaitGather _ files => size files
  end.

(** What [main] has printed when it returns early or reaches [gather]. *)
Definition startup_lines (args : Args) (s : Suspended) : list string :=
  ["Input directory: " +:+ input args;
   "Output directory: " +:+ output args;
   "Format: " +:+ format_name (format args);
   "Using Datalab.to Conversion API for conversion...";
   nl +:+ "Found " +:+ pretty (found_count s) +:+ " files to convert" +:+ nl]
  ++ match s with
     | Returned =>
         ["No " +:+ format_name (format args) +:+ " files found in the input directory"]
     | AwaitGather _ _ => []
     end.

Lemma main_enter_suspended (ns : Namespace) w w' s :
  main_enter ns w = (w', Ok s) →
  stdout w' = stdout w ++ startup_lines (parse_args ns) s
  ∧ match s with
    | Returned =>
        sem_value w' = sem_value w ∧ pbar_n w' = pbar_n w ∧ pbar_total w' = pbar_total w
    | AwaitGather args files =>
        args = parse_args ns ∧ sem_value w' = 10 ∧ pbar_n w' = 0
        ∧ pbar_total w' = size files ∧ size files ≠ 0
    end.
Proof.
  intros Hrun. unfold main_enter in Hrun. run_m. fold (api_key_of w) in Hrun.
  destruct (not_configured (api_key_of w)); [done|].
  destruct (api_key_of w) as [key|]; [|done].
  set (w1 := set_environ <["DATALAB_API_KEY":=key]> w) in Hrun.
  destruct (makedirs (output (parse_args ns)) w1) as [w2 [[]|e]] eqn:Hmk;
    [|done].
  apply makedirs_from_spec in Hmk as (Hs & _).
  apply same_but_tree_frame in Hs as ((_ & _ & _ & Hout & Htotal & Hst) & Hsem & _ & Hn).
  unfold w1 in Hout, Htotal, Hsem, Hn, Hst. cbn in Hout, Htotal, Hsem, Hn, Hst.
  destruct (stat_error w (PurePath.of_string (input (parse_args ns)))) as [e|] eqn:Hd.
  { by rewrite (discover_files_raises _ _ _ e) in Hrun
      by (rewrite <- Hst in Hd; exact Hd). }
  rewrite discover_files_eq in Hrun by (rewrite <- Hst in Hd; exact Hd).
  cbn beta iota in Hrun.
  set (w3 := set_stdout _ (set_stdout _ (set_stdout _ (set_stdout _ w2)))) in Hrun.
  set (files := discovered w3 _ _) in Hrun.
  case_decide as Hsize; cbn beta iota in Hrun; injection Hrun as <- <-;
    unfold startup_lines, found_count; cbn; rewrite ?Hout, ?Hsize, <- ?app_assoc;
    by split_and!.
Qed.

(** ** What a run leaves in the tree *)

Lemma main_resume_printed args fs rs w w' o :
  main_resume args fs rs w = (w', o) →
  o = Ok tt ∧ printed w w' (summary args (length fs) rs).
Proof.
  intros Hrun. destruct (emits_main_resume args fs rs w) as (w3 & Hrun3 & Hp).
  rewrite Hrun in Hrun3. by injection Hrun3 as -> ->.
Qed.

(** X7.  Whatever a run of the script does, and however it ends, every
    file and every directory that was in the tree when it started is
    there when it ends, a file with the content it had: the script
    removes nothing and overwrites nothing that it found. *)
Theorem run_keeps_what_was_there (cl : CommandLine) (w : World) (run : Run) :
  main_run cl w run →
  ∀ p n, tree w !! p = Some n → tree (final run) !! p = Some n.
Proof.
  destruct cl as [code shown|ns]; [by intros ->%main_run_refused|].
  intros [w' e Hmain | w' Hmain | w' args files fs b rs w'' o Hmain _ Hb _ Hsum
         | w' args files fs b i f w'' e Hmain _ Hb _ Henter];
    cbn [final];
    apply main_enter_spec in Hmain as (_ & _ & _ & Hkeep & _); [done | done | |].
  - apply main_resume_printed in Hsum as [_ ->]. cbn.
    destruct (reachable_keeps _ _ _ _ Hb) as [Hkeep2 _].
    intros p n Hp. by apply Hkeep2, Hkeep.
  - apply enter_spec in Henter as (_ & Htree & _).
    destruct (reachable_keeps _ _ _ _ Hb) as [Hkeep2 _].
    intros p n Hp. rewrite Htree. by apply Hkeep2, Hkeep.
Qed.

Lemma run_keeps_what_was_there_witness :
  ∃ run, main_run Example.cli Example.posix run
       ∧ tree (final run) !! Example.at_ "/out/a.md" = Some (File "# a, converted earlier").
Proof.
  destruct (main_run_total Example.cli Example.posix) as [run Hrun].
  exists run. split; [done|].
  by apply (run_keeps_what_was_there Example.cli Example.posix run Hrun).
Defined.

Lemma slash_free_makedirs p w w' o :
  slash_free w → makedirs p w = (w', o) → slash_free w'.
Proof.
  intros Hwf Hmk. apply makedirs_from_spec in Hmk as (_ & _ & Hnew & _).
  intros q [n Hq]. destruct (Hnew q n Hq) as [Hold|[_ (k & _ & ->)]]; [by apply Hwf; eexists|].
  cbn. apply Forall_take. eapply Forall_impl; [apply of_string_parts|].
  by intros x (? & _).
Qed.

Lemma slash_free_tree w w' : tree w' = tree w → slash_free w → slash_free w'.
Proof. intros Ht Hwf p Hp. apply Hwf. by rewrite <- Ht. Qed.



(** ** An input directory with nothing to convert *)



(** ** The two names of the key *)

(** X10.  [DATALAB_API_KEY] comes first: when it holds a string that is not
    empty, [MARKER_PDF_KEY] is not looked at, so that the placeholder in
    the first ends the script even with a real key in the second.  The
    second is used when the first is missing or empty, and a key taken
    from it is copied into [DATALAB_API_KEY] while [MARKER_PDF_KEY] stays
    as it is. *)
Theorem primary_key_comes_first (ns : Namespace) (w w' : World) (o : Outcome Suspended) :
  main_enter ns w = (w', o) →
  (∀ key, environ w !! "DATALAB_API_KEY" = Some key → key ≠ EmptyString →
     api_key_of w = Some key
     ∧ (key = "your_api_key_here" → o = Raise (SystemExit 1) ∧ environ w' = environ w)
     ∧ (key ≠ "your_api_key_here" → environ w' = <["DATALAB_API_KEY" := key]> (environ w)))
  ∧ (environ w !! "DATALAB_API_KEY" = None
     ∨ environ w !! "DATALAB_API_KEY" = Some EmptyString →
     api_key_of w = environ w !! "MARKER_PDF_KEY"
     ∧ ∀ key, environ w !! "MARKER_PDF_KEY" = Some key → not_configured (Some key) = false →
         environ w' !! "DATALAB_API_KEY" = Some key
         ∧ environ w' !! "MARKER_PDF_KEY" = Some key
         ∧ o ≠ Raise (SystemExit 1)).
Proof.
  intros Hmain. apply main_enter_spec in Hmain as (_ & _ & _ & _ & Hcase). split.
  - intros key Hkey Hne.
    assert (api_key_of w = Some key) as Hapi.
    { unfold api_key_of. rewrite Hkey. by destruct key. }
    rewrite Hapi in Hcase. split_and!; [done | |].
    + intros ->. by destruct Hcase as [(_ & -> & _ & ->)|(key & [= <-] & [=] & _)].
    + intros Hreal. destruct Hcase as [(Hconf & _)|(key' & [= <-] & _ & -> & _)]; [|done].
      destruct key as [|c key]; [done|]. cbn in Hconf.
      apply bool_decide_eq_true in Hconf.
      by repeat (apply elem_of_cons in Hconf as [?|Hconf]; [done|]);
        apply elem_of_nil in Hconf.
  - intros Hfirst.
    assert (api_key_of w = environ w !! "MARKER_PDF_KEY") as Hapi.
    { unfold api_key_of. by destruct Hfirst as [-> | ->]. }
    split; [done|]. intros key Hkey Hconf. rewrite Hapi, Hkey in Hcase.
    destruct Hcase as [(Hno & _)|(key' & [= <-] & _ & -> & w2 & o2 & Hmk & _ & Ho2)];
      [congruence|].
    split_and!; [by rewrite lookup_insert_eq | by rewrite lookup_insert_ne |].
    intros ->. destruct o2 as [[]|e2].
    + destruct (stat_error w _); [done|].
      by destruct Ho2 as [[_ [=]]|(_ & [=] & _)].
    + injection Ho2 as <-. by apply makedirs_raises_exception in Hmk as [msg [=]].
Qed.

Lemma primary_key_comes_first_witness :
  (main_enter Example.cli
     (set_environ (λ _, {[ "DATALAB_API_KEY" := "your_api_key_here";
                           "MARKER_PDF_KEY" := "sk-live-0123" ]}) Example.posix)).2
  = Raise (SystemExit 1).
Proof.
  set (w := set_environ _ Example.posix).
  destruct (main_enter Example.cli w) as [w' o] eqn:Hmain.
  destruct (primary_key_comes_first _ _ _ _ Hmain) as [Hfirst _].
  destruct (Hfirst "your_api_key_here") as (_ & Hexit & _); [by vm_compute | done |].
  by destruct (Hexit eq_refl) as [-> _].
Defined.

(** ** The progress bar *)

(** X11.  From [gather] on, the progress bar made by [main] counts the jobs
    that have their result: its total is the number of files found, its
    position is the number of finished jobs, never more than the total,
    and when the batch is over the two are equal. *)
Theorem progress_bar_counts_finished_jobs (ns : Namespace) (w w' : World) (args : Args)
    (files : gset Path) (files_to_convert : list Path) (b : Batch) :
  main_enter ns w = (w', Ok (AwaitGather args files)) →
  files_to_convert ≡ₚ elements files →
  reachable args files_to_convert w' b →
  pbar_total (world b) = size files
  ∧ pbar_n (world b) = sum_list_with finished (tasks b)
  ∧ pbar_n (world b) ≤ pbar_total (world b)
  ∧ ∀ rs, results_of b = Some rs →
      pbar_n (world b) = pbar_total (world b) ∧ length rs = pbar_total (world b).
Proof.
  intros Hmain Hperm Hb.
  apply main_enter_suspended in Hmain as (_ & _ & _ & Hn & Htotal & _).
  pose proof (reachable_pbar _ _ _ _ Hb) as Hpos. rewrite Hn in Hpos. cbn in Hpos.
  destruct (reachable_frame _ _ _ _ Hb) as (_ & _ & _ & _ & Htotal' & _).
  pose proof (reachable_jobs_of _ _ _ _ Hb) as [Hlen _].
  assert (length files_to_convert = size files) as Hsize.
  { rewrite Hperm. done. }
  pose proof (finished_le (tasks b)) as Hle.
  split_and!; [congruence | done | lia |].
  intros rs Hrs. rewrite Hpos, (results_of_tasks _ _ Hrs), finished_results.
  apply results_of_tasks in Hrs. rewrite Hrs, length_fmap in Hlen. lia.
Qed.

Lemma progress_bar_counts_finished_jobs_witness :
  pbar_total (main_enter Example.cli Example.posix).1 = 3
  ∧ pbar_n (main_enter Example.cli Example.posix).1 = 0.
Proof.
  set (files := {[ Example.at_ "/in/a.pdf"; Example.at_ "/in/B.PDF";
                   Example.at_ "/in/c.epub" ]} : gset Path).
  destruct (progress_bar_counts_finished_jobs Example.cli Example.posix
              (main_enter Example.cli Example.posix).1 Example.to_out files
              (elements files) (gather (elements files) (main_enter Example.cli Example.posix).1))
    as (Htotal & Hn & _); [apply main_enter_example | done | apply rtc_refl |].
  split; [|etrans; [exact Hn | apply finished_gather]].
  etrans; [exact Htotal|]. by vm_compute.
Defined.

(** ** More on discovery *)




(** X13.  No file the script writes is ever taken for a document: whatever
    the input directory and the format, discovery raises what [stat]
    refuses or returns a set in which no path has a name that ends with
    [.md], so the output of a job (of a file with a plain name) is not
    among the files to convert, also when the output directory is the
    input directory. *)
Theorem outputs_are_never_discovered (w : World) (input_path : Path) (fmt : Format) :
  match stat_error w input_path with
  | Some e => discover_files input_path fmt w = (w, Raise (Exception e))
  | None =>
      ∃ files,
        discover_files input_path fmt w = (w, Ok files)
        ∧ (∀ p, p ∈ files → Str.endswith (PurePath.name p) ".md" = false)
        ∧ (∀ f args, no_slash (PurePath.name f) = true → markdown_file_of f args ∉ files)
  end.
Proof.
  destruct (stat_error w input_path) as [e|] eqn:Hstat;
    [by apply discover_files_raises|].
  exists (discovered w input_path fmt). split; [by apply discover_files_eq|].
  assert (∀ p, p ∈ discovered w input_path fmt →
               Str.endswith (PurePath.name p) ".md" = false) as Hnames.
  { intros p (_ & n & -> & _ & ext & Hext & Hm)%elem_of_discovered.
    rewrite name_child. destruct (Str.endswith n ".md") eqn:Hends; [|done].
    apply endswith_spec in Hends as [x ->].
    by rewrite (markdown_never_matches w x ext fmt Hext) in Hm. }
  split; [done|]. intros f args Hname Hin. apply Hnames in Hin.
  rewrite markdown_file_child, name_child in Hin by done.
  assert (Str.endswith (PurePath.stem f +:+ ".md") ".md" = true) as Hmd.
  { apply endswith_spec. by eexists. }
  congruence.
Qed.

Lemma outputs_are_never_discovered_witness :
  ∃ files,
    discover_files (Example.at_ "/out") all Example.posix = (Example.posix, Ok files)
    ∧ markdown_file_of (Example.at_ "/in/a.pdf") Example.to_out ∉ files.
Proof.
  pose proof (outputs_are_never_discovered Example.posix (Example.at_ "/out") all)
    as Hfound.
  change (stat_error Example.posix (Example.at_ "/out")) with (@None string) in Hfound.
  destruct Hfound as (files & Hrun & _ & Hout).
  exists files. split; [done|]. by apply Hout.
Defined.

(** ** The length of the summary *)






(** ** Starting again after some jobs failed *)

(** A run that ends with status 0, as a batch: a run that found nothing
    is the batch of no job. *)
Lemma main_run_jobs (ns : Namespace) w run :
  main_run ns w run → status run = 0 →
  ∃ w1 wm fs b,
    let args := parse_args ns in
    not_configured (api_key_of w) = false
    ∧ makedirs (output args) w = (wm, Ok tt) ∧ tree w1 = tree wm
    ∧ calls w1 = calls w ∧ case_sensitive w1 = case_sensitive w
    ∧ fs ≡ₚ elements (discovered w1 (PurePath.of_string (input args)) (format args))
    ∧ reachable args fs w1 b
    ∧ results_of b = Some (results run)
    ∧ tree (final run) = tree (world b)
    ∧ calls (final run) = calls (world b).
Proof.
  intros Hrun Hzero.
  destruct (main_run_ok _ _ _ Hrun Hzero)
    as (w1 & wm & Hconf & Hmk & Htree & Hcalls & Hcs & Hcase).
  cbn zeta in Hcase. exists w1, wm.
  destruct Hcase as [(Hsize & Hres & Hfinal)|(_ & fs & b & ? & ? & ? & ? & ?)].
  - exists [], (gather [] w1). cbn zeta. rewrite Hres, Hfinal.
    apply size_empty_inv, leibniz_equiv in Hsize.
    split_and!; try done; [|apply rtc_refl].
    rewrite Hsize. by rewrite elements_empty.
  - exists fs, b. by split_and!.
Qed.

Lemma sum_list_with_Forall2 {A B} (R : A → B → Prop) (u : A → nat) (v : B → nat) l k :
  Forall2 R l k → (∀ x y, R x y → u x ≤ v y) →
  sum_list_with u l ≤ sum_list_with v k.
Proof.
  intros Hall Hle. induction Hall as [|x y l k Hxy _ IH]; [done|].
  cbn. specialize (Hle x y Hxy). lia.
Qed.

Lemma sum_list_with_fmap {A B} (g : A → B) (u : B → nat) l :
  sum_list_with u (g <$> l) = sum_list_with (u ∘ g) l.
Proof. induction l as [|x l IH]; [done|]. cbn. by rewrite IH. Qed.

(** One for a failed result. *)
Definition failed_job (r : Result) : nat := if r.1.1 then 0 else 1.

Lemma failed_job_failures rs : sum_list_with failed_job rs = length (failures rs).
Proof.
  unfold failures. induction rs as [|r rs IH]; [done|].
  cbn [sum_list_with]. unfold failed_job at 1. destruct (r.1.1) eqn:Hr.
  - by rewrite filter_cons_False by (by rewrite Hr).
  - rewrite filter_cons_True by done. cbn [length]. by rewrite IH.
Qed.

Lemma called_at_most_once r : called (Done r) ≤ 1.
Proof. cbn. destruct (_ && _); lia. Qed.

(** The jobs of a batch and its results, side by side. *)
Lemma results_beside_jobs args fs w0 b rs :
  reachable args fs w0 b → results_of b = Some rs →
  Forall2 (λ f r,
             job_result f r
             ∧ (r.1.1 = true → is_Some (lookup_node (world b) (markdown_file_of f args)))
             ∧ (is_Some (lookup_node w0 (markdown_file_of f args)) → r = skipped_result f))
          fs rs.
Proof.
  intros Hb Hrs. pose proof (reachable_jobs_of _ _ _ _ Hb) as Hjobs.
  destruct (results_of_length _ _ _ Hjobs Hrs) as [Hlen Hall].
  apply Forall2_same_length_lookup_2; [done|]. intros i f r Hf Hr.
  destruct (Hall i f Hf) as (r' & Hr' & Hdone & Hres).
  assert (r' = r) as -> by congruence.
  split_and!; [done | |].
  - intros Hsucc. by eapply reachable_success.
  - intros Hex.
    destruct (reachable_skips _ _ _ _ i f Hb Hf Hex) as [Hwait|Hskip]; [congruence|].
    rewrite Hdone in Hskip. by injection Hskip.
Qed.

(** X15.  Let a run of the script end with status 0, some of its jobs
    failed maybe, and let the script be started again on the same command
    line, with the files as that run left them.  The second run has the
    same jobs; every job that was a success in the first run is skipped
    in the second; and the second run calls the service at most once for
    each job that failed in the first, and for no other. *)
Theorem rerun_skips_what_succeeded (ns : Namespace) (w : World) (run1 run2 : Run) :
  slash_free w →
  main_run ns w run1 →
  status run1 = 0 →
  main_run ns (restart w (final run1)) run2 →
  status run2 = 0
  ∧ length (results run2) = length (results run1)
  ∧ (∀ r1 r2 : Result,
       r1 ∈ results run1 → r2 ∈ results run2 → r1.1.1 = true → r2.1.2 = r1.1.2 →
       r2 = (true, r1.1.2, "Skipped (exists)"))
  ∧ length (calls (final run2))
    ≤ length (calls (final run1)) + length (failures (results run1)).
Proof.
  intros Hwf Hrun1 Hzero1 Hrun2.
  set (args := parse_args ns). set (outp := PurePath.of_string (output args)).
  set (d := PurePath.of_string (input args)).
  destruct (main_run_jobs _ _ _ Hrun1 Hzero1)
    as (w1 & wm & fs1 & b1 & Hconf & Hmk & Htree1 & Hcalls1 & Hcs1 & Hperm1 & Hb1 & Hrs1
        & Hfinal1 & Hlog1).
  cbn zeta in Hmk, Hperm1, Hb1. fold args in Hmk, Hperm1, Hb1.
  fold outp in Hmk. fold d in Hperm1.
  (* the first run met no check that raises *)
  pose proof (main_run_status _ _ _ Hrun1) as Hst1. rewrite Hzero1 in Hst1.
  symmetry in Hst1. apply status_of_zero in Hst1 as (_ & wm0 & Hmk0 & Hd & Hchecks).
  fold args d in Hmk0, Hd, Hchecks. rewrite Hmk in Hmk0. injection Hmk0 as <-.
  pose proof (slash_free_makedirs _ _ _ _ Hwf Hmk) as Hwfm.
  pose proof (makedirs_from_spec _ _ _ _ _ _ _ Hmk) as (Hsb & _ & _ & Hmade).
  apply same_but_tree_frame in Hsb as ((_ & Hcsm & _) & _).
  rewrite (discovered_frame wm w1) in Hchecks by congruence.
  set (found := discovered w1 d (format args)) in *.
  assert (∀ p, on_the_way (root outp) [] (parts outp) p → tree w1 !! p = Some Dir)
    as Hout1 by (intros p Hp; rewrite Htree1; by apply Hmade).
  assert (slash_free w1) as Hwf1 by (by eapply slash_free_tree).
  assert (∀ f, f ∈ fs1 → f ∈ found) as Hfs1.
  { intros f Hf. apply elem_of_elements. by rewrite <- Hperm1. }
  pose proof (reachable_extends _ _ _ _ Hb1) as Hext1.
  (* the second start: the output directory is there, the same files are found *)
  set (w2 := restart w (final run1)) in *.
  assert (tree w2 = tree (world b1)) as Htree2 by done.
  assert (makedirs (output args) w2 = (w2, Ok tt)) as Hmk2.
  { apply makedirs_from_present. intros p Hp. rewrite Htree2.
    destruct (Hext1 p Dir (Hout1 p Hp)) as ([] & Hp2 & Hk); done. }
  assert (api_key_of w2 = api_key_of w) as Hkey2 by done.
  assert (discovered w2 d (format args) = found) as Hfound0.
  { by eapply (discovered_after args d (format args) fs1 w1 b1). }
  assert (status run2 = 0) as Hzero2.
  { rewrite (main_run_status _ _ _ Hrun2). apply status_of_zero.
    split; [by rewrite Hkey2|]. exists w2. fold args d. split_and!; [done | done |].
    rewrite Hfound0. exact Hchecks. }
  destruct (main_run_jobs _ _ _ Hrun2 Hzero2)
    as (v1 & vm & fs2 & b2 & _ & Hmk' & Htree' & Hcalls' & Hcs' & Hperm2 & Hb2 & Hrs2
        & Hfinal2 & Hlog2).
  cbn zeta in Hmk', Hperm2, Hb2. fold args in Hmk', Hperm2, Hb2.
  fold outp in Hmk'. fold d in Hperm2.
  rewrite Hmk2 in Hmk'. injection Hmk' as <-.
  assert (discovered v1 d (format args) = found) as Hfound2.
  { eapply (discovered_after args d (format args) fs1 w1 b1); try done.
    - congruence.
    - by rewrite Hcs', Hcs1. }
  rewrite Hfound2 in Hperm2.
  assert (∀ f, f ∈ fs2 → f ∈ found) as Hfs2.
  { intros f Hf. apply elem_of_elements. by rewrite <- Hperm2. }
  pose proof (results_beside_jobs _ _ _ _ _ Hb1 Hrs1) as Hall1.
  pose proof (results_beside_jobs _ _ _ _ _ Hb2 Hrs2) as Hall2.
  (* what the first run wrote is there when the second begins *)
  assert (∀ f, is_Some (lookup_node (world b1) (markdown_file_of f args)) →
               is_Some (lookup_node v1 (markdown_file_of f args))) as Hthere.
  { intros f Hex. unfold lookup_node in *. by rewrite Htree', Htree2. }
  split; [done|]. split_and!.
  - apply Forall2_length in Hall1, Hall2. rewrite <- Hall2, <- Hall1.
    by rewrite Hperm1, Hperm2.
  - intros r1 r2 [i Hr1]%list_elem_of_lookup_1 [j Hr2]%list_elem_of_lookup_1 Hsucc Hname.
    destruct (Forall2_lookup_r _ _ _ _ _ Hall1 Hr1) as (f & Hf & Hres1 & Hdone1 & _).
    destruct (Forall2_lookup_r _ _ _ _ _ Hall2 Hr2) as (g & Hg & Hres2 & _ & Hskip2).
    assert (r1.1.2 = PurePath.name f) as Hn1 by (by destruct Hres1 as [->|[->|[e ->]]]).
    assert (r2.1.2 = PurePath.name g) as Hn2 by (by destruct Hres2 as [->|[->|[e ->]]]).
    assert (g = f) as ->.
    { pose proof (Hfs1 f (list_elem_of_lookup_2 _ _ _ Hf))
        as (_ & n & -> & _)%elem_of_discovered.
      pose proof (Hfs2 g (list_elem_of_lookup_2 _ _ _ Hg))
        as (_ & m & -> & _)%elem_of_discovered.
      rewrite name_child in Hn1, Hn2. congruence. }
    rewrite Hskip2 by (by apply Hthere, Hdone1). unfold skipped_result. by rewrite Hn1.
  - rewrite Hlog2, (reachable_called_count _ _ _ _ Hb2), Hcalls'.
    assert (calls w2 = calls (final run1)) as -> by done.
    apply Nat.add_le_mono_l.
    rewrite (results_of_tasks _ _ Hrs2), sum_list_with_fmap, <- failed_job_failures.
    set (missing := λ f, if decide (is_Some (lookup_node v1 (markdown_file_of f args)))
                         then 0 else 1).
    trans (sum_list_with missing fs2).
    { eapply sum_list_with_Forall2; [apply Forall2_flip; exact Hall2|].
      intros r f (_ & _ & Hskip). unfold missing. cbn beta. case_decide as Hex.
      - by rewrite (Hskip Hex).
      - apply called_at_most_once. }
    rewrite Hperm2, <- Hperm1.
    eapply sum_list_with_Forall2; [exact Hall1|].
    intros f r (_ & Hdone & _). unfold missing, failed_job. cbn beta.
    destruct (r.1.1); [|case_decide; lia].
    rewrite decide_True by (by apply Hthere, Hdone). lia.
Qed.

Lemma rerun_skips_what_succeeded_witness :
  ∃ run1 run2,
    main_run Example.cli Example.posix run1
    ∧ main_run Example.cli (restart Example.posix (final run1)) run2
    ∧ status run2 = 0
    ∧ length (results run2) = length (results run1).
Proof.
  destruct (main_run_total Example.cli Example.posix) as [run1 Hrun1].
  destruct (main_run_total Example.cli (restart Example.posix (final run1))) as [run2 Hrun2].
  exists run1, run2.
  destruct (rerun_skips_what_succeeded Example.cli Example.posix run1 run2)
    as (Hzero & Hlen & _); [apply slash_free_example | done | | done | done].
  rewrite (main_run_status _ _ _ Hrun1). by vm_compute.
Defined.

(** ** What a run prints *)






(** ** An input directory that is not there *)



(** ** Why the files are put into a set *)

(** X18.  On a path flavour that does not tell small letters from capitals
    the two globs of an extension give the same paths, so that the list
    [main] collects, where the directory can be listed, has every file
    twice; on a flavour that does tell
    them apart no path is in both.  Either way the set of the files has
    every one of them once. *)
Theorem both_globs_agree_without_case (w : World) (input_path : Path) (fmt : Format)
    (ext : string) :
  ext ∈ extensions_of fmt →
  (case_sensitive w = false →
     glob input_path ("*" +:+ ext) w = glob input_path ("*" +:+ Str.upper ext) w
     ∧ (stat_error w input_path = None →
          ∃ l, glob_extensions input_path [ext] [] w = (w, Ok (l ++ l))))
  ∧ (case_sensitive w = true →
     ∀ l u, glob input_path ("*" +:+ ext) w = (w, Ok l) →
            glob input_path ("*" +:+ Str.upper ext) w = (w, Ok u) →
            ∀ p, p ∈ l → p ∉ u).
Proof.
  intros Hext.
  assert (plain ext = true) as Hplain.
  { by eapply Forall_forall in Hext; [|apply extensions_plain]. }
  pose proof Hplain as [[[H1 H2]%andb_true_iff H3%String.eqb_eq]%andb_true_iff
                         H4%String.eqb_eq]%andb_true_iff.
  split.
  - intros Hcs.
    assert (globbed w input_path ("*" +:+ ext)
            = globbed w input_path ("*" +:+ Str.upper ext)) as Hsame.
    { unfold globbed, fnmatch. rewrite Hcs, !lower_star, H3, H4. done. }
    split.
    { destruct (stat_error w input_path) as [e|] eqn:Hstat.
      - by rewrite !(glob_raises _ _ _ e).
      - by rewrite !glob_eq, Hsame. }
    intros Hstat. exists (globbed w input_path ("*" +:+ ext)).
    rewrite glob_extensions_eq by done. cbn [flat_map app].
    by rewrite app_nil_r, <- Hsame.
  - intros Hcs l u Hl Hu p Hp Hq.
    destruct (stat_error w input_path) as [e|] eqn:Hstat;
      [by rewrite (glob_raises _ _ _ e) in Hl|].
    rewrite glob_eq in Hl, Hu by done. injection Hl as <-. injection Hu as <-.
    apply elem_of_globbed in Hp as (_ & n & -> & _ & Hn).
    apply elem_of_globbed in Hq as (_ & m & Heq & _ & Hm).
    apply (inj (child _)) in Heq as <-.
    unfold fnmatch in Hn, Hm. rewrite Hcs in Hn, Hm.
    rewrite fnmatchcase_star in Hn, Hm by done.
    apply endswith_last_char in Hn, Hm.
    + rewrite Hn in Hm. clear -Hext Hm.
      destruct fmt; repeat (apply elem_of_cons in Hext as [->|Hext]);
        try (by apply elem_of_nil in Hext); done.
    + clear -Hext. destruct fmt; repeat (apply elem_of_cons in Hext as [->|Hext]);
        try (by apply elem_of_nil in Hext); done.
    + clear -Hext. destruct fmt; repeat (apply elem_of_cons in Hext as [->|Hext]);
        try (by apply elem_of_nil in Hext); done.
Qed.

Lemma both_globs_agree_without_case_witness :
  glob (Example.at_ "/docs") "*.pdf" (Example.docs false)
  = glob (Example.at_ "/docs") "*.PDF" (Example.docs false).
Proof.
  destruct (both_globs_agree_without_case (Example.docs false) (Example.at_ "/docs")
              pdf ".pdf") as [Hsame _]; [by left|].
  exact (proj1 (Hsame eq_refl)).
Defined.
